(** * ppixiv: the image-data cache and the image preloader

    A shallow embedding of [src/image_data.js] (class [image_data]) and of
    the preloader source (classes [_preloader], [_img_preloader],
    [_xhr_preloader], [image_preloader]), with the properties of the
    metadata cache and of the preload queue proved about them.

    JavaScript objects used as dictionaries are finite maps ([gmap]) keyed
    by strings, objects used as sets of flags are finite sets ([gset]),
    arrays are lists.  The browser's event loop is explicit: zero-delay
    timers are a FIFO queue, outstanding requests are a list, and every
    callback the code registers becomes an event handled by a step
    function. *)

From stdpp Require Import gmap strings list fin_maps.

#[global] Set Warnings "-clear-no-such-hyp".

(** ** Data shared by both classes *)

(** One entry of [illust_data.mangaPages]: [page.urls.small] and
    [page.urls.original]. *)
Record manga_page := MangaPage {
  urls_small : string;
  page_urls_original : string;
}.

(** [illust_data.ugoiraMetadata]; only [originalSrc] is read. *)
Record ugoira_metadata := UgoiraMetadata {
  originalSrc : string;
}.

(** The body of a user response.  The cache reads [userId]; the rest of the
    record is opaque to it and stands here as [user_name]. *)
Record user := User {
  user_userId : string;
  user_name : string;
}.

(** The body of an illustration response, with the two fields the cache
    adds to it ([ugoiraMetadata], [userInfo]); both are absent (undefined)
    on a fresh response. *)
Record illust := Illust {
  illustId : string;
  userId : string;
  illustType : nat;
  tags : list string;              (* illust_data.tags.tags *)
  urls_original : string;          (* illust_data.urls.original *)
  pageCount : nat;
  mangaPages : list manga_page;
  ugoiraMetadata : option ugoira_metadata;
  userInfo : option user;
}.

#[global] Instance manga_page_eq_dec : EqDecision manga_page.
Proof. solve_decision. Defined.
#[global] Instance ugoira_metadata_eq_dec : EqDecision ugoira_metadata.
Proof. solve_decision. Defined.
#[global] Instance user_eq_dec : EqDecision user.
Proof. solve_decision. Defined.
#[global] Instance illust_eq_dec : EqDecision illust.
Proof. solve_decision. Defined.

(** [illust_data.userInfo = user_data] *)
Definition set_userInfo (d : illust) (u : user) : illust :=
  {| illustId := illustId d; userId := userId d; illustType := illustType d;
     tags := tags d; urls_original := urls_original d;
     pageCount := pageCount d; mangaPages := mangaPages d;
     ugoiraMetadata := ugoiraMetadata d; userInfo := Some u |}.

(** [illust_data.ugoiraMetadata = ugoira_result.body] *)
Definition set_ugoiraMetadata (d : illust) (m : option ugoira_metadata) : illust :=
  {| illustId := illustId d; userId := userId d; illustType := illustType d;
     tags := tags d; urls_original := urls_original d;
     pageCount := pageCount d; mangaPages := mangaPages d;
     ugoiraMetadata := m; userInfo := userInfo d |}.

(** What the transport hands to a response callback: the [error] flag the
    handlers test and the [body] they read (absent when the response
    carries none). *)
Record response (A : Type) := Response {
  error : bool;
  body : option A;
}.
Arguments Response {A} _ _.
Arguments error {A} _.
Arguments body {A} _.

(** ** The metadata cache: class [image_data] *)

Module ImageData.

(** A caller's callback is an opaque function; it is known by a number and
    its invocation is recorded in the log [calls]. *)
Definition callback := nat.

Inductive call :=
| CallImage (cb : callback) (illust_data : illust)   (* callback(illust_data) *)
| CallUser (cb : callback) (ud : user).              (* callback(user_data) *)

(** The closures handed to [setTimeout(..., 0)]. *)
Inductive timer :=
| TLoadUserInfo (user_id : string)      (* this.load_user_info(illust_data.userId) *)
| TCallPendingCallbacks.                (* this.call_pending_callbacks() *)

(** Outbound requests.  The ugoira request carries the [illust_data] its
    callback closes over. *)
Inductive request :=
| ReqIllust (illust_id : string)        (* GET /ajax/illust/<id> *)
| ReqUser (user_id : string)            (* GET /ajax/user/<id> *)
| ReqUgoira (illust_data : illust).     (* helpers.fetch_ugoira_metadata(illust_id, ...) *)

#[global] Instance request_eq_dec : EqDecision request.
Proof. solve_decision. Defined.
#[global] Instance timer_eq_dec : EqDecision timer.
Proof. solve_decision. Defined.

(** The fields of the object, followed by the part of the event loop the
    object talks to: the timer queue, the requests awaiting a response, the
    log of every request made and the log of callback invocations.  The
    five dictionaries are objects written [{}]; the finite maps and sets
    hold the properties the code has stored in them, which is what a read
    [dict[key]] of the code finds for every key but the few names such an
    object inherits ([ImageDataSpec.object_prototype_names]). *)
Record state := State {
  image_data : gmap string illust;
  user_data : gmap string user;
  illust_id_to_user_id : gmap string string;
  loading_image_data_ids : gset string;
  loading_user_data_ids : gset string;
  pending_image_info_calls : list (string * callback);
  pending_user_info_calls : list (string * callback);
  timers : list timer;
  inflight : list request;
  sent : list request;
  calls : list call;
}.

(** The constructor. *)
Definition init : state :=
  {| image_data := ∅; user_data := ∅; illust_id_to_user_id := ∅;
     loading_image_data_ids := ∅; loading_user_data_ids := ∅;
     pending_image_info_calls := []; pending_user_info_calls := [];
     timers := []; inflight := []; sent := []; calls := [] |}.

Definition with_image_data (f : gmap string illust → gmap string illust) (s : state) : state :=
  {| image_data := f (image_data s); user_data := user_data s;
     illust_id_to_user_id := illust_id_to_user_id s;
     loading_image_data_ids := loading_image_data_ids s;
     loading_user_data_ids := loading_user_data_ids s;
     pending_image_info_calls := pending_image_info_calls s;
     pending_user_info_calls := pending_user_info_calls s;
     timers := timers s; inflight := inflight s; sent := sent s; calls := calls s |}.

Definition with_user_data (f : gmap string user → gmap string user) (s : state) : state :=
  {| image_data := image_data s; user_data := f (user_data s);
     illust_id_to_user_id := illust_id_to_user_id s;
     loading_image_data_ids := loading_image_data_ids s;
     loading_user_data_ids := loading_user_data_ids s;
     pending_image_info_calls := pending_image_info_calls s;
     pending_user_info_calls := pending_user_info_calls s;
     timers := timers s; inflight := inflight s; sent := sent s; calls := calls s |}.

Definition with_illust_id_to_user_id (f : gmap string string → gmap string string) (s : state) : state :=
  {| image_data := image_data s; user_data := user_data s;
     illust_id_to_user_id := f (illust_id_to_user_id s);
     loading_image_data_ids := loading_image_data_ids s;
     loading_user_data_ids := loading_user_data_ids s;
     pending_image_info_calls := pending_image_info_calls s;
     pending_user_info_calls := pending_user_info_calls s;
     timers := timers s; inflight := inflight s; sent := sent s; calls := calls s |}.

Definition with_loading_image_data_ids (f : gset string → gset string) (s : state) : state :=
  {| image_data := image_data s; user_data := user_data s;
     illust_id_to_user_id := illust_id_to_user_id s;
     loading_image_data_ids := f (loading_image_data_ids s);
     loading_user_data_ids := loading_user_data_ids s;
     pending_image_info_calls := pending_image_info_calls s;
     pending_user_info_calls := pending_user_info_calls s;
     timers := timers s; inflight := inflight s; sent := sent s; calls := calls s |}.

Definition with_loading_user_data_ids (f : gset string → gset string) (s : state) : state :=
  {| image_data := image_data s; user_data := user_data s;
     illust_id_to_user_id := illust_id_to_user_id s;
     loading_image_data_ids := loading_image_data_ids s;
     loading_user_data_ids := f (loading_user_data_ids s);
     pending_image_info_calls := pending_image_info_calls s;
     pending_user_info_calls := pending_user_info_calls s;
     timers := timers s; inflight := inflight s; sent := sent s; calls := calls s |}.

Definition with_pending_image_info_calls
    (f : list (string * callback) → list (string * callback)) (s : state) : state :=
  {| image_data := image_data s; user_data := user_data s;
     illust_id_to_user_id := illust_id_to_user_id s;
     loading_image_data_ids := loading_image_data_ids s;
     loading_user_data_ids := loading_user_data_ids s;
     pending_image_info_calls := f (pending_image_info_calls s);
     pending_user_info_calls := pending_user_info_calls s;
     timers := timers s; inflight := inflight s; sent := sent s; calls := calls s |}.

Definition with_pending_user_info_calls
    (f : list (string * callback) → list (string * callback)) (s : state) : state :=
  {| image_data := image_data s; user_data := user_data s;
     illust_id_to_user_id := illust_id_to_user_id s;
     loading_image_data_ids := loading_image_data_ids s;
     loading_user_data_ids := loading_user_data_ids s;
     pending_image_info_calls := pending_image_info_calls s;
     pending_user_info_calls := f (pending_user_info_calls s);
     timers := timers s; inflight := inflight s; sent := sent s; calls := calls s |}.

Definition with_timers (f : list timer → list timer) (s : state) : state :=
  {| image_data := image_data s; user_data := user_data s;
     illust_id_to_user_id := illust_id_to_user_id s;
     loading_image_data_ids := loading_image_data_ids s;
     loading_user_data_ids := loading_user_data_ids s;
     pending_image_info_calls := pending_image_info_calls s;
     pending_user_info_calls := pending_user_info_calls s;
     timers := f (timers s); inflight := inflight s; sent := sent s; calls := calls s |}.

Definition with_inflight (f : list request → list request) (s : state) : state :=
  {| image_data := image_data s; user_data := user_data s;
     illust_id_to_user_id := illust_id_to_user_id s;
     loading_image_data_ids := loading_image_data_ids s;
     loading_user_data_ids := loading_user_data_ids s;
     pending_image_info_calls := pending_image_info_calls s;
     pending_user_info_calls := pending_user_info_calls s;
     timers := timers s; inflight := f (inflight s); sent := sent s; calls := calls s |}.

Definition with_sent (f : list request → list request) (s : state) : state :=
  {| image_data := image_data s; user_data := user_data s;
     illust_id_to_user_id := illust_id_to_user_id s;
     loading_image_data_ids := loading_image_data_ids s;
     loading_user_data_ids := loading_user_data_ids s;
     pending_image_info_calls := pending_image_info_calls s;
     pending_user_info_calls := pending_user_info_calls s;
     timers := timers s; inflight := inflight s; sent := f (sent s); calls := calls s |}.

Definition with_calls (f : list call → list call) (s : state) : state :=
  {| image_data := image_data s; user_data := user_data s;
     illust_id_to_user_id := illust_id_to_user_id s;
     loading_image_data_ids := loading_image_data_ids s;
     loading_user_data_ids := loading_user_data_ids s;
     pending_image_info_calls := pending_image_info_calls s;
     pending_user_info_calls := pending_user_info_calls s;
     timers := timers s; inflight := inflight s; sent := sent s; calls := f (calls s) |}.

(** [setTimeout(f, 0)]: the closure joins the back of the timer queue. *)
Definition setTimeout (t : timer) (s : state) : state :=
  with_timers (λ q, q ++ [t]) s.

(** [helpers.get_request] / [helpers.fetch_ugoira_metadata]: the request
    leaves; its callback runs when the response event is delivered. *)
Definition send_request (r : request) (s : state) : state :=
  with_sent (λ l, l ++ [r]) (with_inflight (λ l, l ++ [r]) s).

(** Running a caller's callback that does not call the cache in its turn:
    the invocation is logged.  [ImageDataCallbacks.run_callback] is the
    callback that makes calls of its own. *)
Definition run_callback (c : call) (s : state) : state :=
  with_calls (λ l, l ++ [c]) s.

(** [load_user_info(user_id)] *)
Definition load_user_info (user_id : string) (s : state) : state :=
  if decide (user_id ∈ loading_user_data_ids s) then s
  else match user_data s !! user_id with
       | Some _ => setTimeout TCallPendingCallbacks s
       | None =>
           send_request (ReqUser user_id)
             (with_loading_user_data_ids (λ ids, {[user_id]} ∪ ids) s)
       end.

(** [load_image_info(illust_id)] *)
Definition load_image_info (illust_id : string) (s : state) : state :=
  let s := match illust_id_to_user_id s !! illust_id with
           | Some cached_user_id => load_user_info cached_user_id s
           | None => s
           end in
  if decide (illust_id ∈ loading_image_data_ids s) then s
  else match image_data s !! illust_id with
       | Some illust_data => load_user_info (userId illust_data) s
       | None =>
           send_request (ReqIllust illust_id)
             (with_loading_image_data_ids (λ ids, {[illust_id]} ∪ ids) s)
       end.

(** [get_image_info(illust_id, callback)]; [None] is a null callback. *)
Definition get_image_info (illust_id : string) (cb : option callback) (s : state) : state :=
  let s := match cb with
           | Some c => with_pending_image_info_calls (λ l, l ++ [(illust_id, c)]) s
           | None => s
           end in
  load_image_info illust_id s.

(** [get_user_info(user_id, callback)] *)
Definition get_user_info (user_id : string) (cb : option callback) (s : state) : state :=
  let s := match cb with
           | Some c => with_pending_user_info_calls (λ l, l ++ [(user_id, c)]) s
           | None => s
           end in
  load_user_info user_id s.

(** The first loop of [call_pending_callbacks], over the live array
    [pending_image_info_calls] with its index [i]: an entry that is not
    ready is skipped ([continue], then [++i]); a ready one gets the user
    attached, is spliced out ([splice(i, 1); --i], then [++i]) and its
    callback runs.  Every turn either advances [i] or shortens the array,
    so the array's length bounds the number of turns, the callbacks being
    those of [run_callback], which push nothing onto it. *)
Fixpoint image_info_loop (fuel i : nat) (s : state) : state :=
  match fuel with
  | 0 => s
  | S fuel =>
      match pending_image_info_calls s !! i with
      | None => s
      | Some (illust_id, cb) =>
          match image_data s !! illust_id with
          | None => image_info_loop fuel (S i) s
          | Some illust_data =>
              match user_data s !! userId illust_data with
              | None => image_info_loop fuel (S i) s
              | Some ud =>
                  let illust_data := set_userInfo illust_data ud in
                  let s := with_image_data (<[illust_id := illust_data]>) s in
                  let s := with_pending_image_info_calls (delete i) s in
                  let s := run_callback (CallImage cb illust_data) s in
                  image_info_loop fuel i s
              end
          end
      end
  end.

(** The second loop, over [pending_user_info_calls]. *)
Fixpoint user_info_loop (fuel i : nat) (s : state) : state :=
  match fuel with
  | 0 => s
  | S fuel =>
      match pending_user_info_calls s !! i with
      | None => s
      | Some (user_id, cb) =>
          match user_data s !! user_id with
          | None => user_info_loop fuel (S i) s
          | Some ud =>
              let s := with_pending_user_info_calls (delete i) s in
              let s := run_callback (CallUser cb ud) s in
              user_info_loop fuel i s
          end
      end
  end.

(** [call_pending_callbacks()] *)
Definition call_pending_callbacks (s : state) : state :=
  let s := image_info_loop (length (pending_image_info_calls s)) 0 s in
  user_info_loop (length (pending_user_info_calls s)) 0 s.

(** The closure [finished_loading_image_data] of [loaded_image_info]. *)
Definition finished_loading_image_data (illust_data : illust) (s : state) : state :=
  let illust_id := illustId illust_data in
  let s := with_loading_image_data_ids (λ ids, ids ∖ {[illust_id]}) s in
  let s := with_image_data (<[illust_id := illust_data]>) s in
  setTimeout (TLoadUserInfo (userId illust_data)) s.

(** [loaded_image_info(illust_result)].  A result without a body makes
    [illust_data.illustId] throw before anything is written. *)
Definition loaded_image_info (illust_result : response illust) (s : state) : state :=
  if error illust_result then s
  else match body illust_result with
       | None => s
       | Some illust_data =>
           let illust_id := illustId illust_data in
           let s := with_loading_image_data_ids (λ ids, {[illust_id]} ∪ ids) s in
           if Nat.eqb (illustType illust_data) 2
           then send_request (ReqUgoira illust_data) s
           else finished_loading_image_data illust_data s
       end.

(** The callback [loaded_image_info] passes to
    [helpers.fetch_ugoira_metadata]; [illust_data] is the object it closes
    over. *)
Definition loaded_ugoira_metadata (illust_data : illust)
    (ugoira_result : response ugoira_metadata) (s : state) : state :=
  finished_loading_image_data
    (set_ugoiraMetadata illust_data (body ugoira_result)) s.

(** [loaded_user_info(user_result)] *)
Definition loaded_user_info (user_result : response user) (s : state) : state :=
  if error user_result then s
  else match body user_result with
       | None => s
       | Some ud =>
           let user_id := user_userId ud in
           let s := with_loading_user_data_ids (λ ids, ids ∖ {[user_id]}) s in
           let s := with_user_data (<[user_id := ud]>) s in
           call_pending_callbacks s
       end.

(** [add_illust_data(illust_data)] *)
Definition add_illust_data (illust_data : illust) (s : state) : state :=
  loaded_image_info {| error := false; body := Some illust_data |} s.

(** [add_user_data(user_data)]; the result has no [error] field, which
    tests false. *)
Definition add_user_data (ud : user) (s : state) : state :=
  loaded_user_info {| error := false; body := Some ud |} s.

(** [set_user_id_for_illust_id(illust_id, user_id)] *)
Definition set_user_id_for_illust_id (illust_id user_id : string) (s : state) : state :=
  with_illust_id_to_user_id (<[illust_id := user_id]>) s.

(** *** The event loop *)

(** Remove the answered request from the outstanding ones. *)
Fixpoint answered (r : request) (l : list request) : list request :=
  match l with
  | [] => []
  | x :: l => if decide (x = r) then l else x :: answered r l
  end.

(** How often a request occurs in a list of requests. *)
Definition fetches (r : request) (l : list request) : nat :=
  length (filter (λ x, x = r) l).

(** What can happen to the object: a call of one of its methods, the oldest
    zero-delay timer firing, or the response to an outstanding request
    reaching its callback. *)
Inductive event :=
| EvGetImageInfo (illust_id : string) (cb : option callback)
| EvGetUserInfo (user_id : string) (cb : option callback)
| EvAddIllustData (illust_data : illust)
| EvAddUserData (ud : user)
| EvSetUserIdForIllustId (illust_id user_id : string)
| EvTimeout
| EvIllustResponse (illust_id : string) (r : response illust)
| EvUserResponse (user_id : string) (r : response user)
| EvUgoiraResponse (illust_data : illust) (r : response ugoira_metadata).

Definition fire (t : timer) (s : state) : state :=
  match t with
  | TLoadUserInfo user_id => load_user_info user_id s
  | TCallPendingCallbacks => call_pending_callbacks s
  end.

(** One turn of the event loop; [None] when the event cannot happen in the
    state (no timer queued, no such request outstanding). *)
Definition step (e : event) (s : state) : option state :=
  match e with
  | EvGetImageInfo illust_id cb => Some (get_image_info illust_id cb s)
  | EvGetUserInfo user_id cb => Some (get_user_info user_id cb s)
  | EvAddIllustData d => Some (add_illust_data d s)
  | EvAddUserData u => Some (add_user_data u s)
  | EvSetUserIdForIllustId i u => Some (set_user_id_for_illust_id i u s)
  | EvTimeout =>
      match timers s with
      | [] => None
      | t :: q => Some (fire t (with_timers (λ _, q) s))
      end
  | EvIllustResponse illust_id r =>
      if decide (ReqIllust illust_id ∈ inflight s)
      then Some (loaded_image_info r (with_inflight (answered (ReqIllust illust_id)) s))
      else None
  | EvUserResponse user_id r =>
      if decide (ReqUser user_id ∈ inflight s)
      then Some (loaded_user_info r (with_inflight (answered (ReqUser user_id)) s))
      else None
  | EvUgoiraResponse d r =>
      if decide (ReqUgoira d ∈ inflight s)
      then Some (loaded_ugoira_metadata d r (with_inflight (answered (ReqUgoira d)) s))
      else None
  end.

Fixpoint run (evs : list event) (s : state) : option state :=
  match evs with
  | [] => Some s
  | e :: evs =>
      match step e s with
      | Some s => run evs s
      | None => None
      end
  end.

(** The states the object can be in. *)
Definition reachable (s : state) : Prop := ∃ evs, run evs init = Some s.

End ImageData.


(** ** The cache with callbacks that call back into it

    [call_pending_callbacks] runs the callers' callbacks in the middle of
    its two loops, and a callback is free to call the methods of the cache
    (the comment at the head of the function expects [get_image_info]).
    The loops walk the live arrays and read their length anew on every
    turn, so what a callback pushes is met by the loop that is running, and
    a callback that calls [add_user_data] starts a scan inside the scan.
    The definitions of this module are those of [ImageData] with a callback
    that, once it has been handed its argument, makes the calls
    [calls_made] lists for it.  A loop that the callbacks keep feeding does
    not end: [fuel] bounds the turns of a loop and the depth of the
    nesting, and the result is [None] when it is used up. *)
Module ImageDataCallbacks.
Import ImageData.

(** A call of a method of the cache, made by a callback. *)
Inductive method_call :=
| GetImageInfo (illust_id : string) (cb : option callback)
| GetUserInfo (user_id : string) (cb : option callback)
| AddIllustData (illust_data : illust)
| AddUserData (ud : user)
| SetUserIdForIllustId (illust_id user_id : string).

Section WithCallbacks.

(** The calls a callback makes, given the invocation (which callback, on
    which argument).  A callback that throws makes the calls up to the
    throw; the [catch] of the loop then goes on. *)
Variable calls_made : call → list method_call.

Section Scan.

(** [call_pending_callbacks], one level of nesting further down. *)
Variable nested_scan : state → option state.

(** [loaded_user_info(user_result)] *)
Definition loaded_user_info_with (user_result : response user) (s : state)
    : option state :=
  if error user_result then Some s
  else match body user_result with
       | None => Some s
       | Some ud =>
           let user_id := user_userId ud in
           let s := with_loading_user_data_ids (λ ids, ids ∖ {[user_id]}) s in
           let s := with_user_data (<[user_id := ud]>) s in
           nested_scan s
       end.

(** One call made by a callback. *)
Definition method (m : method_call) (s : state) : option state :=
  match m with
  | GetImageInfo illust_id cb => Some (get_image_info illust_id cb s)
  | GetUserInfo user_id cb => Some (get_user_info user_id cb s)
  | AddIllustData illust_data => Some (add_illust_data illust_data s)
  | AddUserData ud => loaded_user_info_with {| error := false; body := Some ud |} s
  | SetUserIdForIllustId illust_id user_id =>
      Some (set_user_id_for_illust_id illust_id user_id s)
  end.

(** Running a caller's callback: it is handed its argument and makes its
    calls, one after the other. *)
Definition run_callback (c : call) (s : state) : option state :=
  foldl (λ acc m, acc ≫= method m) (Some (ImageData.run_callback c s)) (calls_made c).

(** The first loop of [call_pending_callbacks]. *)
Fixpoint image_info_loop (fuel i : nat) (s : state) : option state :=
  match fuel with
  | 0 => None
  | S fuel =>
      match pending_image_info_calls s !! i with
      | None => Some s
      | Some (illust_id, cb) =>
          match image_data s !! illust_id with
          | None => image_info_loop fuel (S i) s
          | Some illust_data =>
              match user_data s !! userId illust_data with
              | None => image_info_loop fuel (S i) s
              | Some ud =>
                  let illust_data := set_userInfo illust_data ud in
                  let s := with_image_data (<[illust_id := illust_data]>) s in
                  let s := with_pending_image_info_calls (delete i) s in
                  run_callback (CallImage cb illust_data) s ≫= image_info_loop fuel i
              end
          end
      end
  end.

(** The second loop. *)
Fixpoint user_info_loop (fuel i : nat) (s : state) : option state :=
  match fuel with
  | 0 => None
  | S fuel =>
      match pending_user_info_calls s !! i with
      | None => Some s
      | Some (user_id, cb) =>
          match user_data s !! user_id with
          | None => user_info_loop fuel (S i) s
          | Some ud =>
              let s := with_pending_user_info_calls (delete i) s in
              run_callback (CallUser cb ud) s ≫= user_info_loop fuel i
          end
      end
  end.

End Scan.

(** [call_pending_callbacks()] *)
Fixpoint call_pending_callbacks (fuel : nat) (s : state) : option state :=
  match fuel with
  | 0 => None
  | S fuel =>
      image_info_loop (call_pending_callbacks fuel) fuel 0 s ≫=
      user_info_loop (call_pending_callbacks fuel) fuel 0
  end.

(** [loaded_user_info(user_result)] *)
Definition loaded_user_info (fuel : nat) (user_result : response user) (s : state)
    : option state :=
  loaded_user_info_with (call_pending_callbacks fuel) user_result s.

(** [add_user_data(user_data)] *)
Definition add_user_data (fuel : nat) (ud : user) (s : state) : option state :=
  loaded_user_info fuel {| error := false; body := Some ud |} s.

Definition fire (fuel : nat) (t : timer) (s : state) : option state :=
  match t with
  | TLoadUserInfo user_id => Some (load_user_info user_id s)
  | TCallPendingCallbacks => call_pending_callbacks fuel s
  end.

(** One turn of the event loop; [None] when the event cannot happen in the
    state, or when a scan it starts has not ended within [fuel]. *)
Definition step (fuel : nat) (e : event) (s : state) : option state :=
  match e with
  | EvGetImageInfo illust_id cb => Some (get_image_info illust_id cb s)
  | EvGetUserInfo user_id cb => Some (get_user_info user_id cb s)
  | EvAddIllustData d => Some (add_illust_data d s)
  | EvAddUserData u => add_user_data fuel u s
  | EvSetUserIdForIllustId i u => Some (set_user_id_for_illust_id i u s)
  | EvTimeout =>
      match timers s with
      | [] => None
      | t :: q => fire fuel t (with_timers (λ _, q) s)
      end
  | EvIllustResponse illust_id r =>
      if decide (ReqIllust illust_id ∈ inflight s)
      then Some (loaded_image_info r (with_inflight (answered (ReqIllust illust_id)) s))
      else None
  | EvUserResponse user_id r =>
      if decide (ReqUser user_id ∈ inflight s)
      then loaded_user_info fuel r (with_inflight (answered (ReqUser user_id)) s)
      else None
  | EvUgoiraResponse d r =>
      if decide (ReqUgoira d ∈ inflight s)
      then Some (loaded_ugoira_metadata d r (with_inflight (answered (ReqUgoira d)) s))
      else None
  end.

Fixpoint run (fuel : nat) (evs : list event) (s : state) : option state :=
  match evs with
  | [] => Some s
  | e :: evs =>
      match step fuel e s with
      | Some s => run fuel evs s
      | None => None
      end
  end.

End WithCallbacks.

End ImageDataCallbacks.
(** ** The preloader: classes [_preloader], [_img_preloader],
    [_xhr_preloader] and [image_preloader] *)

Module ImagePreloader.

(** The two subclasses of [_preloader]: [_img_preloader] decodes the URL
    as an image, [_xhr_preloader] fetches it as a resource. *)
Inductive preloader_class := img_preloader | xhr_preloader.

(** The field [abort_controller] of a [_preloader]: never assigned, an
    [AbortController], or [null] after [cancel()]. *)
Inductive abort_state := ac_undefined | ac_controller | ac_null.

Record preloader := Preloader {
  class : preloader_class;
  url : string;
  abort_controller : abort_state;
}.

#[global] Instance preloader_class_eq_dec : EqDecision preloader_class.
Proof. solve_decision. Defined.
#[global] Instance abort_state_eq_dec : EqDecision abort_state.
Proof. solve_decision. Defined.
#[global] Instance preloader_eq_dec : EqDecision preloader.
Proof. solve_decision. Defined.

(** [new _img_preloader(url)] *)
Definition _img_preloader (u : string) : preloader :=
  {| class := img_preloader; url := u; abort_controller := ac_undefined |}.

(** [new _xhr_preloader(url)] *)
Definition _xhr_preloader (u : string) : preloader :=
  {| class := xhr_preloader; url := u; abort_controller := ac_undefined |}.

(** [start()], up to its [await]: the controller is created and the
    transfer begins. *)
Definition start (p : preloader) : preloader :=
  {| class := class p; url := url p; abort_controller := ac_controller |}.

(** [cancel()] *)
Definition cancel (p : preloader) : preloader :=
  match abort_controller p with
  | ac_controller => {| class := class p; url := url p; abort_controller := ac_null |}
  | _ => p
  end.

(** A task is running when its transfer was started and no abort was
    asked for. *)
Definition running (p : preloader) : bool :=
  bool_decide (abort_controller p = ac_controller).

(** [Array.prototype.indexOf]; [None] stands for [-1]. *)
Fixpoint indexOf {A : Type} `{EqDecision A} (l : list A) (x : A) : option nat :=
  match l with
  | [] => None
  | y :: l => if decide (y = x) then Some 0 else S <$> indexOf l x
  end.

(** The two targets of the preloader. *)
Inductive target := Current | Speculative.

#[global] Instance target_eq_dec : EqDecision target.
Proof. solve_decision. Defined.

(** The fields of the object, followed by the part of the event loop it
    talks to.  An object in [preloads] is a pair of its identity (the
    number of its allocation) and its fields; [indexOf(preload)] compares
    identities.  [next_ref] is the next identity to hand out, [unsettled]
    the started tasks whose [start()] promise has not settled (with the URL
    their [finally] closure reads), [awaiting] the calls of
    [set_current_image] and [set_speculative_image] suspended at their
    [await], and [preloaded_thumbs] the batches handed to
    [helpers.preload_images]. *)
Record state := State {
  current_illust_id : option string;
  current_illust_info : option illust;
  speculative_illust_id : option string;
  speculative_illust_info : option illust;
  preloads : list (nat * preloader);
  recently_preloaded_urls : list string;
  next_ref : nat;
  unsettled : list (nat * string);
  awaiting : list (target * string);
  preloaded_thumbs : list (list string);
}.

(** The constructor; the target fields start out undefined, which [==]
    does not tell from [null]. *)
Definition init : state :=
  {| current_illust_id := None; current_illust_info := None;
     speculative_illust_id := None; speculative_illust_info := None;
     preloads := []; recently_preloaded_urls := [];
     next_ref := 0; unsettled := []; awaiting := []; preloaded_thumbs := [] |}.

Definition with_current (id : option string) (info : option illust) (s : state) : state :=
  {| current_illust_id := id; current_illust_info := info;
     speculative_illust_id := speculative_illust_id s;
     speculative_illust_info := speculative_illust_info s;
     preloads := preloads s; recently_preloaded_urls := recently_preloaded_urls s;
     next_ref := next_ref s; unsettled := unsettled s; awaiting := awaiting s;
     preloaded_thumbs := preloaded_thumbs s |}.

Definition with_speculative (id : option string) (info : option illust) (s : state) : state :=
  {| current_illust_id := current_illust_id s;
     current_illust_info := current_illust_info s;
     speculative_illust_id := id; speculative_illust_info := info;
     preloads := preloads s; recently_preloaded_urls := recently_preloaded_urls s;
     next_ref := next_ref s; unsettled := unsettled s; awaiting := awaiting s;
     preloaded_thumbs := preloaded_thumbs s |}.

Definition with_preloads (f : list (nat * preloader) → list (nat * preloader)) (s : state) : state :=
  {| current_illust_id := current_illust_id s;
     current_illust_info := current_illust_info s;
     speculative_illust_id := speculative_illust_id s;
     speculative_illust_info := speculative_illust_info s;
     preloads := f (preloads s); recently_preloaded_urls := recently_preloaded_urls s;
     next_ref := next_ref s; unsettled := unsettled s; awaiting := awaiting s;
     preloaded_thumbs := preloaded_thumbs s |}.

Definition with_recently_preloaded_urls (f : list string → list string) (s : state) : state :=
  {| current_illust_id := current_illust_id s;
     current_illust_info := current_illust_info s;
     speculative_illust_id := speculative_illust_id s;
     speculative_illust_info := speculative_illust_info s;
     preloads := preloads s; recently_preloaded_urls := f (recently_preloaded_urls s);
     next_ref := next_ref s; unsettled := unsettled s; awaiting := awaiting s;
     preloaded_thumbs := preloaded_thumbs s |}.

Definition with_next_ref (n : nat) (s : state) : state :=
  {| current_illust_id := current_illust_id s;
     current_illust_info := current_illust_info s;
     speculative_illust_id := speculative_illust_id s;
     speculative_illust_info := speculative_illust_info s;
     preloads := preloads s; recently_preloaded_urls := recently_preloaded_urls s;
     next_ref := n; unsettled := unsettled s; awaiting := awaiting s;
     preloaded_thumbs := preloaded_thumbs s |}.

Definition with_unsettled (f : list (nat * string) → list (nat * string)) (s : state) : state :=
  {| current_illust_id := current_illust_id s;
     current_illust_info := current_illust_info s;
     speculative_illust_id := speculative_illust_id s;
     speculative_illust_info := speculative_illust_info s;
     preloads := preloads s; recently_preloaded_urls := recently_preloaded_urls s;
     next_ref := next_ref s; unsettled := f (unsettled s); awaiting := awaiting s;
     preloaded_thumbs := preloaded_thumbs s |}.

Definition with_awaiting (f : list (target * string) → list (target * string)) (s : state) : state :=
  {| current_illust_id := current_illust_id s;
     current_illust_info := current_illust_info s;
     speculative_illust_id := speculative_illust_id s;
     speculative_illust_info := speculative_illust_info s;
     preloads := preloads s; recently_preloaded_urls := recently_preloaded_urls s;
     next_ref := next_ref s; unsettled := unsettled s; awaiting := f (awaiting s);
     preloaded_thumbs := preloaded_thumbs s |}.

Definition with_preloaded_thumbs (f : list (list string) → list (list string)) (s : state) : state :=
  {| current_illust_id := current_illust_id s;
     current_illust_info := current_illust_info s;
     speculative_illust_id := speculative_illust_id s;
     speculative_illust_info := speculative_illust_info s;
     preloads := preloads s; recently_preloaded_urls := recently_preloaded_urls s;
     next_ref := next_ref s; unsettled := unsettled s; awaiting := awaiting s;
     preloaded_thumbs := f (preloaded_thumbs s) |}.

(** [concurrent_preloads] of [check_fetch_queue]. *)
Definition concurrent_preloads : nat := 5.

(** The length [recently_preloaded_urls] is cut back to. *)
Definition recently_preloaded_max : nat := 1000.

(** [_find_active_preload_by_url(url)] *)
Fixpoint _find_active_preload_by_url (l : list (nat * preloader)) (u : string)
    : option (nat * preloader) :=
  match l with
  | [] => None
  | preload :: l =>
      if decide (url preload.2 = u) then Some preload
      else _find_active_preload_by_url l u
  end.

(** [updated_preload_list.indexOf(preload)], on identities. *)
Definition indexOf_ref (l : list (nat * preloader)) (r : nat) : option nat :=
  indexOf (fst <$> l) r.

(** The last loop of [check_fetch_queue]: every object of [this.preloads]
    not already in [updated_preload_list] is cancelled and pushed onto
    it. *)
Fixpoint cancel_unwanted (old updated_preload_list : list (nat * preloader))
    : list (nat * preloader) :=
  match old with
  | [] => updated_preload_list
  | preload :: old =>
      match indexOf_ref updated_preload_list preload.1 with
      | Some _ => cancel_unwanted old updated_preload_list
      | None =>
          cancel_unwanted old (updated_preload_list ++ [(preload.1, cancel preload.2)])
      end
  end.

Section WithMuting.

(** The muting singleton: [muting.singleton.any_tag_muted] and
    [muting.singleton.is_muted_user_id]. *)
Variable any_tag_muted : list string → bool.
Variable is_muted_user_id : string → bool.

(** [create_preloaders_for_illust(illust_data)].  [None] is the TypeError
    of reading [originalSrc] off an absent [ugoiraMetadata]. *)
Definition create_preloaders_for_illust (illust_data : illust) : option (list preloader) :=
  if any_tag_muted (tags illust_data) then Some []
  else if is_muted_user_id (userId illust_data) then Some []
  else if Nat.eqb (illustType illust_data) 2 then
    match ugoiraMetadata illust_data with
    | None => None
    | Some meta =>
        Some [_xhr_preloader (originalSrc meta);
              _img_preloader (urls_original illust_data)]
    end
  else
    let results := (λ page, _img_preloader (urls_small page)) <$> mangaPages illust_data in
    match mangaPages illust_data with
    | page0 :: _ => Some (results ++ [_img_preloader (page_urls_original page0)])
    | [] => Some results
    end.

(** The list [wanted_preloads] of [check_fetch_queue]. *)
Definition wanted_preloads (s : state) : option (list preloader) :=
  match current_illust_info s with
  | Some info => create_preloaders_for_illust info
  | None => Some []
  end ≫= λ wanted,
  match speculative_illust_info s with
  | Some info => (λ l, wanted ++ l) <$> create_preloaders_for_illust info
  | None => Some wanted
  end.

(** The list [filtered_preloads] of [check_fetch_queue] before
    [splice]. *)
Definition remove_recently_preloaded (recent : list string) (wanted : list preloader)
    : list preloader :=
  filter (λ preload, indexOf recent (url preload) = None) wanted.

(** [filtered_preloads] once [splice(concurrent_preloads)] has cut it. *)
Definition filtered_preloads (s : state) : option (list preloader) :=
  (λ wanted, take concurrent_preloads
               (remove_recently_preloaded (recently_preloaded_urls s) wanted))
  <$> wanted_preloads s.

(** [check_fetch_queue()].  A TypeError while the candidates are derived
    is thrown before any field is written, and no caller has anything left
    to do after the call, so it shows as the unchanged state. *)
Definition check_fetch_queue (s : state) : state :=
  match wanted_preloads s with
  | None => s
  | Some wanted =>
      match remove_recently_preloaded (recently_preloaded_urls s) wanted with
      | [] => s
      | filtered =>
          let filtered := take concurrent_preloads filtered in
          if existsb (λ preload,
                bool_decide (is_Some (_find_active_preload_by_url (preloads s) (url preload))))
               filtered
          then s
          else match filtered with
               | [] => s
               | preload :: _ =>
                   let r := next_ref s in
                   let updated_preload_list := [(r, start preload)] in
                   let updated_preload_list :=
                     cancel_unwanted (preloads s) updated_preload_list in
                   with_preloads (λ _, updated_preload_list)
                     (with_unsettled (λ l, (r, url preload) :: l)
                        (with_next_ref (S r) s))
               end
      end
  end.

(** The closure passed to [preload.start().finally(...)], for the object
    [r] with URL [u]. *)
Definition settled (r : nat) (u : string) (s : state) : state :=
  let s := with_recently_preloaded_urls (λ l, l ++ [u]) s in
  let s := with_recently_preloaded_urls
             (λ l, drop (length l - recently_preloaded_max) l) s in
  match indexOf_ref (preloads s) r with
  | None => s
  | Some idx => check_fetch_queue (with_preloads (delete idx) s)
  end.

(** [preload_thumbs(illust_info)] *)
Definition preload_thumbs (illust_info : illust) (s : state) : state :=
  if Nat.ltb (pageCount illust_info) 2 then s
  else with_preloaded_thumbs
         (λ l, l ++ [urls_small <$> mangaPages illust_info]) s.

(** [set_current_image(illust_id)] up to its [await]: the state, and the
    identifier whose metadata the call now waits for (if it got that
    far). *)
Definition set_current_image (illust_id : option string) (s : state)
    : state * option string :=
  if decide (current_illust_id s = illust_id) then (s, None)
  else
    let s := with_current illust_id None s in
    match illust_id with
    | None => (s, None)
    | Some id => (s, Some id)
    end.

(** [set_current_image(illust_id)] from its [await] on; [illust_info] is
    the value the awaited [get_image_info] produced, [None] when it is no
    object (reading [pageCount] off it then throws in [preload_thumbs]). *)
Definition set_current_image_resumed (illust_id : string)
    (illust_info : option illust) (s : state) : state :=
  if decide (current_illust_id s ≠ Some illust_id ∨ current_illust_info s ≠ None) then s
  else
    let s := with_current (current_illust_id s) illust_info s in
    match illust_info with
    | None => s
    | Some info => check_fetch_queue (preload_thumbs info s)
    end.

(** [set_speculative_image(illust_id)] up to its [await]. *)
Definition set_speculative_image (illust_id : option string) (s : state)
    : state * option string :=
  if decide (speculative_illust_id s = illust_id) then (s, None)
  else
    let s := with_speculative illust_id None s in
    match illust_id with
    | None => (s, None)
    | Some id => (s, Some id)
    end.

(** [set_speculative_image(illust_id)] from its [await] on. *)
Definition set_speculative_image_resumed (illust_id : string)
    (illust_info : option illust) (s : state) : state :=
  if decide (speculative_illust_id s ≠ Some illust_id ∨ speculative_illust_info s ≠ None)
  then s
  else
    let s := with_speculative (speculative_illust_id s) illust_info s in
    match illust_info with
    | None => s
    | Some info => check_fetch_queue (preload_thumbs info s)
    end.

(** *** The event loop *)

(** Remove the first occurrence of an element. *)
Fixpoint remove_first {A : Type} `{EqDecision A} (x : A) (l : list A) : list A :=
  match l with
  | [] => []
  | y :: l => if decide (y = x) then l else y :: remove_first x l
  end.

(** The URL the [finally] closure of the unsettled task [r] reads. *)
Fixpoint unsettled_url (l : list (nat * string)) (r : nat) : option string :=
  match l with
  | [] => None
  | (r', u) :: l => if decide (r' = r) then Some u else unsettled_url l r
  end.

(** What can happen to the preloader: a call of one of the two setters, a
    suspended setter resuming with the metadata it awaited, or the
    [start()] promise of a task settling (fulfilled or rejected, which
    [finally] does not tell apart). *)
Inductive event :=
| EvSetCurrentImage (illust_id : option string)
| EvSetSpeculativeImage (illust_id : option string)
| EvResumed (t : target) (illust_id : string) (illust_info : option illust)
| EvSettled (r : nat).

Definition suspend (t : target) (r : state * option string) : state :=
  match r.2 with
  | Some id => with_awaiting (λ l, l ++ [(t, id)]) r.1
  | None => r.1
  end.

(** One turn of the event loop; [None] when the event cannot happen in the
    state. *)
Definition step (e : event) (s : state) : option state :=
  match e with
  | EvSetCurrentImage illust_id => Some (suspend Current (set_current_image illust_id s))
  | EvSetSpeculativeImage illust_id =>
      Some (suspend Speculative (set_speculative_image illust_id s))
  | EvResumed t illust_id illust_info =>
      if decide ((t, illust_id) ∈ awaiting s) then
        let s := with_awaiting (remove_first (t, illust_id)) s in
        Some (match t with
              | Current => set_current_image_resumed illust_id illust_info s
              | Speculative => set_speculative_image_resumed illust_id illust_info s
              end)
      else None
  | EvSettled r =>
      match unsettled_url (unsettled s) r with
      | Some u => Some (settled r u (with_unsettled (remove_first (r, u)) s))
      | None => None
      end
  end.

Fixpoint run (evs : list event) (s : state) : option state :=
  match evs with
  | [] => Some s
  | e :: evs =>
      match step e s with
      | Some s => run evs s
      | None => None
      end
  end.

End WithMuting.

(** The states the preloader can be in, for a given muting singleton. *)
Definition reachable (any_tag_muted : list string → bool)
    (is_muted_user_id : string → bool) (s : state) : Prop :=
  ∃ evs, run any_tag_muted is_muted_user_id evs init = Some s.

End ImagePreloader.

(** ** Predicates the statements about the cache are written with *)

Module ImageDataSpec.
Import ImageData.

(** A request that was made has its key flagged as loading or its answer
    cached, so no request is made twice; and what is outstanding was
    made. *)
Record ledger_ok (s : state) : Prop := LedgerOk {
  ledger_illust : ∀ k, ReqIllust k ∈ sent s →
    k ∈ loading_image_data_ids s ∨ k ∈ dom (image_data s);
  ledger_illust_once : ∀ k, fetches (ReqIllust k) (sent s) ≤ 1;
  ledger_user : ∀ k, ReqUser k ∈ sent s →
    k ∈ loading_user_data_ids s ∨ k ∈ dom (user_data s);
  ledger_user_once : ∀ k, fetches (ReqUser k) (sent s) ≤ 1;
  ledger_inflight : ∀ r, fetches r (inflight s) ≤ fetches r (sent s);
  ledger_user_loading : ∀ k, k ∈ loading_user_data_ids s → user_data s !! k = None;
}.

(** The invocation a pending entry of [pending_image_info_calls] is owed
    once the illustration and its user are both cached: the callback, on
    the cached illustration with the cached user attached. *)
Definition due_image (s : state) (e : string * callback) : option call :=
  match image_data s !! e.1 with
  | None => None
  | Some d =>
      match user_data s !! userId d with
      | None => None
      | Some u => Some (CallImage e.2 (set_userInfo d u))
      end
  end.

(** The same for an entry of [pending_user_info_calls]. *)
Definition due_user (s : state) (e : string * callback) : option call :=
  match user_data s !! e.1 with
  | None => None
  | Some u => Some (CallUser e.2 u)
  end.

(** The callback an image invocation ran. *)
Definition image_callback (c : call) : option callback :=
  match c with
  | CallImage cb _ => Some cb
  | CallUser _ _ => None
  end.


Definition occurrences (cb : callback) (l : list callback) : nat :=
  length (filter (λ x, x = cb) l).




(** Cached users sit under their own [userId], and every image callback
    that ran was handed an illustration with its user attached. *)
Record cache_ok (s : state) : Prop := CacheOk {
  cache_user_key : ∀ k u, user_data s !! k = Some u → user_userId u = k;
  cache_calls : ∀ cb d, CallImage cb d ∈ calls s →
    ∃ u, userInfo d = Some u ∧ user_userId u = userId d;
}.




(** Sample data for the concrete runs: an illustration of user 9 with one
    page, an animation of the same user, and the user. *)
Definition sample_user : user :=
  {| user_userId := "9"; user_name := "nine" |}.

Definition sample_illust : illust :=
  {| illustId := "1"; userId := "9"; illustType := 0; tags := ["sky"];
     urls_original := "o1";
     pageCount := 1;
     mangaPages := [ {| urls_small := "s1"; page_urls_original := "o1" |} ];
     ugoiraMetadata := None; userInfo := None |}.

Definition sample_ugoira : illust :=
  {| illustId := "2"; userId := "9"; illustType := 2; tags := ["sea"];
     urls_original := "o2";
     pageCount := 1;
     mangaPages := [ {| urls_small := "s2"; page_urls_original := "o2" |} ];
     ugoiraMetadata := None; userInfo := None |}.

Definition ok {A : Type} (x : A) : response A :=
  {| error := false; body := Some x |}.

Definition failure {A : Type} : response A :=
  {| error := true; body := None |}.

(** The callback a user invocation ran. *)
Definition user_callback (c : call) : option callback :=
  match c with
  | CallUser cb _ => Some cb
  | CallImage _ _ => None
  end.

(** The callback a call of [get_user_info] registers. *)
Definition user_registration (e : event) : option callback :=
  match e with
  | EvGetUserInfo _ cb => cb
  | _ => None
  end.

(** How often [cb] was invoked with user data so far, how many entries of
    [pending_user_info_calls] hold it, and how many of the events are
    calls [get_user_info(_, cb)]. *)
Definition invoked_user (cb : callback) (s : state) : nat :=
  occurrences cb (omap user_callback (calls s)).

Definition waiting_user (cb : callback) (s : state) : nat :=
  occurrences cb (snd <$> pending_user_info_calls s).

Definition registered_user (cb : callback) (evs : list event) : nat :=
  occurrences cb (omap user_registration evs).

(** The requests for a user [u] or an illustration [k] need not be made:
    one is outstanding (or was, and failed) or the answer is cached. *)
Definition user_settled (s : state) (u : string) : Prop :=
  u ∈ loading_user_data_ids s ∨ is_Some (user_data s !! u).

Definition illust_settled (s : state) (k : string) : Prop :=
  k ∈ loading_image_data_ids s ∨ is_Some (image_data s !! k).

(** From [s] to [s'] the caches only grew, and no request was made for a
    key that was cached in [s]. *)
Record cache_grew (s s' : state) : Prop := CacheGrew {
  grew_image : dom (image_data s) ⊆ dom (image_data s');
  grew_user : dom (user_data s) ⊆ dom (user_data s');
  grew_image_quiet : ∀ k, k ∈ dom (image_data s) →
    fetches (ReqIllust k) (sent s') = fetches (ReqIllust k) (sent s);
  grew_user_quiet : ∀ k, k ∈ dom (user_data s) →
    fetches (ReqUser k) (sent s') = fetches (ReqUser k) (sent s);
}.

(** *** Identifiers and the dictionaries

    The five dictionaries of the cache are objects written [{}], read with
    [dict[key]].  Such an object inherits the properties of
    [Object.prototype]: read at one of the names below it gives the
    inherited function instead of [undefined], whatever was stored.  The
    finite maps and sets of [ImageData.state] stand for the properties the
    code has stored, and agree with the reads of the code on every other
    key.  An identifier of the site is a decimal number and is none of
    these names. *)
Definition object_prototype_names : list string :=
  ["constructor"; "hasOwnProperty"; "isPrototypeOf"; "propertyIsEnumerable";
   "toLocaleString"; "toString"; "valueOf"; "__proto__";
   "__defineGetter__"; "__defineSetter__"; "__lookupGetter__";
   "__lookupSetter__"].

Definition ordinary_key (key : string) : Prop := key ∉ object_prototype_names.

(** The keys under which an illustration or a user is read and stored. *)
Definition illust_keys (d : illust) : list string := [illustId d; userId d].

(** The keys an event brings into the cache. *)
Definition event_keys (e : event) : list string :=
  match e with
  | EvGetImageInfo illust_id _ => [illust_id]
  | EvGetUserInfo user_id _ => [user_id]
  | EvAddIllustData d => illust_keys d
  | EvAddUserData u => [user_userId u]
  | EvSetUserIdForIllustId illust_id user_id => [illust_id; user_id]
  | EvTimeout => []
  | EvIllustResponse illust_id r =>
      illust_id :: match body r with Some d => illust_keys d | None => [] end
  | EvUserResponse user_id r =>
      user_id :: match body r with Some u => [user_userId u] | None => [] end
  | EvUgoiraResponse d _ => illust_keys d
  end.

Definition ordinary_event (e : event) : Prop := Forall ordinary_key (event_keys e).

(** Callbacks that never call the cache. *)
Definition quiet (calls_made : call → list ImageDataCallbacks.method_call) : Prop :=
  ∀ c, calls_made c = [].

(** Callbacks that call nothing but [get_image_info] and [get_user_info]. *)
Definition only_requests (calls_made : call → list ImageDataCallbacks.method_call)
    : Prop :=
  ∀ c m, m ∈ calls_made c →
    match m with
    | ImageDataCallbacks.GetImageInfo _ _ | ImageDataCallbacks.GetUserInfo _ _ => True
    | _ => False
    end.



(** A callback (number 1) that, handed its illustration, asks for
    illustration 1 with callback 2; the other callbacks call nothing. *)
Definition asks_again (c : call) : list ImageDataCallbacks.method_call :=
  match c with
  | CallImage 1 _ => [ImageDataCallbacks.GetImageInfo "1" (Some 2)]
  | _ => []
  end.

End ImageDataSpec.
(** ** Predicates the statements about the preloader are written with *)

Module ImagePreloaderSpec.
Import ImagePreloader.

(** The candidates a target contributes: those of its metadata, none while
    the metadata is missing. *)
Definition candidates_of (any_tag_muted : list string → bool)
    (is_muted_user_id : string → bool) (info : option illust)
    : option (list preloader) :=
  match info with
  | Some illust_data =>
      create_preloaders_for_illust any_tag_muted is_muted_user_id illust_data
  | None => Some []
  end.

(** The wanted list as the specification words it: the candidates of the
    current target, then those of the speculative target, without those
    whose URL completed recently, cut to the first five. *)
Definition derived_order (current speculative : list preloader)
    (recently_completed : list string) : list preloader :=
  take 5 (filter (λ c, url c ∉ recently_completed) (current ++ speculative)).

(** Whether the URL of a candidate is the URL of a task in [preloads]. *)
Definition active (s : state) (c : preloader) : bool :=
  bool_decide (is_Some (_find_active_preload_by_url (preloads s) (url c))).

(** The state after [check_fetch_queue] has started the candidate [c]:
    [c] is allocated and started, every listed task not in the new list is
    cancelled and kept, and the promise of [c] is outstanding. *)
Definition start_preload (s : state) (c : preloader) : state :=
  with_preloads (λ _, cancel_unwanted (preloads s) [(next_ref s, start c)])
    (with_unsettled (λ l, (next_ref s, url c) :: l)
       (with_next_ref (S (next_ref s)) s)).

(** The identity and URL of a listed task. *)
Definition task_key (rp : nat * preloader) : nat * string := (rp.1, url rp.2).

(** [cancel()] on a listed task. *)
Definition cancel_task (rp : nat * preloader) : nat * preloader := (rp.1, cancel rp.2).

(** The number of listed tasks that are running. *)
Definition running_tasks (s : state) : nat :=
  length (filter (λ rp, running rp.2 = true) (preloads s)).

(** What holds of [preloads] in every state the preloader reaches:
    identities are distinct and older than [next_ref], the listed tasks
    are exactly the started tasks that have not settled, in the same
    order, and at most one of them is running. *)
Record bookkeeping_ok (s : state) : Prop := BookkeepingOk {
  refs_fresh : ∀ r, r ∈ (preloads s).*1 → r < next_ref s;
  refs_nodup : NoDup (preloads s).*1;
  listed_unsettled : unsettled s = task_key <$> preloads s;
  one_running : running_tasks s ≤ 1;
}.

(** A muting singleton that mutes nothing, and one that mutes the tag
    [r18] and user 13. *)
Definition mute_no_tag (tags : list string) : bool := false.
Definition mute_no_user (user_id : string) : bool := false.
Definition mute_tag_r18 (tags : list string) : bool :=
  bool_decide ("r18"%string ∈ tags).
Definition mute_user_13 (user_id : string) : bool :=
  bool_decide (user_id = "13"%string).

(** Sample metadata: [item_a] has one page, [item_b] is an animation with
    its ugoira metadata, [item_m] has three pages, [item_long] has five. *)
Definition item_a : illust :=
  {| illustId := "1"; userId := "9"; illustType := 0; tags := ["sky"];
     urls_original := "a/o1"; pageCount := 1;
     mangaPages := [ {| urls_small := "a/s1"; page_urls_original := "a/o1" |} ];
     ugoiraMetadata := None; userInfo := None |}.

Definition item_b : illust :=
  {| illustId := "2"; userId := "9"; illustType := 2; tags := ["sea"];
     urls_original := "b/o1"; pageCount := 1;
     mangaPages := [ {| urls_small := "b/s1"; page_urls_original := "b/o1" |} ];
     ugoiraMetadata := Some {| originalSrc := "b/zip" |}; userInfo := None |}.

Definition item_m : illust :=
  {| illustId := "3"; userId := "9"; illustType := 1; tags := ["hill"];
     urls_original := "m/o1"; pageCount := 3;
     mangaPages := [ {| urls_small := "m/s1"; page_urls_original := "m/o1" |};
                     {| urls_small := "m/s2"; page_urls_original := "m/o2" |};
                     {| urls_small := "m/s3"; page_urls_original := "m/o3" |} ];
     ugoiraMetadata := None; userInfo := None |}.

Definition item_long : illust :=
  {| illustId := "4"; userId := "9"; illustType := 1; tags := ["road"];
     urls_original := "l/o1"; pageCount := 5;
     mangaPages := [ {| urls_small := "l/s1"; page_urls_original := "l/o1" |};
                     {| urls_small := "l/s2"; page_urls_original := "l/o2" |};
                     {| urls_small := "l/s3"; page_urls_original := "l/o3" |};
                     {| urls_small := "l/s4"; page_urls_original := "l/o4" |};
                     {| urls_small := "l/s5"; page_urls_original := "l/o5" |} ];
     ugoiraMetadata := None; userInfo := None |}.

Definition item_muted : illust :=
  {| illustId := "5"; userId := "9"; illustType := 0; tags := ["r18"];
     urls_original := "x/o1"; pageCount := 1;
     mangaPages := [ {| urls_small := "x/s1"; page_urls_original := "x/o1" |} ];
     ugoiraMetadata := None; userInfo := None |}.

(** Two runs: the current target changes from [item_a] to [item_m] while
    the first preload of [item_a] is running; and the current target is
    unset while its preload is running and a speculative target waits. *)
Definition run_switch_target : list event :=
  [EvSetCurrentImage (Some "1"); EvResumed Current "1" (Some item_a);
   EvSetCurrentImage (Some "3"); EvResumed Current "3" (Some item_m)].

Definition run_unset_target : list event :=
  [EvSetCurrentImage (Some "1"); EvSetSpeculativeImage (Some "2");
   EvResumed Current "1" (Some item_a); EvResumed Speculative "2" (Some item_b);
   EvSetCurrentImage None].

Definition state_after (evs : list event) : state :=
  default init (run mute_no_tag mute_no_user evs init).

(** The URLs of the listed tasks, in the order of [preloads]. *)
Definition listed_urls (s : state) : list string :=
  (λ rp : nat * preloader, url rp.2) <$> preloads s.

(** What holds of the URLs in every state the preloader reaches:
    [recently_preloaded_urls] never grows beyond its bound and holds no URL
    twice, no two listed tasks load the same URL, and no listed task loads
    a URL that is in [recently_preloaded_urls]. *)
Record urls_ok (s : state) : Prop := UrlsOk {
  recent_bounded : length (recently_preloaded_urls s) ≤ recently_preloaded_max;
  recent_nodup : NoDup (recently_preloaded_urls s);
  listed_nodup : NoDup (listed_urls s);
  listed_not_recent : ∀ u, u ∈ listed_urls s → u ∉ recently_preloaded_urls s;
}.

(** An illustration whose candidates cannot be derived: an animation that
    is not muted and has no ugoira metadata. *)
Definition lacks_metadata (any_tag_muted : list string → bool)
    (is_muted_user_id : string → bool) (illust_data : illust) : Prop :=
  any_tag_muted (tags illust_data) = false ∧
  is_muted_user_id (userId illust_data) = false ∧
  illustType illust_data = 2 ∧
  ugoiraMetadata illust_data = None.

(** The metadata stored for a target, and the call that sets a target. *)
Definition target_info (t : target) (s : state) : option illust :=
  match t with
  | Current => current_illust_info s
  | Speculative => speculative_illust_info s
  end.

Definition set_target (t : target) (illust_id : option string) : event :=
  match t with
  | Current => EvSetCurrentImage illust_id
  | Speculative => EvSetSpeculativeImage illust_id
  end.

(** An animation whose ugoira metadata is missing, and a muted
    illustration with three pages. *)
Definition item_broken : illust :=
  {| illustId := "6"; userId := "9"; illustType := 2; tags := ["sea"];
     urls_original := "k/o1"; pageCount := 1;
     mangaPages := [ {| urls_small := "k/s1"; page_urls_original := "k/o1" |} ];
     ugoiraMetadata := None; userInfo := None |}.

Definition item_muted_manga : illust :=
  {| illustId := "7"; userId := "9"; illustType := 1; tags := ["r18"];
     urls_original := "y/o1"; pageCount := 3;
     mangaPages := [ {| urls_small := "y/s1"; page_urls_original := "y/o1" |};
                     {| urls_small := "y/s2"; page_urls_original := "y/o2" |};
                     {| urls_small := "y/s3"; page_urls_original := "y/o3" |} ];
     ugoiraMetadata := None; userInfo := None |}.

End ImagePreloaderSpec.

(** ** Properties of the metadata cache *)

Module ImageDataFacts.
Import ImageData ImageDataSpec.

Ltac unfold_state :=
  unfold setTimeout, send_request, run_callback,
    with_image_data, with_user_data, with_illust_id_to_user_id,
    with_loading_image_data_ids, with_loading_user_data_ids,
    with_pending_image_info_calls, with_pending_user_info_calls,
    with_timers, with_inflight, with_sent, with_calls in *;
  simpl in *.

(** *** Counting requests *)

Lemma fetches_app r l1 l2 : fetches r (l1 ++ l2) = fetches r l1 + fetches r l2.
Proof. unfold fetches. by rewrite filter_app, length_app. Qed.

Lemma fetches_cons r x l :
  fetches r (x :: l) = (if decide (x = r) then 1 else 0) + fetches r l.
Proof. unfold fetches. rewrite filter_cons. by case_decide. Qed.

Lemma fetches_snoc r x l :
  fetches r (l ++ [x]) = fetches r l + (if decide (x = r) then 1 else 0).
Proof. rewrite fetches_app, fetches_cons. unfold fetches. simpl. lia. Qed.

Lemma fetches_zero r l : r ∉ l → fetches r l = 0.
Proof.
  induction l as [|x l IH]; intros Hnot; [done|].
  rewrite fetches_cons. apply not_elem_of_cons in Hnot as [Hne Hnot].
  rewrite decide_False by done. by rewrite IH.
Qed.

Lemma fetches_pos r l : r ∈ l → 0 < fetches r l.
Proof.
  induction l as [|x l IH]; intros Hin; [by apply elem_of_nil in Hin|].
  rewrite fetches_cons. apply elem_of_cons in Hin as [->|Hin].
  - rewrite decide_True by done. lia.
  - specialize (IH Hin). lia.
Qed.

Lemma fetches_answered r r' l : fetches r (answered r' l) ≤ fetches r l.
Proof.
  induction l as [|x l IH]; [done|]. simpl. case_decide.
  - rewrite fetches_cons. lia.
  - rewrite !fetches_cons. lia.
Qed.

(** *** What the scan of the pending calls leaves alone *)

Lemma image_info_loop_frame fuel i s :
  let s' := image_info_loop fuel i s in
  user_data s' = user_data s ∧
  illust_id_to_user_id s' = illust_id_to_user_id s ∧
  loading_image_data_ids s' = loading_image_data_ids s ∧
  loading_user_data_ids s' = loading_user_data_ids s ∧
  pending_user_info_calls s' = pending_user_info_calls s ∧
  timers s' = timers s ∧ inflight s' = inflight s ∧ sent s' = sent s ∧
  dom (image_data s') = dom (image_data s).
Proof.
  revert i s. induction fuel as [|fuel IH]; intros i s; simpl; [done|].
  destruct (pending_image_info_calls s !! i) as [[illust_id cb]|]; [|done].
  destruct (image_data s !! illust_id) as [d|] eqn:Hd; [|apply IH].
  destruct (user_data s !! userId d) as [u|]; [|apply IH].
  match goal with |- context [image_info_loop fuel i ?t] =>
    destruct (IH i t) as (-> & -> & -> & -> & -> & -> & -> & -> & ->) end.
  unfold_state. repeat split; try done.
  rewrite dom_insert_L. apply elem_of_dom_2 in Hd. set_solver.
Qed.

Lemma user_info_loop_frame fuel i s :
  let s' := user_info_loop fuel i s in
  image_data s' = image_data s ∧
  user_data s' = user_data s ∧
  illust_id_to_user_id s' = illust_id_to_user_id s ∧
  loading_image_data_ids s' = loading_image_data_ids s ∧
  loading_user_data_ids s' = loading_user_data_ids s ∧
  pending_image_info_calls s' = pending_image_info_calls s ∧
  timers s' = timers s ∧ inflight s' = inflight s ∧ sent s' = sent s.
Proof.
  revert i s. induction fuel as [|fuel IH]; intros i s; simpl; [done|].
  destruct (pending_user_info_calls s !! i) as [[user_id cb]|]; [|done].
  destruct (user_data s !! user_id) as [u|]; [|apply IH].
  match goal with |- context [user_info_loop fuel i ?t] =>
    destruct (IH i t) as (-> & -> & -> & -> & -> & -> & -> & -> & ->) end.
  done.
Qed.

Lemma call_pending_callbacks_frame s :
  let s' := call_pending_callbacks s in
  user_data s' = user_data s ∧
  illust_id_to_user_id s' = illust_id_to_user_id s ∧
  loading_image_data_ids s' = loading_image_data_ids s ∧
  loading_user_data_ids s' = loading_user_data_ids s ∧
  timers s' = timers s ∧ inflight s' = inflight s ∧ sent s' = sent s ∧
  dom (image_data s') = dom (image_data s).
Proof.
  unfold call_pending_callbacks. simpl.
  match goal with |- context [user_info_loop ?f 0 ?t] =>
    destruct (user_info_loop_frame f 0 t) as (-> & -> & -> & -> & -> & _ & -> & -> & ->) end.
  destruct (image_info_loop_frame (length (pending_image_info_calls s)) 0 s)
    as (-> & -> & -> & -> & _ & -> & -> & -> & ->).
  done.
Qed.

(** *** The fetch ledger *)

Lemma ledger_ok_init : ledger_ok init.
Proof.
  split; simpl; intros; try done; try (by exfalso; eapply not_elem_of_nil);
    set_solver.
Qed.

Lemma ledger_ok_load_user_info u s : ledger_ok s → ledger_ok (load_user_info u s).
Proof.
  intros [H1 H2 H3 H4 H5 H6]. unfold load_user_info.
  case_decide as Hl; [done|].
  destruct (user_data s !! u) eqn:Hu; [by split|].
  assert (ReqUser u ∉ sent s) as Hfresh.
  { intros Hin. apply H3 in Hin as [|Hin]; [done|].
    apply elem_of_dom in Hin as [? ?]. congruence. }
  split; unfold_state.
  - intros k Hin. apply elem_of_app in Hin as [Hin|Hin]; [by apply H1|].
    apply list_elem_of_singleton in Hin. done.
  - intros k. rewrite fetches_snoc, decide_False by done. specialize (H2 k). lia.
  - intros k Hin. apply elem_of_app in Hin as [Hin|Hin].
    + apply H3 in Hin. set_solver.
    + apply list_elem_of_singleton in Hin. set_solver.
  - intros k. rewrite fetches_snoc. case_decide as Hk.
    + inversion Hk; subst. rewrite fetches_zero by done. lia.
    + specialize (H4 k). lia.
  - intros r. rewrite !fetches_snoc. specialize (H5 r). lia.
  - intros k Hin. apply elem_of_union in Hin as [Hin|Hin]; [|by apply H6].
    apply elem_of_singleton in Hin. by subst.
Qed.

Lemma ledger_ok_load_image_info k s : ledger_ok s → ledger_ok (load_image_info k s).
Proof.
  intros Hok. unfold load_image_info.
  set (s1 := match illust_id_to_user_id s !! k with
             | Some c => load_user_info c s | None => s end).
  assert (ledger_ok s1) as [H1 H2 H3 H4 H5 H6].
  { unfold s1. destruct (illust_id_to_user_id s !! k); [|done].
    by apply ledger_ok_load_user_info. }
  case_decide as Hl; [done|].
  destruct (image_data s1 !! k) as [d|] eqn:Hd;
    [by apply ledger_ok_load_user_info|].
  assert (ReqIllust k ∉ sent s1) as Hfresh.
  { intros Hin. apply H1 in Hin as [|Hin]; [done|].
    apply elem_of_dom in Hin as [? ?]. congruence. }
  split; unfold_state.
  - intros k' Hin. apply elem_of_app in Hin as [Hin|Hin].
    + apply H1 in Hin. set_solver.
    + apply list_elem_of_singleton in Hin. set_solver.
  - intros k'. rewrite fetches_snoc. case_decide as Hk.
    + inversion Hk; subst. rewrite fetches_zero by done. lia.
    + specialize (H2 k'). lia.
  - intros k' Hin. apply elem_of_app in Hin as [Hin|Hin]; [by apply H3|].
    apply list_elem_of_singleton in Hin. done.
  - intros k'. rewrite fetches_snoc, decide_False by done. specialize (H4 k'). lia.
  - intros r. rewrite !fetches_snoc. specialize (H5 r). lia.
  - done.
Qed.

Lemma ledger_ok_pending_image f s :
  ledger_ok s → ledger_ok (with_pending_image_info_calls f s).
Proof. by intros []. Qed.

Lemma ledger_ok_pending_user f s :
  ledger_ok s → ledger_ok (with_pending_user_info_calls f s).
Proof. by intros []. Qed.

Lemma ledger_ok_call_pending_callbacks s :
  ledger_ok s → ledger_ok (call_pending_callbacks s).
Proof.
  intros [H1 H2 H3 H4 H5 H6].
  destruct (call_pending_callbacks_frame s) as (Hu & _ & Hli & Hlu & _ & Hin & Hs & Hd).
  split; rewrite ?Hu, ?Hli, ?Hlu, ?Hin, ?Hs, ?Hd; done.
Qed.

Lemma ledger_ok_finished_loading_image_data d s :
  ledger_ok s → ledger_ok (finished_loading_image_data d s).
Proof.
  intros [H1 H2 H3 H4 H5 H6]. unfold finished_loading_image_data.
  split; unfold_state; try done.
  intros k Hin. apply H1 in Hin. rewrite dom_insert_L.
  destruct (decide (k = illustId d)); set_solver.
Qed.

Lemma ledger_ok_loaded_image_info r s :
  ledger_ok s → ledger_ok (loaded_image_info r s).
Proof.
  intros Hok. unfold loaded_image_info.
  destruct (error r); [done|]. destruct (body r) as [d|]; [|done].
  assert (ledger_ok (with_loading_image_data_ids (λ ids, {[illustId d]} ∪ ids) s)) as Hok'.
  { destruct Hok as [H1 H2 H3 H4 H5 H6]. split; unfold_state; try done.
    intros k Hin. apply H1 in Hin. set_solver. }
  destruct (Nat.eqb (illustType d) 2); [|by apply ledger_ok_finished_loading_image_data].
  destruct Hok' as [H1 H2 H3 H4 H5 H6]. split; unfold_state; try done.
  - intros k Hin. apply elem_of_app in Hin as [Hin|Hin]; [by apply H1|].
    apply list_elem_of_singleton in Hin. done.
  - intros k. rewrite fetches_snoc, decide_False by done. specialize (H2 k). lia.
  - intros k Hin. apply elem_of_app in Hin as [Hin|Hin]; [by apply H3|].
    apply list_elem_of_singleton in Hin. done.
  - intros k. rewrite fetches_snoc, decide_False by done. specialize (H4 k). lia.
  - intros r'. rewrite !fetches_snoc. specialize (H5 r'). lia.
Qed.

Lemma ledger_ok_loaded_user_info r s :
  ledger_ok s → ledger_ok (loaded_user_info r s).
Proof.
  intros Hok. unfold loaded_user_info.
  destruct (error r); [done|]. destruct (body r) as [u|]; [|done].
  apply ledger_ok_call_pending_callbacks.
  destruct Hok as [H1 H2 H3 H4 H5 H6]. split; unfold_state; try done.
  - intros k Hin. apply H3 in Hin. rewrite dom_insert_L.
    destruct (decide (k = user_userId u)); set_solver.
  - intros k Hin. apply elem_of_difference in Hin as [Hin Hne].
    rewrite lookup_insert_ne by set_solver. by apply H6.
Qed.

Lemma ledger_ok_answered r s :
  ledger_ok s → ledger_ok (with_inflight (answered r) s).
Proof.
  intros [H1 H2 H3 H4 H5 H6]. split; unfold_state; try done.
  intros r'. pose proof (fetches_answered r' r (inflight s)). specialize (H5 r'). lia.
Qed.

Lemma ledger_ok_step e s s' : ledger_ok s → step e s = Some s' → ledger_ok s'.
Proof.
  intros Hok Hstep. destruct e; simpl in Hstep.
  - inversion Hstep; subst. unfold get_image_info.
    apply ledger_ok_load_image_info. destruct cb; [|done].
    by apply ledger_ok_pending_image.
  - inversion Hstep; subst. unfold get_user_info.
    apply ledger_ok_load_user_info. destruct cb; [|done].
    by apply ledger_ok_pending_user.
  - inversion Hstep; subst. by apply ledger_ok_loaded_image_info.
  - inversion Hstep; subst. by apply ledger_ok_loaded_user_info.
  - inversion Hstep; subst. by destruct Hok.
  - destruct (timers s) as [|t q] eqn:Ht; [done|]. inversion Hstep; subst.
    assert (ledger_ok (with_timers (λ _, q) s)) as Hok' by (by destruct Hok).
    destruct t; simpl.
    + by apply ledger_ok_load_user_info.
    + by apply ledger_ok_call_pending_callbacks.
  - case_decide; [|done]. inversion Hstep; subst.
    by apply ledger_ok_loaded_image_info, ledger_ok_answered.
  - case_decide; [|done]. inversion Hstep; subst.
    by apply ledger_ok_loaded_user_info, ledger_ok_answered.
  - case_decide; [|done]. inversion Hstep; subst.
    unfold loaded_ugoira_metadata.
    by apply ledger_ok_finished_loading_image_data, ledger_ok_answered.
Qed.

Lemma ledger_ok_run evs s s' : ledger_ok s → run evs s = Some s' → ledger_ok s'.
Proof.
  revert s. induction evs as [|e evs IH]; intros s Hok Hrun; simpl in Hrun.
  - by inversion Hrun; subst.
  - destruct (step e s) as [s1|] eqn:Hstep; [|done].
    eapply IH; [|done]. by eapply ledger_ok_step.
Qed.

Lemma ledger_ok_reachable s : reachable s → ledger_ok s.
Proof. intros [evs Hrun]. eapply ledger_ok_run; [apply ledger_ok_init|done]. Qed.

(** *** The log of requests only grows *)

Lemma fetches_prefix r (l1 l2 : list request) :
  l1 `prefix_of` l2 → fetches r l1 ≤ fetches r l2.
Proof. intros [l ->]. rewrite fetches_app. lia. Qed.

Lemma sent_load_user_info u s : sent s `prefix_of` sent (load_user_info u s).
Proof.
  unfold load_user_info. case_decide; [done|].
  destruct (user_data s !! u); [done|]. unfold_state. by apply prefix_app_r.
Qed.

Lemma sent_load_image_info k s : sent s `prefix_of` sent (load_image_info k s).
Proof.
  unfold load_image_info.
  set (s1 := match illust_id_to_user_id s !! k with
             | Some c => load_user_info c s | None => s end).
  assert (sent s `prefix_of` sent s1) as Hs1.
  { unfold s1. destruct (illust_id_to_user_id s !! k); [|done].
    apply sent_load_user_info. }
  case_decide; [done|]. destruct (image_data s1 !! k).
  - etrans; [done|]. apply sent_load_user_info.
  - unfold_state. etrans; [done|]. by apply prefix_app_r.
Qed.

Lemma sent_loaded_image_info r s : sent s `prefix_of` sent (loaded_image_info r s).
Proof.
  unfold loaded_image_info. destruct (error r); [done|].
  destruct (body r) as [d|]; [|done].
  destruct (Nat.eqb (illustType d) 2); unfold_state; [by apply prefix_app_r|done].
Qed.

Lemma sent_loaded_user_info r s : sent s `prefix_of` sent (loaded_user_info r s).
Proof.
  unfold loaded_user_info. destruct (error r); [done|].
  destruct (body r) as [u|]; [|done].
  match goal with |- context [call_pending_callbacks ?t] =>
    destruct (call_pending_callbacks_frame t) as (_ & _ & _ & _ & _ & _ & -> & _) end.
  done.
Qed.

Lemma sent_step e s s' : step e s = Some s' → sent s `prefix_of` sent s'.
Proof.
  intros Hstep. destruct e; simpl in Hstep.
  - inversion Hstep; subst. unfold get_image_info.
    etrans; [|apply sent_load_image_info]. by destruct cb.
  - inversion Hstep; subst. unfold get_user_info.
    etrans; [|apply sent_load_user_info]. by destruct cb.
  - inversion Hstep; subst. apply sent_loaded_image_info.
  - inversion Hstep; subst. apply sent_loaded_user_info.
  - by inversion Hstep; subst.
  - destruct (timers s) as [|t q]; [done|]. inversion Hstep; subst.
    destruct t; simpl.
    + etrans; [|apply sent_load_user_info]. done.
    + match goal with |- context [call_pending_callbacks ?t] =>
        destruct (call_pending_callbacks_frame t) as (_ & _ & _ & _ & _ & _ & -> & _) end.
      done.
  - case_decide; [|done]. inversion Hstep; subst.
    etrans; [|apply sent_loaded_image_info]. done.
  - case_decide; [|done]. inversion Hstep; subst.
    etrans; [|apply sent_loaded_user_info]. done.
  - case_decide; [|done]. by inversion Hstep; subst.
Qed.

Lemma sent_run evs s s' : run evs s = Some s' → sent s `prefix_of` sent s'.
Proof.
  revert s. induction evs as [|e evs IH]; intros s Hrun; simpl in Hrun.
  - by inversion Hrun; subst.
  - destruct (step e s) as [s1|] eqn:Hstep; [|done].
    etrans; [by eapply sent_step|by apply IH].
Qed.

Lemma reachable_run evs s s' : reachable s → run evs s = Some s' → reachable s'.
Proof.
  intros [evs0 Hrun0] Hrun. exists (evs0 ++ evs).
  revert Hrun0. generalize init. induction evs0 as [|e evs0 IH]; intros s0 Hrun0;
    simpl in *.
  - by inversion Hrun0; subst.
  - destruct (step e s0); [|done]. by apply IH.
Qed.



(** *** The scan of the pending calls *)

Lemma omap_pointwise {A B : Type} (f g : A → option B) (l : list A) :
  (∀ x, f x = g x) → omap f l = omap g l.
Proof.
  intros Hfg. induction l as [|x l IH]; [done|].
  csimpl. by rewrite Hfg, IH.
Qed.

Lemma omap_cons_match {A B : Type} (f : A → option B) (x : A) (l : list A) :
  omap f (x :: l) = match f x with Some y => y :: omap f l | None => omap f l end.
Proof. done. Qed.

Lemma due_image_attach s k d u e :
  image_data s !! k = Some d → user_data s !! userId d = Some u →
  due_image (with_image_data (<[k := set_userInfo d u]>) s) e = due_image s e.
Proof.
  intros Hd Hu. unfold due_image. simpl.
  destruct (decide (e.1 = k)) as [->|Hne].
  - rewrite lookup_insert_eq, Hd. simpl. by rewrite Hu.
  - by rewrite lookup_insert_ne.
Qed.

Lemma image_info_loop_spec fuel i s :
  length (pending_image_info_calls s) ≤ i + fuel →
  let s' := image_info_loop fuel i s in
  pending_image_info_calls s' =
    take i (pending_image_info_calls s) ++
    filter (λ e, due_image s e = None) (drop i (pending_image_info_calls s)) ∧
  calls s' = calls s ++ omap (due_image s) (drop i (pending_image_info_calls s)) ∧
  (∀ e, due_image s' e = due_image s e).
Proof.
  revert i s. induction fuel as [|fuel IH]; intros i s Hlen; simpl.
  { rewrite drop_ge by lia. rewrite take_ge by lia. simpl.
    by rewrite !app_nil_r. }
  destruct (pending_image_info_calls s !! i) as [[k cb]|] eqn:Hi.
  2:{ apply lookup_ge_None in Hi. rewrite drop_ge by lia. rewrite take_ge by lia.
      simpl. by rewrite !app_nil_r. }
  pose proof (lookup_lt_Some _ _ _ Hi) as Hlt.
  rewrite (drop_S _ _ _ Hi), filter_cons, omap_cons_match.
  assert (∀ t, (length (pending_image_info_calls t) ≤ S i + fuel) →
     pending_image_info_calls t = pending_image_info_calls s →
     calls t = calls s → (∀ e, due_image t e = due_image s e) →
     due_image s (k, cb) = None →
     pending_image_info_calls (image_info_loop fuel (S i) t) =
       take i (pending_image_info_calls s) ++
       (k, cb) :: filter (λ e, due_image s e = None)
                    (drop (S i) (pending_image_info_calls s)) ∧
     calls (image_info_loop fuel (S i) t) =
       calls s ++ omap (due_image s) (drop (S i) (pending_image_info_calls s)) ∧
     (∀ e, due_image (image_info_loop fuel (S i) t) e = due_image s e)) as Hskip.
  { intros t Hlt' Hp Hc Hdue Hnone.
    destruct (IH (S i) t Hlt') as (IH1 & IH2 & IH3).
    rewrite IH1, IH2, Hp, Hc. rewrite (take_S_r _ _ _ Hi), <- app_assoc. simpl.
    split; [|split].
    - f_equal. f_equal. apply list_filter_iff. intros e. by rewrite Hdue.
    - f_equal. apply omap_pointwise, Hdue.
    - intros e. by rewrite IH3. }
  destruct (image_data s !! k) as [d|] eqn:Hd.
  2:{ assert (due_image s (k, cb) = None) as Hn.
      { unfold due_image. simpl. by rewrite Hd. }
      rewrite Hn, decide_True by done. apply Hskip; try done; lia. }
  destruct (user_data s !! userId d) as [u|] eqn:Hu.
  2:{ assert (due_image s (k, cb) = None) as Hn.
      { unfold due_image. simpl. by rewrite Hd, Hu. }
      rewrite Hn, decide_True by done. apply Hskip; try done; lia. }
  assert (due_image s (k, cb) = Some (CallImage cb (set_userInfo d u))) as ->.
  { unfold due_image. simpl. by rewrite Hd, Hu. }
  rewrite decide_False by done.
  match goal with |- context [image_info_loop fuel i ?x] => set (t := x) end.
  assert (pending_image_info_calls t = delete i (pending_image_info_calls s))
    as Hpt by done.
  assert (calls t = calls s ++ [CallImage cb (set_userInfo d u)]) as Hct by done.
  assert (∀ e, due_image t e = due_image s e) as Hdue.
  { intros e. by rewrite <- (due_image_attach s k d u e Hd Hu). }
  destruct (IH i t) as (IH1 & IH2 & IH3).
  { rewrite Hpt, length_delete by eauto. lia. }
  rewrite IH1, IH2, Hpt, Hct. clearbody t.
  rewrite delete_take_drop.
  rewrite take_app_length' by (rewrite length_take; lia).
  rewrite drop_app_length' by (rewrite length_take; lia).
  split; [|split].
  - f_equal. apply list_filter_iff. intros e. by rewrite Hdue.
  - rewrite <- app_assoc. simpl. do 2 f_equal. apply omap_pointwise, Hdue.
  - intros e. by rewrite IH3.
Qed.

Lemma user_info_loop_spec fuel i s :
  length (pending_user_info_calls s) ≤ i + fuel →
  let s' := user_info_loop fuel i s in
  pending_user_info_calls s' =
    take i (pending_user_info_calls s) ++
    filter (λ e, due_user s e = None) (drop i (pending_user_info_calls s)) ∧
  calls s' = calls s ++ omap (due_user s) (drop i (pending_user_info_calls s)).
Proof.
  revert i s. induction fuel as [|fuel IH]; intros i s Hlen; simpl.
  { rewrite drop_ge by lia. rewrite take_ge by lia. simpl.
    by rewrite !app_nil_r. }
  destruct (pending_user_info_calls s !! i) as [[k cb]|] eqn:Hi.
  2:{ apply lookup_ge_None in Hi. rewrite drop_ge by lia. rewrite take_ge by lia.
      simpl. by rewrite !app_nil_r. }
  pose proof (lookup_lt_Some _ _ _ Hi) as Hlt.
  rewrite (drop_S _ _ _ Hi), filter_cons, omap_cons_match.
  destruct (user_data s !! k) as [u|] eqn:Hu.
  - assert (due_user s (k, cb) = Some (CallUser cb u)) as ->.
    { unfold due_user. simpl. by rewrite Hu. }
    rewrite decide_False by done.
    match goal with |- context [user_info_loop fuel i ?x] => set (t := x) end.
    assert (pending_user_info_calls t = delete i (pending_user_info_calls s))
      as Hpt by done.
    assert (calls t = calls s ++ [CallUser cb u]) as Hct by done.
    assert (∀ e, due_user t e = due_user s e) as Hdue by done.
    destruct (IH i t) as (IH1 & IH2).
    { rewrite Hpt, length_delete by eauto. lia. }
    rewrite IH1, IH2, Hpt, Hct. clearbody t.
    rewrite delete_take_drop.
    rewrite take_app_length' by (rewrite length_take; lia).
    rewrite drop_app_length' by (rewrite length_take; lia).
    split.
    + f_equal. apply list_filter_iff. intros e. by rewrite Hdue.
    + rewrite <- app_assoc. simpl. do 2 f_equal. apply omap_pointwise, Hdue.
  - assert (due_user s (k, cb) = None) as ->.
    { unfold due_user. simpl. by rewrite Hu. }
    rewrite decide_True by done.
    destruct (IH (S i) s) as (IH1 & IH2); [lia|].
    rewrite IH1, IH2. rewrite (take_S_r _ _ _ Hi), <- app_assoc. done.
Qed.

(** One scan removes exactly the entries whose data is cached, runs the
    callback of each of them once, in order, and keeps the others. *)
Lemma call_pending_callbacks_spec s :
  let s' := call_pending_callbacks s in
  pending_image_info_calls s' =
    filter (λ e, due_image s e = None) (pending_image_info_calls s) ∧
  pending_user_info_calls s' =
    filter (λ e, due_user s e = None) (pending_user_info_calls s) ∧
  calls s' = calls s ++ omap (due_image s) (pending_image_info_calls s)
                     ++ omap (due_user s) (pending_user_info_calls s) ∧
  (∀ e, due_image s' e = due_image s e).
Proof.
  unfold call_pending_callbacks. simpl.
  set (n := length (pending_image_info_calls s)).
  destruct (image_info_loop_spec n 0 s) as (I1 & I2 & I3); [unfold n; lia|].
  destruct (image_info_loop_frame n 0 s) as (Iu & _ & _ & _ & Ipu & _).
  set (s1 := image_info_loop n 0 s) in *.
  set (m := length (pending_user_info_calls s1)).
  destruct (user_info_loop_spec m 0 s1) as (U1 & U2); [unfold m; lia|].
  destruct (user_info_loop_frame m 0 s1) as (Ui & Uu & _ & _ & _ & Upi & _).
  set (s2 := user_info_loop m 0 s1) in *.
  rewrite take_0, drop_0 in *. simpl in *.
  assert (∀ e, due_user s1 e = due_user s e) as Hdu.
  { intros e. unfold due_user. by rewrite Iu. }
  split; [|split; [|split]].
  - by rewrite Upi, I1.
  - rewrite U1, Ipu. apply list_filter_iff. intros e. by rewrite Hdu.
  - rewrite U2, I2, Ipu, <- app_assoc. do 2 f_equal. apply omap_pointwise, Hdu.
  - intros e. rewrite <- I3. unfold due_image. by rewrite Ui, Uu.
Qed.

(** *** The log of invocations only grows *)

Lemma calls_load_user_info u s : calls (load_user_info u s) = calls s.
Proof.
  unfold load_user_info. case_decide; [done|]. by destruct (user_data s !! u).
Qed.

Lemma pending_image_load_user_info u s :
  pending_image_info_calls (load_user_info u s) = pending_image_info_calls s.
Proof.
  unfold load_user_info. case_decide; [done|]. by destruct (user_data s !! u).
Qed.

Lemma calls_load_image_info k s : calls (load_image_info k s) = calls s.
Proof.
  unfold load_image_info.
  set (s1 := match illust_id_to_user_id s !! k with
             | Some c => load_user_info c s | None => s end).
  assert (calls s1 = calls s) as <-.
  { unfold s1. destruct (illust_id_to_user_id s !! k); [|done].
    apply calls_load_user_info. }
  case_decide; [done|]. destruct (image_data s1 !! k); [|done].
  apply calls_load_user_info.
Qed.

Lemma pending_image_load_image_info k s :
  pending_image_info_calls (load_image_info k s) = pending_image_info_calls s.
Proof.
  unfold load_image_info.
  set (s1 := match illust_id_to_user_id s !! k with
             | Some c => load_user_info c s | None => s end).
  assert (pending_image_info_calls s1 = pending_image_info_calls s) as <-.
  { unfold s1. destruct (illust_id_to_user_id s !! k); [|done].
    apply pending_image_load_user_info. }
  case_decide; [done|]. destruct (image_data s1 !! k); [|done].
  apply pending_image_load_user_info.
Qed.

Lemma calls_loaded_image_info r s : calls (loaded_image_info r s) = calls s.
Proof.
  unfold loaded_image_info. destruct (error r); [done|].
  destruct (body r) as [d|]; [|done]. by destruct (Nat.eqb (illustType d) 2).
Qed.


(** *** Every registration is pending or was served, never both, never
    twice *)

Lemma occurrences_app cb l1 l2 :
  occurrences cb (l1 ++ l2) = occurrences cb l1 + occurrences cb l2.
Proof. unfold occurrences. by rewrite filter_app, length_app. Qed.

Lemma occurrences_cons cb x l :
  occurrences cb (x :: l) = (if decide (x = cb) then 1 else 0) + occurrences cb l.
Proof. unfold occurrences. rewrite filter_cons. by case_decide. Qed.











(** *** What is handed to a callback *)

Lemma user_data_load_user_info u s : user_data (load_user_info u s) = user_data s.
Proof.
  unfold load_user_info. case_decide; [done|]. by destruct (user_data s !! u).
Qed.

Lemma image_data_load_user_info u s : image_data (load_user_info u s) = image_data s.
Proof.
  unfold load_user_info. case_decide; [done|]. by destruct (user_data s !! u).
Qed.

Lemma user_data_load_image_info k s : user_data (load_image_info k s) = user_data s.
Proof.
  unfold load_image_info.
  set (s1 := match illust_id_to_user_id s !! k with
             | Some c => load_user_info c s | None => s end).
  assert (user_data s1 = user_data s) as <-.
  { unfold s1. destruct (illust_id_to_user_id s !! k); [|done].
    apply user_data_load_user_info. }
  case_decide; [done|]. destruct (image_data s1 !! k); [|done].
  apply user_data_load_user_info.
Qed.

Lemma user_data_loaded_image_info r s : user_data (loaded_image_info r s) = user_data s.
Proof.
  unfold loaded_image_info. destruct (error r); [done|].
  destruct (body r) as [d|]; [|done]. by destruct (Nat.eqb (illustType d) 2).
Qed.

Lemma cache_ok_same s s' :
  user_data s' = user_data s → calls s' = calls s → cache_ok s → cache_ok s'.
Proof. intros Hu Hc [H1 H2]. split; rewrite ?Hu, ?Hc; done. Qed.

Lemma cache_ok_call_pending_callbacks s :
  cache_ok s → cache_ok (call_pending_callbacks s).
Proof.
  intros [H1 H2].
  destruct (call_pending_callbacks_frame s) as (Hu & _).
  destruct (call_pending_callbacks_spec s) as (_ & _ & Hc & _).
  split; rewrite ?Hu, ?Hc; [done|].
  intros cb d Hin. rewrite !elem_of_app in Hin. destruct Hin as [Hin|[Hin|Hin]].
  - by eapply H2.
  - apply list_elem_of_omap in Hin as (e & _ & Hdue). unfold due_image in Hdue.
    destruct (image_data s !! e.1) as [d0|]; [|done].
    destruct (user_data s !! userId d0) as [u|] eqn:Hu0; [|done].
    inversion Hdue; subst. exists u. split; [done|]. simpl. by eapply H1.
  - apply list_elem_of_omap in Hin as (e & _ & Hdue). unfold due_user in Hdue.
    by destruct (user_data s !! e.1).
Qed.

Lemma cache_ok_loaded_user_info r s : cache_ok s → cache_ok (loaded_user_info r s).
Proof.
  intros [H1 H2]. unfold loaded_user_info. destruct (error r); [done|].
  destruct (body r) as [u|]; [|done].
  apply cache_ok_call_pending_callbacks. split; [|done].
  intros k u' Hk. unfold_state. apply lookup_insert_Some in Hk as [[<- <-]|[_ Hk]];
    [done|by eapply H1].
Qed.

Lemma cache_ok_step e s s' : cache_ok s → step e s = Some s' → cache_ok s'.
Proof.
  intros Hok Hstep. destruct e; simpl in Hstep.
  - inversion Hstep; subst. unfold get_image_info.
    eapply cache_ok_same; [apply user_data_load_image_info
                          |apply calls_load_image_info|].
    destruct cb; [by destruct Hok|done].
  - inversion Hstep; subst. unfold get_user_info.
    eapply cache_ok_same; [apply user_data_load_user_info
                          |apply calls_load_user_info|].
    destruct cb; [by destruct Hok|done].
  - inversion Hstep; subst.
    eapply cache_ok_same; [apply user_data_loaded_image_info
                          |apply calls_loaded_image_info|done].
  - inversion Hstep; subst. by apply cache_ok_loaded_user_info.
  - inversion Hstep; subst. by destruct Hok.
  - destruct (timers s) as [|t q]; [done|]. inversion Hstep; subst.
    assert (cache_ok (with_timers (λ _, q) s)) as Hok' by (by destruct Hok).
    destruct t; simpl.
    + eapply cache_ok_same; [apply user_data_load_user_info
                            |apply calls_load_user_info|done].
    + by apply cache_ok_call_pending_callbacks.
  - case_decide; [|done]. inversion Hstep; subst.
    eapply cache_ok_same; [apply user_data_loaded_image_info
                          |apply calls_loaded_image_info|]. by destruct Hok.
  - case_decide; [|done]. inversion Hstep; subst.
    apply cache_ok_loaded_user_info. by destruct Hok.
  - case_decide; [|done]. inversion Hstep; subst. by destruct Hok.
Qed.

Lemma cache_ok_reachable s : reachable s → cache_ok s.
Proof.
  intros [evs Hrun]. revert Hrun.
  assert (cache_ok init) as Hinit.
  { split; simpl; intros; [done|]. by exfalso; eapply not_elem_of_nil. }
  revert Hinit. generalize init. induction evs as [|e evs IH]; intros s0 Hok Hrun;
    simpl in Hrun.
  - by inversion Hrun; subst.
  - destruct (step e s0) as [s1|] eqn:Hstep; [|done].
    eapply IH; [|done]. by eapply cache_ok_step.
Qed.

(** *** Zero-delay timers bring the deferred scan *)

Lemma timers_load_user_info u s : timers s `prefix_of` timers (load_user_info u s).
Proof.
  unfold load_user_info. case_decide; [done|].
  destruct (user_data s !! u); [|done]. unfold_state. by apply prefix_app_r.
Qed.

Lemma timers_fire t s : timers s `prefix_of` timers (fire t s).
Proof.
  destruct t; simpl; [apply timers_load_user_info|].
  by destruct (call_pending_callbacks_frame s) as (_ & _ & _ & _ & -> & _).
Qed.

Lemma calls_fire t s : calls s `prefix_of` calls (fire t s).
Proof.
  destruct t; simpl; [by rewrite calls_load_user_info|].
  destruct (call_pending_callbacks_spec s) as (_ & _ & -> & _).
  by apply prefix_app_r.
Qed.

Lemma run_timeouts n s :
  n ≤ length (timers s) →
  ∃ s', run (replicate n EvTimeout) s = Some s' ∧ calls s `prefix_of` calls s'.
Proof.
  revert s. induction n as [|n IH]; intros s Hn; simpl; [by eexists|].
  destruct (timers s) as [|t q] eqn:Ht; [simpl in Hn; lia|].
  set (s1 := fire t (with_timers (λ _, q) s)).
  destruct (IH s1) as (s' & Hrun & Hpre).
  { pose proof (timers_fire t (with_timers (λ _, q) s)) as Hq.
    apply prefix_length in Hq. simpl in *. fold s1 in Hq. lia. }
  exists s'. split; [done|]. etrans; [|done].
  apply (calls_fire t (with_timers (λ _, q) s)).
Qed.


Lemma load_user_info_cached u s :
  u ∉ loading_user_data_ids s → is_Some (user_data s !! u) →
  timers (load_user_info u s) = timers s ++ [TCallPendingCallbacks].
Proof.
  intros Hl [x Hx]. unfold load_user_info.
  rewrite decide_False by done. by rewrite Hx.
Qed.


Lemma loading_image_load_user_info u s :
  loading_image_data_ids (load_user_info u s) = loading_image_data_ids s.
Proof.
  unfold load_user_info. case_decide; [done|]. by destruct (user_data s !! u).
Qed.


(** *** No pending call is forgotten *)








Lemma image_data_load_image_info k s : image_data (load_image_info k s) = image_data s.
Proof.
  unfold load_image_info.
  set (s1 := match illust_id_to_user_id s !! k with
             | Some c => load_user_info c s | None => s end).
  assert (image_data s1 = image_data s) as <-.
  { unfold s1. destruct (illust_id_to_user_id s !! k); [|done].
    apply image_data_load_user_info. }
  case_decide; [done|]. destruct (image_data s1 !! k); [|done].
  apply image_data_load_user_info.
Qed.















(** *** Requests that find the key flagged or cached *)

Lemma illust_fetches_load_user_info k u s :
  fetches (ReqIllust k) (sent (load_user_info u s)) = fetches (ReqIllust k) (sent s).
Proof.
  unfold load_user_info. case_decide; [done|].
  destruct (user_data s !! u); [done|]. unfold_state.
  rewrite fetches_snoc, decide_False by done. lia.
Qed.

Lemma get_image_info_no_fetch k cb s :
  k ∈ loading_image_data_ids s ∨ is_Some (image_data s !! k) →
  fetches (ReqIllust k) (sent (get_image_info k cb s)) = fetches (ReqIllust k) (sent s) ∧
  (k ∈ loading_image_data_ids s → k ∈ loading_image_data_ids (get_image_info k cb s)).
Proof.
  intros Hk. unfold get_image_info, load_image_info.
  set (s0 := match cb with
             | Some c => with_pending_image_info_calls (λ l, l ++ [(k, c)]) s
             | None => s end).
  assert (image_data s0 = image_data s ∧ sent s0 = sent s ∧
          loading_image_data_ids s0 = loading_image_data_ids s)
    as (Hi0 & Hs0 & Hl0) by (by destruct cb).
  set (s1 := match illust_id_to_user_id s0 !! k with
             | Some c => load_user_info c s0 | None => s0 end).
  assert (image_data s1 = image_data s0 ∧
          fetches (ReqIllust k) (sent s1) = fetches (ReqIllust k) (sent s0) ∧
          loading_image_data_ids s1 = loading_image_data_ids s0)
    as (Hi1 & Hs1 & Hl1).
  { unfold s1. destruct (illust_id_to_user_id s0 !! k); [|done].
    by rewrite image_data_load_user_info, illust_fetches_load_user_info,
      loading_image_load_user_info. }
  case_decide as Hl.
  { by rewrite Hs1, Hs0. }
  destruct Hk as [Hk|[d Hd]]; [by rewrite Hl1, Hl0 in Hl|].
  rewrite Hi1, Hi0, Hd, illust_fetches_load_user_info, Hs1, Hs0.
  split; [done|]. intros Hin. by rewrite Hl1, Hl0 in Hl.
Qed.

Lemma get_user_info_no_fetch k cb s :
  k ∈ loading_user_data_ids s →
  sent (get_user_info k cb s) = sent s ∧ k ∈ loading_user_data_ids (get_user_info k cb s).
Proof.
  intros Hk. unfold get_user_info, load_user_info.
  set (s0 := match cb with
             | Some c => with_pending_user_info_calls (λ l, l ++ [(k, c)]) s
             | None => s end).
  assert (sent s0 = sent s ∧ loading_user_data_ids s0 = loading_user_data_ids s)
    as (Hs0 & Hl0) by (by destruct cb).
  rewrite decide_True by (by rewrite Hl0). by rewrite Hs0, Hl0.
Qed.

(** *** The statements about the cache *)





(** A literal key is none of the inherited names. *)
Ltac ordinary :=
  vm_compute;
  let H := fresh "H" in
  intros H;
  repeat (apply elem_of_cons in H as [H|H]; [discriminate H|]);
  exact (proj1 (elem_of_nil _) H).

(** *** Callbacks that never call the cache

    With such callbacks a scan ends, within the turns its two arrays have
    entries for, and does what [ImageData.call_pending_callbacks] does. *)

Section Quiet.

Variable calls_made : call → list ImageDataCallbacks.method_call.
Hypothesis calls_made_quiet : quiet calls_made.

Lemma run_callback_quiet scan c s :
  ImageDataCallbacks.run_callback calls_made scan c s = Some (run_callback c s).
Proof. unfold ImageDataCallbacks.run_callback. by rewrite calls_made_quiet. Qed.

Lemma image_info_loop_quiet scan fuel i s s' :
  ImageDataCallbacks.image_info_loop calls_made scan fuel i s = Some s' →
  ∀ n, length (pending_image_info_calls s) ≤ i + n → s' = image_info_loop n i s.
Proof.
  revert i s. induction fuel as [|fuel IH]; intros i s Hlive n Hn; simpl in Hlive;
    [done|].
  destruct (pending_image_info_calls s !! i) as [[k cb]|] eqn:Hi.
  2:{ inversion Hlive; subst. destruct n; simpl; [done|]. by rewrite Hi. }
  pose proof (lookup_lt_Some _ _ _ Hi) as Hlt.
  destruct n as [|n]; [lia|]. simpl. rewrite Hi.
  destruct (image_data s !! k) as [d|]; [|apply IH; [done|lia]].
  destruct (user_data s !! userId d) as [u|]; [|apply IH; [done|lia]].
  rewrite run_callback_quiet in Hlive. simpl in Hlive.
  apply IH; [done|]. simpl. rewrite length_delete by (by eexists). lia.
Qed.

Lemma image_info_loop_quiet_ends scan fuel i s :
  i ≤ length (pending_image_info_calls s) →
  length (pending_image_info_calls s) - i < fuel →
  is_Some (ImageDataCallbacks.image_info_loop calls_made scan fuel i s).
Proof.
  revert i s. induction fuel as [|fuel IH]; intros i s Hi Hfuel; [lia|]. simpl.
  destruct (pending_image_info_calls s !! i) as [[k cb]|] eqn:Hl; [|by eexists].
  pose proof (lookup_lt_Some _ _ _ Hl) as Hlt.
  destruct (image_data s !! k) as [d|]; [|apply IH; lia].
  destruct (user_data s !! userId d) as [u|]; [|apply IH; lia].
  rewrite run_callback_quiet. simpl.
  apply IH; simpl; rewrite length_delete by (by eexists); lia.
Qed.

Lemma user_info_loop_quiet scan fuel i s s' :
  ImageDataCallbacks.user_info_loop calls_made scan fuel i s = Some s' →
  ∀ n, length (pending_user_info_calls s) ≤ i + n → s' = user_info_loop n i s.
Proof.
  revert i s. induction fuel as [|fuel IH]; intros i s Hlive n Hn; simpl in Hlive;
    [done|].
  destruct (pending_user_info_calls s !! i) as [[k cb]|] eqn:Hi.
  2:{ inversion Hlive; subst. destruct n; simpl; [done|]. by rewrite Hi. }
  pose proof (lookup_lt_Some _ _ _ Hi) as Hlt.
  destruct n as [|n]; [lia|]. simpl. rewrite Hi.
  destruct (user_data s !! k) as [u|]; [|apply IH; [done|lia]].
  rewrite run_callback_quiet in Hlive. simpl in Hlive.
  apply IH; [done|]. simpl. rewrite length_delete by (by eexists). lia.
Qed.

Lemma user_info_loop_quiet_ends scan fuel i s :
  i ≤ length (pending_user_info_calls s) →
  length (pending_user_info_calls s) - i < fuel →
  is_Some (ImageDataCallbacks.user_info_loop calls_made scan fuel i s).
Proof.
  revert i s. induction fuel as [|fuel IH]; intros i s Hi Hfuel; [lia|]. simpl.
  destruct (pending_user_info_calls s !! i) as [[k cb]|] eqn:Hl; [|by eexists].
  pose proof (lookup_lt_Some _ _ _ Hl) as Hlt.
  destruct (user_data s !! k) as [u|]; [|apply IH; lia].
  rewrite run_callback_quiet. simpl.
  apply IH; simpl; rewrite length_delete by (by eexists); lia.
Qed.

Lemma call_pending_callbacks_quiet fuel s s' :
  ImageDataCallbacks.call_pending_callbacks calls_made fuel s = Some s' →
  s' = call_pending_callbacks s.
Proof.
  destruct fuel as [|fuel]; simpl; [done|].
  destruct (ImageDataCallbacks.image_info_loop _ _ fuel 0 s) as [s1|] eqn:H1;
    simpl; [|done].
  intros H2. unfold call_pending_callbacks.
  rewrite <- (image_info_loop_quiet _ _ _ _ _ H1 _ (Nat.le_refl _)).
  by apply (user_info_loop_quiet _ _ _ _ _ H2).
Qed.

(** The turns a scan of [s] takes at most. *)
Lemma call_pending_callbacks_quiet_ends fuel s :
  length (pending_image_info_calls s) < fuel →
  length (pending_user_info_calls s) < fuel →
  ImageDataCallbacks.call_pending_callbacks calls_made (S fuel) s
  = Some (call_pending_callbacks s).
Proof.
  intros Hi Hu.
  assert (is_Some (ImageDataCallbacks.call_pending_callbacks calls_made (S fuel) s))
    as [s' Hs'].
  { simpl.
    destruct (image_info_loop_quiet_ends
                (ImageDataCallbacks.call_pending_callbacks calls_made fuel) fuel 0 s)
      as [s1 H1]; [lia|lia|].
    rewrite H1. simpl. apply user_info_loop_quiet_ends; [lia|].
    rewrite (image_info_loop_quiet _ _ _ _ _ H1 _ (Nat.le_refl _)).
    destruct (image_info_loop_frame (length (pending_image_info_calls s)) 0 s)
      as (_ & _ & _ & _ & -> & _). lia. }
  rewrite Hs'. f_equal. by apply (call_pending_callbacks_quiet (S fuel)).
Qed.

Lemma loaded_user_info_quiet fuel r s s' :
  ImageDataCallbacks.loaded_user_info calls_made fuel r s = Some s' →
  s' = loaded_user_info r s.
Proof.
  unfold ImageDataCallbacks.loaded_user_info, ImageDataCallbacks.loaded_user_info_with,
    loaded_user_info.
  destruct (error r); [by intros [= <-]|].
  destruct (body r) as [u|]; [|by intros [= <-]].
  apply call_pending_callbacks_quiet.
Qed.

Lemma loaded_user_info_quiet_ends fuel r s :
  length (pending_image_info_calls s) < fuel →
  length (pending_user_info_calls s) < fuel →
  ImageDataCallbacks.loaded_user_info calls_made (S fuel) r s
  = Some (loaded_user_info r s).
Proof.
  intros Hi Hu.
  unfold ImageDataCallbacks.loaded_user_info, ImageDataCallbacks.loaded_user_info_with,
    loaded_user_info.
  destruct (error r); [done|]. destruct (body r) as [u|]; [|done].
  by apply call_pending_callbacks_quiet_ends.
Qed.

Lemma step_quiet fuel e s s' :
  ImageDataCallbacks.step calls_made fuel e s = Some s' → step e s = Some s'.
Proof.
  destruct e; simpl; try done.
  - intros Hs. f_equal. symmetry. by apply (loaded_user_info_quiet fuel).
  - destruct (timers s) as [|t q]; [done|]. destruct t; simpl; [done|].
    intros Hs. f_equal. symmetry. by apply (call_pending_callbacks_quiet fuel).
  - case_decide; [|done]. intros Hs. f_equal. symmetry.
    by apply (loaded_user_info_quiet fuel).
Qed.

Lemma run_quiet fuel evs s s' :
  ImageDataCallbacks.run calls_made fuel evs s = Some s' → run evs s = Some s'.
Proof.
  revert s. induction evs as [|e evs IH]; intros s; simpl; [done|].
  destruct (ImageDataCallbacks.step calls_made fuel e s) as [s1|] eqn:Hstep; [|done].
  rewrite (step_quiet _ _ _ _ Hstep). apply IH.
Qed.

Lemma step_quiet_ends fuel e s s' :
  length (pending_image_info_calls s) < fuel →
  length (pending_user_info_calls s) < fuel →
  step e s = Some s' → ImageDataCallbacks.step calls_made (S fuel) e s = Some s'.
Proof.
  intros Hi Hu. destruct e; simpl; try done.
  - intros [= <-]. by apply loaded_user_info_quiet_ends.
  - destruct (timers s) as [|t q]; [done|]. destruct t; simpl; [done|].
    intros [= <-]. by apply call_pending_callbacks_quiet_ends.
  - case_decide; [|done]. intros [= <-]. by apply loaded_user_info_quiet_ends.
Qed.

(** A run with callbacks that are only logged is a run of the cache, given
    the turns its scans take. *)
Lemma run_quiet_ends evs s s' :
  run evs s = Some s' →
  ∃ bound, ∀ fuel, bound ≤ fuel →
    ImageDataCallbacks.run calls_made fuel evs s = Some s'.
Proof.
  revert s. induction evs as [|e evs IH]; intros s Hrun; simpl in Hrun.
  - exists 0. intros fuel _. by inversion Hrun; subst.
  - destruct (step e s) as [s1|] eqn:Hstep; [|done].
    destruct (IH s1 Hrun) as [bound Hbound].
    exists (bound + S (S (length (pending_image_info_calls s)
                             + length (pending_user_info_calls s)))).
    intros fuel Hfuel. destruct fuel as [|fuel]; [lia|]. simpl.
    rewrite (step_quiet_ends fuel e s s1) by (done || lia).
    apply Hbound. lia.
Qed.

End Quiet.


(** C3, as the code has it.  A failed response (one whose [error] is set)
    makes [loaded_image_info] and [loaded_user_info] return at once: the
    only thing that changes is that the request is no longer outstanding.
    No callback is queued or run and nothing is cached; but the loading
    flag of the key stays set, so a later [get_image_info] or
    [get_user_info] for the key is taken for a duplicate of the failed
    request and no new request goes out. *)
Theorem failed_fetch_changes_nothing (s : state) (k : string)
    (ri : response illust) (ru : response user) :
  error ri = true → error ru = true →
  loaded_image_info ri s = s ∧
  loaded_user_info ru s = s ∧
  (ReqIllust k ∈ inflight s →
     step (EvIllustResponse k ri) s = Some (with_inflight (answered (ReqIllust k)) s)) ∧
  (ReqUser k ∈ inflight s →
     step (EvUserResponse k ru) s = Some (with_inflight (answered (ReqUser k)) s)) ∧
  (k ∈ loading_image_data_ids s → ∀ cb,
     let s' := get_image_info k cb (with_inflight (answered (ReqIllust k)) s) in
     fetches (ReqIllust k) (sent s') = fetches (ReqIllust k) (sent s) ∧
     k ∈ loading_image_data_ids s') ∧
  (k ∈ loading_user_data_ids s → ∀ cb,
     let s' := get_user_info k cb (with_inflight (answered (ReqUser k)) s) in
     sent s' = sent s ∧ k ∈ loading_user_data_ids s').
Proof.
  intros Hi Hu.
  assert (loaded_image_info ri s = s) as Hli by (unfold loaded_image_info; by rewrite Hi).
  assert (loaded_user_info ru s = s) as Hlu by (unfold loaded_user_info; by rewrite Hu).
  split; [done|]. split; [done|]. split; [|split; [|split]].
  - intros Hin. simpl. rewrite decide_True by done.
    unfold loaded_image_info. by rewrite Hi.
  - intros Hin. simpl. rewrite decide_True by done.
    unfold loaded_user_info. by rewrite Hu.
  - intros Hk cb s'.
    destruct (get_image_info_no_fetch k cb (with_inflight (answered (ReqIllust k)) s))
      as (Hf & Hm); [by left|].
    split; [done|]. by apply Hm.
  - intros Hk cb s'.
    by destruct (get_user_info_no_fetch k cb (with_inflight (answered (ReqUser k)) s)).
Qed.

(** C4, at a failing input.  The response for an animation arrives, then
    its ugoira request fails: the callback of [fetch_ugoira_metadata] does
    not look at [error], so the illustration is stored without metadata and
    its loading flag is cleared; once the user is loaded the waiting
    callback is handed that illustration. *)
Theorem ugoira_failure_is_cached :
  match run [EvGetImageInfo "2" (Some 0); EvIllustResponse "2" (ok sample_ugoira);
             EvUgoiraResponse sample_ugoira failure] init with
  | Some s =>
      image_data s !! illustId sample_ugoira = Some sample_ugoira ∧
      ugoiraMetadata sample_ugoira = None ∧
      (illustId sample_ugoira ∉ loading_image_data_ids s) ∧
      (calls <$> run [EvTimeout; EvUserResponse "9" (ok sample_user)] s) =
        Some [CallImage 0 (set_userInfo sample_ugoira sample_user)]
  | None => False
  end.
Proof. vm_compute. repeat split; try done. Qed.

(** C3 as stated does not hold: the failed response leaves the loading
    flag of its key set. *)
Lemma failed_fetch_keeps_flag :
  ¬ (∀ (s s' : state) (k : string) (r : response illust),
       error r = true → step (EvIllustResponse k r) s = Some s' →
       k ∉ loading_image_data_ids s').
Proof.
  intros Hclaim.
  apply (Hclaim (get_image_info "1" (Some 0) init)
           (with_inflight (answered (ReqIllust "1")) (get_image_info "1" (Some 0) init))
           "1"%string failure); [done|done|].
  vm_compute. done.
Qed.

(** C10 as stated does not hold: no run of the cache, with or without a
    call of [add_illust_data] along the way, makes a second request for an
    illustration whose request is outstanding. *)
Lemma inject_no_second_fetch :
  ¬ (∃ (evs evs' : list event) (s s' : state) (d : illust) (cb : option callback),
       run evs init = Some s ∧ ReqIllust (illustId d) ∈ inflight s ∧
       run evs' (add_illust_data d s) = Some s' ∧
       fetches (ReqIllust (illustId d)) (sent s') <
       fetches (ReqIllust (illustId d)) (sent (get_image_info (illustId d) cb s'))).
Proof.
  intros (evs & evs' & s & s' & d & cb & Hrun & Hin & Hrun' & Hlt).
  assert (reachable s) as Hreach by (by exists evs).
  assert (reachable (get_image_info (illustId d) cb s')) as Hreach'.
  { apply (reachable_run (EvAddIllustData d :: evs' ++ [EvGetImageInfo (illustId d) cb]) s);
      [done|]. simpl. revert Hrun'. generalize (add_illust_data d s).
    induction evs' as [|e evs' IH]; intros s0 Hrun'; simpl in *.
    - by inversion Hrun'; subst.
    - destruct (step e s0); [|done]. by apply IH. }
  pose proof (ledger_illust_once _ (ledger_ok_reachable _ Hreach') (illustId d)) as Hle.
  pose proof (ledger_inflight _ (ledger_ok_reachable _ Hreach) (ReqIllust (illustId d))).
  pose proof (fetches_pos _ _ Hin).
  pose proof (fetches_prefix (ReqIllust (illustId d)) _ _
                (sent_loaded_image_info (ok d) s)).
  pose proof (fetches_prefix (ReqIllust (illustId d)) _ _ (sent_run _ _ _ Hrun')).
  unfold add_illust_data, ok in *. lia.
Qed.

(** C10, as the code has it.  [add_illust_data] sets the loading flag of
    the identifier and, unless the illustration is an animation, clears it
    in the same call and stores the illustration under the identifier.  For
    an animation the flag stays set while the ugoira request is
    outstanding, and its callback clears the flag and stores the
    illustration.  Either way a following [get_image_info] for the
    identifier finds it flagged or cached and makes no request for it; and
    in no run from a state the cache can reach is a second request for it
    made. *)
Theorem inject_then_request (s : state) (d : illust) (cb : option callback) :
  let k := illustId d in
  let s1 := add_illust_data d s in
  (illustType d ≠ 2 →
     (k ∉ loading_image_data_ids s1) ∧ image_data s1 !! k = Some d) ∧
  (illustType d = 2 →
     k ∈ loading_image_data_ids s1 ∧ ReqUgoira d ∈ inflight s1 ∧
     ∀ r t, (k ∉ loading_image_data_ids (loaded_ugoira_metadata d r t)) ∧
            image_data (loaded_ugoira_metadata d r t) !! k =
              Some (set_ugoiraMetadata d (body r))) ∧
  fetches (ReqIllust k) (sent (get_image_info k cb s1)) =
    fetches (ReqIllust k) (sent s1) ∧
  (reachable s → ∀ evs s', run evs s1 = Some s' →
     fetches (ReqIllust k) (sent s') ≤ 1).
Proof.
  intros k s1. unfold s1, add_illust_data, loaded_image_info. simpl.
  split; [|split; [|split]].
  - intros Hne. apply Nat.eqb_neq in Hne. rewrite Hne.
    unfold finished_loading_image_data. unfold_state.
    split; [set_solver|]. by rewrite lookup_insert_eq.
  - intros He. apply Nat.eqb_eq in He. rewrite He. unfold_state.
    split; [set_solver|]. split; [set_solver|].
    intros r t. unfold loaded_ugoira_metadata, finished_loading_image_data.
    unfold_state. split; [set_solver|]. by rewrite lookup_insert_eq.
  - apply get_image_info_no_fetch.
    destruct (Nat.eqb (illustType d) 2).
    + left. unfold_state. set_solver.
    + right. unfold finished_loading_image_data. unfold_state.
      rewrite lookup_insert_eq. eauto.
  - intros Hreach evs s' Hrun.
    apply (ledger_illust_once s'). apply ledger_ok_reachable.
    apply (reachable_run (EvAddIllustData d :: evs) s); [done|]. done.
Qed.

(** *** Concrete runs *)




Lemma failed_fetch_changes_nothing_witness :
  let s := get_user_info "9" None (get_image_info "1" (Some 0) init) in
  step (EvIllustResponse "1" failure) s
    = Some (with_inflight (answered (ReqIllust "1")) s) ∧
  step (EvUserResponse "9" failure) s
    = Some (with_inflight (answered (ReqUser "9")) s) ∧
  fetches (ReqIllust "1")
    (sent (get_image_info "1" None (with_inflight (answered (ReqIllust "1")) s)))
    = fetches (ReqIllust "1") (sent s).
Proof.
  intros s.
  destruct (failed_fetch_changes_nothing s "1" failure failure eq_refl eq_refl)
    as (_ & _ & Hi & _ & Hretry & _).
  destruct (failed_fetch_changes_nothing s "9" failure failure eq_refl eq_refl)
    as (_ & _ & _ & Hu & _ & _).
  split; [|split].
  - apply Hi. vm_compute. apply list_elem_of_here.
  - apply Hu. vm_compute. apply list_elem_of_further, list_elem_of_here.
  - apply Hretry. vm_compute. reflexivity.
Defined.

Lemma inject_then_request_witness :
  let s := get_image_info "1" None init in
  let s1 := add_illust_data sample_illust s in
  ReqIllust "1" ∈ inflight s1 ∧
  image_data s1 !! illustId sample_illust = Some sample_illust ∧
  fetches (ReqIllust "1") (sent (get_image_info "1" (Some 3) s1)) = 1 ∧
  (illustId sample_ugoira ∈ loading_image_data_ids (add_illust_data sample_ugoira s)).
Proof.
  intros s s1.
  destruct (inject_then_request s sample_illust (Some 3)) as (H1 & _ & H3 & _).
  destruct (inject_then_request s sample_ugoira None) as (_ & H2 & _).
  split; [|split; [|split]].
  - vm_compute. apply list_elem_of_here.
  - apply H1. vm_compute. intros H0. discriminate H0.
  - simpl in H3. fold s s1 in H3. rewrite H3. reflexivity.
  - apply H2. reflexivity.
Defined.

End ImageDataFacts.

(** ** Properties of the preloader *)

Module ImagePreloaderFacts.
Import ImagePreloader ImagePreloaderSpec.

Ltac unfold_preloader :=
  unfold with_current, with_speculative, with_preloads,
    with_recently_preloaded_urls, with_next_ref, with_unsettled,
    with_awaiting, with_preloaded_thumbs in *;
  simpl in *.

(** *** [indexOf] *)

Lemma indexOf_None {A : Type} `{EqDecision A} (l : list A) (x : A) :
  indexOf l x = None ↔ x ∉ l.
Proof.
  induction l as [|y l IH]; simpl.
  - split; [intros _; apply not_elem_of_nil|done].
  - case_decide as Hy.
    + subst. split; [done|]. intros Hnot. exfalso. apply Hnot. apply list_elem_of_here.
    + rewrite not_elem_of_cons. destruct (indexOf l x) eqn:Hi; simpl.
      * split; [done|]. intros [_ Hnot]. by apply IH in Hnot.
      * split; [|done]. intros _. split; [congruence|]. by apply IH.
Qed.

Lemma indexOf_Some {A : Type} `{EqDecision A} (l : list A) (x : A) i :
  indexOf l x = Some i → l !! i = Some x ∧ ∀ j, j < i → l !! j ≠ Some x.
Proof.
  revert i. induction l as [|y l IH]; intros i; simpl; [done|].
  case_decide as Hy.
  - intros [= <-]. subst. split; [done|]. intros j Hj. lia.
  - destruct (indexOf l x) as [i'|] eqn:Hi; simpl; [|done].
    intros [= <-]. destruct (IH i' eq_refl) as [Hl Hmin]. split; [done|].
    intros [|j] Hj; simpl; [congruence|]. apply Hmin. lia.
Qed.

(** *** Tasks *)

Lemma url_cancel p : url (cancel p) = url p.
Proof. by destruct p as [c u []]. Qed.

Lemma running_cancel p : running (cancel p) = false.
Proof. by destruct p as [c u []]. Qed.

Lemma task_key_cancel_task rp : task_key (cancel_task rp) = task_key rp.
Proof. unfold task_key, cancel_task. simpl. by rewrite url_cancel. Qed.

Lemma fst_cancel_task (l : list (nat * preloader)) : (cancel_task <$> l).*1 = l.*1.
Proof. rewrite <- list_fmap_compose. by apply list_fmap_ext. Qed.

Lemma cancel_unwanted_fresh (old updated : list (nat * preloader)) :
  NoDup old.*1 → (∀ r, r ∈ updated.*1 → r ∉ old.*1) →
  cancel_unwanted old updated = updated ++ (cancel_task <$> old).
Proof.
  revert updated. induction old as [|[r p] old IH]; intros updated Hnd Hdisj; simpl.
  { by rewrite app_nil_r. }
  rewrite fmap_cons in Hnd. apply NoDup_cons in Hnd as [Hr Hnd].
  assert (indexOf_ref updated r = None) as ->.
  { apply indexOf_None. intros Hin. apply (Hdisj r Hin). simpl. apply list_elem_of_here. }
  rewrite IH; [by rewrite <- app_assoc|done|].
  intros r' Hin. rewrite fmap_app in Hin. apply elem_of_app in Hin as [Hin|Hin].
  - specialize (Hdisj r' Hin). simpl in Hdisj. by apply not_elem_of_cons in Hdisj as [_ ?].
  - simpl in Hin. apply list_elem_of_singleton in Hin. by subst.
Qed.

Lemma no_cancelled_running (l : list (nat * preloader)) :
  filter (λ rp, running rp.2 = true) (cancel_task <$> l) = [].
Proof.
  induction l as [|rp l IH]; [done|].
  rewrite fmap_cons, filter_cons, decide_False; [done|].
  simpl. by rewrite running_cancel.
Qed.

Lemma filter_delete_length {A : Type} (P : A → Prop) `{!∀ x, Decision (P x)}
    (l : list A) i :
  length (filter P (delete i l)) ≤ length (filter P l).
Proof.
  revert i. induction l as [|x l IH]; intros i; [by destruct i|].
  destruct i as [|i]; simpl.
  - rewrite filter_cons. case_decide; simpl; lia.
  - rewrite !filter_cons. specialize (IH i). case_decide; simpl; lia.
Qed.

Lemma settle_index (l : list (nat * preloader)) r u :
  unsettled_url (task_key <$> l) r = Some u →
  ∃ idx, indexOf_ref l r = Some idx ∧
         remove_first (r, u) (task_key <$> l) = task_key <$> delete idx l.
Proof.
  unfold indexOf_ref.
  induction l as [|[r0 p0] l IH]; csimpl; [done|].
  case_decide as Hr.
  - subst. intros [= <-]. exists 0. by rewrite decide_True.
  - intros Hu. destruct (IH Hu) as (idx & -> & Hrm). exists (S idx).
    split; [done|]. rewrite decide_False; [by rewrite Hrm|].
    unfold task_key. simpl. congruence.
Qed.

Lemma cancel_cancelled p : abort_controller p = ac_null → cancel p = p.
Proof. intros Hp. unfold cancel. by rewrite Hp. Qed.

Lemma cancelled_kept (l : list (nat * preloader)) rp :
  rp ∈ l → abort_controller rp.2 = ac_null → rp ∈ cancel_task <$> l.
Proof.
  intros Hin Hnull. apply list_elem_of_fmap. exists rp. split; [|done].
  unfold cancel_task. rewrite cancel_cancelled by done. by destruct rp.
Qed.

Lemma elem_of_delete_other {A : Type} (l : list A) i x y :
  x ∈ l → l !! i = Some y → x ≠ y → x ∈ delete i l.
Proof.
  intros Hin Hi Hne. rewrite <- (take_drop_middle l i y Hi) in Hin.
  rewrite delete_take_drop. set_solver.
Qed.

Lemma not_elem_of_delete_NoDup {A : Type} (l : list A) i x :
  NoDup l → l !! i = Some x → x ∉ delete i l.
Proof.
  intros Hnd Hi. rewrite <- (take_drop_middle l i x Hi) in Hnd.
  apply NoDup_app in Hnd as (_ & Hdisj & Hnd). apply NoDup_cons in Hnd as [Hx _].
  rewrite delete_take_drop. intros Hin. apply elem_of_app in Hin as [Hin|Hin]; [|done].
  apply (Hdisj x Hin). apply list_elem_of_here.
Qed.

Lemma elem_of_remove_first {A : Type} `{EqDecision A} (x y : A) (l : list A) :
  x ∈ l → x ≠ y → x ∈ remove_first y l.
Proof.
  intros Hin Hne. induction l as [|z l IH]; [done|]. simpl.
  apply elem_of_cons in Hin as [->|Hin].
  - rewrite decide_False by done. apply list_elem_of_here.
  - case_decide; [done|]. apply list_elem_of_further. by apply IH.
Qed.

Lemma recently_preloaded_pushed (recent : list string) u :
  u ∈ drop (length (recent ++ [u]) - recently_preloaded_max) (recent ++ [u]) ∧
  length (drop (length (recent ++ [u]) - recently_preloaded_max) (recent ++ [u]))
    ≤ recently_preloaded_max.
Proof.
  unfold recently_preloaded_max. rewrite length_drop, length_app. simpl. split; [|lia].
  rewrite drop_app_le by lia. apply elem_of_app. right. apply list_elem_of_here.
Qed.

Section WithMuting.

Variable any_tag_muted : list string → bool.
Variable is_muted_user_id : string → bool.

Local Abbreviation create_preloaders_for_illust :=
  (create_preloaders_for_illust any_tag_muted is_muted_user_id).
Local Abbreviation wanted_preloads := (wanted_preloads any_tag_muted is_muted_user_id).
Local Abbreviation filtered_preloads := (filtered_preloads any_tag_muted is_muted_user_id).
Local Abbreviation check_fetch_queue := (check_fetch_queue any_tag_muted is_muted_user_id).
Local Abbreviation settled := (settled any_tag_muted is_muted_user_id).
Local Abbreviation set_current_image_resumed :=
  (set_current_image_resumed any_tag_muted is_muted_user_id).
Local Abbreviation set_speculative_image_resumed :=
  (set_speculative_image_resumed any_tag_muted is_muted_user_id).
Local Abbreviation step := (step any_tag_muted is_muted_user_id).
Local Abbreviation run := (run any_tag_muted is_muted_user_id).
Local Abbreviation reachable := (reachable any_tag_muted is_muted_user_id).
Local Abbreviation candidates_of := (candidates_of any_tag_muted is_muted_user_id).

(** C7.  [create_preloaders_for_illust] gives no candidate for an
    illustration muted by tag or by user.  For one that is not muted: an
    animation (with its ugoira metadata) gives exactly the archive
    [originalSrc] as an XHR preload followed by the original image as an
    image preload; any other illustration gives one image preload per page
    for the page's small URL, in page order, followed by one image preload
    for the original URL of the first page and nothing else (without pages
    there is no candidate at all). *)
Theorem create_preloaders_cases (illust_data : illust) :
  (any_tag_muted (tags illust_data) = true ∨
   is_muted_user_id (userId illust_data) = true →
     create_preloaders_for_illust illust_data = Some []) ∧
  (any_tag_muted (tags illust_data) = false →
   is_muted_user_id (userId illust_data) = false →
     (illustType illust_data = 2 → ∀ meta,
        ugoiraMetadata illust_data = Some meta →
        create_preloaders_for_illust illust_data =
          Some [_xhr_preloader (originalSrc meta);
                _img_preloader (urls_original illust_data)]) ∧
     (illustType illust_data ≠ 2 → ∀ page pages,
        mangaPages illust_data = page :: pages →
        create_preloaders_for_illust illust_data =
          Some (((λ p, _img_preloader (urls_small p)) <$> (page :: pages))
                ++ [_img_preloader (page_urls_original page)]) ∧
        ∀ l, create_preloaders_for_illust illust_data = Some l →
          length l = S (length (page :: pages)) ∧
          ∀ i c, l !! i = Some c → class c = img_preloader ∧
            (i < length (page :: pages) →
               ∃ p, (page :: pages) !! i = Some p ∧ url c = urls_small p) ∧
            (length (page :: pages) ≤ i → url c = page_urls_original page)) ∧
     (illustType illust_data ≠ 2 → mangaPages illust_data = [] →
        create_preloaders_for_illust illust_data = Some [])).
Proof.
  unfold ImagePreloader.create_preloaders_for_illust. split.
  - intros [-> | Hu]; [done|]. rewrite Hu. by destruct (any_tag_muted _).
  - intros -> ->. split; [|split].
    + intros -> meta ->. done.
    + intros Hne page pages Hp. apply Nat.eqb_neq in Hne. rewrite Hne, Hp.
      split; [done|]. intros l Hl.
      assert (l = ((λ p, _img_preloader (urls_small p)) <$> (page :: pages))
                  ++ [_img_preloader (page_urls_original page)]) as -> by congruence.
      clear Hl. generalize (page :: pages). intros ps.
      rewrite length_app, length_fmap. simpl.
      split; [lia|]. intros i c Hi.
      destruct (decide (i < length ps)) as [Hlt|Hge].
      * rewrite lookup_app_l in Hi by (rewrite length_fmap; lia).
        apply list_lookup_fmap_Some in Hi as (p & -> & Hp').
        split; [done|]. split; [|lia]. intros _. by exists p.
      * rewrite lookup_app_r in Hi by (rewrite length_fmap; lia).
        rewrite length_fmap in Hi.
        destruct (i - length ps) as [|n] eqn:Hn; simpl in Hi; [|done].
        inversion Hi; subst. split; [done|]. split; [lia|done].
    + intros Hne Hp. apply Nat.eqb_neq in Hne. by rewrite Hne, Hp.
Qed.

(** *** The list [check_fetch_queue] works on *)

Lemma remove_recently_preloaded_spec recent (wanted : list preloader) :
  remove_recently_preloaded recent wanted = filter (λ c, url c ∉ recent) wanted.
Proof.
  unfold remove_recently_preloaded. apply list_filter_iff.
  intros c. apply indexOf_None.
Qed.

Lemma wanted_preloads_spec s current speculative :
  candidates_of (current_illust_info s) = Some current →
  candidates_of (speculative_illust_info s) = Some speculative →
  wanted_preloads s = Some (current ++ speculative).
Proof.
  unfold ImagePreloaderSpec.candidates_of, ImagePreloader.wanted_preloads.
  intros Hc Hs.
  destruct (current_illust_info s) as [a|].
  - rewrite Hc. simpl. destruct (speculative_illust_info s) as [b|].
    + by rewrite Hs.
    + inversion Hs; subst. by rewrite app_nil_r.
  - inversion Hc; subst. simpl. destruct (speculative_illust_info s) as [b|].
    + by rewrite Hs.
    + by inversion Hs; subst.
Qed.

Lemma check_fetch_queue_cases s :
  check_fetch_queue s =
    match filtered_preloads s with
    | Some (preload :: l) =>
        if existsb (active s) (preload :: l) then s else start_preload s preload
    | _ => s
    end.
Proof.
  unfold ImagePreloader.check_fetch_queue, ImagePreloader.filtered_preloads.
  destruct (wanted_preloads s) as [wanted|]; [|done]. simpl.
  destruct (remove_recently_preloaded (recently_preloaded_urls s) wanted)
    as [|preload l]; [done|].
  unfold concurrent_preloads. simpl. done.
Qed.

(** C5.  With [current] the candidates of the current target and
    [speculative] those of the speculative target, the list
    [check_fetch_queue] works on is [current] followed by [speculative],
    without the candidates whose URL is in [recently_preloaded_urls], cut
    to its first five; it has at most five entries, and
    [check_fetch_queue] does nothing when it is empty or one of its
    entries is listed, and starts its head otherwise.  With two candidates
    each and nothing recently preloaded the list is the two of the current
    target followed by the two of the speculative target. *)
Theorem wanted_list_order (s : state) (current speculative : list preloader) :
  candidates_of (current_illust_info s) = Some current →
  candidates_of (speculative_illust_info s) = Some speculative →
  filtered_preloads s =
    Some (derived_order current speculative (recently_preloaded_urls s)) ∧
  length (derived_order current speculative (recently_preloaded_urls s)) ≤ 5 ∧
  check_fetch_queue s =
    match derived_order current speculative (recently_preloaded_urls s) with
    | [] => s
    | preload :: l =>
        if existsb (active s) (preload :: l) then s else start_preload s preload
    end ∧
  (∀ a1 a2 b1 b2, current = [a1; a2] → speculative = [b1; b2] →
     recently_preloaded_urls s = [] →
     filtered_preloads s = Some [a1; a2; b1; b2]).
Proof.
  intros Hc Hs.
  assert (filtered_preloads s =
    Some (derived_order current speculative (recently_preloaded_urls s))) as Hf.
  { unfold ImagePreloader.filtered_preloads.
    rewrite (wanted_preloads_spec s current speculative Hc Hs). simpl.
    by rewrite remove_recently_preloaded_spec. }
  split; [done|]. split; [|split].
  - unfold derived_order. rewrite length_take. lia.
  - rewrite check_fetch_queue_cases, Hf.
    by destruct (derived_order current speculative (recently_preloaded_urls s)).
  - intros a1 a2 b1 b2 -> -> Hr. rewrite Hf, Hr. unfold derived_order.
    change ([a1; a2] ++ [b1; b2]) with [a1; a2; b1; b2].
    rewrite !filter_cons, filter_nil.
    rewrite !decide_True by apply not_elem_of_nil. done.
Qed.

(** *** The bookkeeping of [preloads] *)

Lemma preloads_start_preload s c :
  bookkeeping_ok s →
  preloads (start_preload s c) = (next_ref s, start c) :: (cancel_task <$> preloads s).
Proof.
  intros [Hfresh Hnd _ _]. unfold start_preload. simpl.
  rewrite cancel_unwanted_fresh; [done|done|].
  intros r Hin. simpl in Hin. apply list_elem_of_singleton in Hin. subst.
  intros Hin. apply Hfresh in Hin. lia.
Qed.

Lemma bookkeeping_ok_start_preload s c :
  bookkeeping_ok s → bookkeeping_ok (start_preload s c).
Proof.
  intros Hok. pose proof (preloads_start_preload s c Hok) as Hp.
  destruct Hok as [Hfresh Hnd Hlist Hone].
  split; rewrite ?Hp.
  - intros r Hin. rewrite fmap_cons, fst_cancel_task in Hin.
    apply elem_of_cons in Hin as [->|Hin]; simpl; [lia|].
    apply Hfresh in Hin. lia.
  - rewrite fmap_cons, fst_cancel_task. apply NoDup_cons. split; [|done].
    simpl. intros Hin. apply Hfresh in Hin. lia.
  - unfold start_preload at 1. simpl. rewrite Hlist. unfold task_key at 2. simpl.
    f_equal. rewrite <- list_fmap_compose. apply list_fmap_ext.
    intros i rp _. simpl. by rewrite task_key_cancel_task.
  - unfold running_tasks. rewrite Hp, filter_cons, no_cancelled_running.
    by case_decide.
Qed.

Lemma bookkeeping_ok_check_fetch_queue s :
  bookkeeping_ok s → bookkeeping_ok (check_fetch_queue s).
Proof.
  intros Hok. rewrite check_fetch_queue_cases.
  destruct (filtered_preloads s) as [[|c l]|]; try done.
  destruct (existsb (active s) (c :: l)); [done|].
  by apply bookkeeping_ok_start_preload.
Qed.

Lemma check_fetch_queue_frame s :
  let s' := check_fetch_queue s in
  current_illust_id s' = current_illust_id s ∧
  current_illust_info s' = current_illust_info s ∧
  speculative_illust_id s' = speculative_illust_id s ∧
  speculative_illust_info s' = speculative_illust_info s ∧
  recently_preloaded_urls s' = recently_preloaded_urls s ∧
  awaiting s' = awaiting s ∧
  preloaded_thumbs s' = preloaded_thumbs s.
Proof.
  simpl. rewrite check_fetch_queue_cases.
  destruct (filtered_preloads s) as [[|c l]|]; try done.
  by destruct (existsb (active s) (c :: l)).
Qed.

Lemma bookkeeping_ok_same s s' :
  preloads s' = preloads s → next_ref s' = next_ref s → unsettled s' = unsettled s →
  bookkeeping_ok s → bookkeeping_ok s'.
Proof.
  intros Hp Hn Hu [H1 H2 H3 H4].
  split; unfold running_tasks; rewrite ?Hp, ?Hn, ?Hu; done.
Qed.

Lemma bookkeeping_ok_settled r u s :
  bookkeeping_ok s → unsettled_url (unsettled s) r = Some u →
  bookkeeping_ok (settled r u (with_unsettled (remove_first (r, u)) s)).
Proof.
  intros [Hfresh Hnd Hlist Hone] Hu. unfold ImagePreloader.settled. simpl.
  rewrite Hlist in Hu. destruct (settle_index _ _ _ Hu) as (idx & -> & Hrm).
  apply bookkeeping_ok_check_fetch_queue. split; unfold_preloader.
  - intros r' Hin. apply Hfresh. rewrite list_fmap_delete in Hin.
    eapply elem_of_sublist; [done|]. apply sublist_delete.
  - rewrite list_fmap_delete. eapply sublist_NoDup; [done|]. apply sublist_delete.
  - by rewrite Hlist, Hrm.
  - unfold running_tasks in *. simpl.
    etrans; [apply filter_delete_length|done].
Qed.

Lemma bookkeeping_ok_resumed_current id info s :
  bookkeeping_ok s → bookkeeping_ok (set_current_image_resumed id info s).
Proof.
  intros Hok. unfold ImagePreloader.set_current_image_resumed.
  case_decide; [done|]. destruct info as [i|].
  - apply bookkeeping_ok_check_fetch_queue. unfold preload_thumbs.
    destruct (Nat.ltb (pageCount i) 2); by destruct Hok.
  - by destruct Hok.
Qed.

Lemma bookkeeping_ok_resumed_speculative id info s :
  bookkeeping_ok s → bookkeeping_ok (set_speculative_image_resumed id info s).
Proof.
  intros Hok. unfold ImagePreloader.set_speculative_image_resumed.
  case_decide; [done|]. destruct info as [i|].
  - apply bookkeeping_ok_check_fetch_queue. unfold preload_thumbs.
    destruct (Nat.ltb (pageCount i) 2); by destruct Hok.
  - by destruct Hok.
Qed.

Lemma bookkeeping_ok_step e s s' :
  bookkeeping_ok s → step e s = Some s' → bookkeeping_ok s'.
Proof.
  intros Hok Hstep. destruct e as [id|id|t id info|r]; simpl in Hstep.
  - inversion Hstep; subst. unfold suspend, set_current_image.
    case_decide; simpl; [done|]. destruct id; simpl; by destruct Hok.
  - inversion Hstep; subst. unfold suspend, set_speculative_image.
    case_decide; simpl; [done|]. destruct id; simpl; by destruct Hok.
  - case_decide; [|done]. inversion Hstep; subst.
    assert (bookkeeping_ok (with_awaiting (remove_first (t, id)) s)) as Hok'
      by (by destruct Hok).
    destruct t.
    + by apply bookkeeping_ok_resumed_current.
    + by apply bookkeeping_ok_resumed_speculative.
  - destruct (unsettled_url (unsettled s) r) as [u|] eqn:Hu; [|done].
    inversion Hstep; subst. by apply bookkeeping_ok_settled.
Qed.

Lemma bookkeeping_ok_init : bookkeeping_ok init.
Proof. split; simpl; try done; [|apply NoDup_nil_2|unfold running_tasks; simpl; lia].
  intros r Hin. by apply elem_of_nil in Hin. Qed.

Lemma bookkeeping_ok_run evs s s' :
  bookkeeping_ok s → run evs s = Some s' → bookkeeping_ok s'.
Proof.
  revert s. induction evs as [|e evs IH]; intros s Hok Hrun; simpl in Hrun.
  - by inversion Hrun; subst.
  - destruct (step e s) as [s1|] eqn:Hstep; [|done].
    eapply IH; [|done]. by eapply bookkeeping_ok_step.
Qed.

Lemma bookkeeping_ok_reachable s : reachable s → bookkeeping_ok s.
Proof. intros [evs Hrun]. eapply bookkeeping_ok_run; [apply bookkeeping_ok_init|done]. Qed.

Lemma check_fetch_queue_preloads s :
  bookkeeping_ok s →
  check_fetch_queue s = s ∨
  ∃ c, check_fetch_queue s = start_preload s c ∧
       preloads (check_fetch_queue s) =
         (next_ref s, start c) :: (cancel_task <$> preloads s).
Proof.
  intros Hok. rewrite check_fetch_queue_cases.
  destruct (filtered_preloads s) as [[|c l]|]; try by left.
  destruct (existsb (active s) (c :: l)); [by left|].
  right. exists c. split; [done|]. by apply preloads_start_preload.
Qed.

(** C6, as the code has it.  In every state the preloader reaches at most
    one listed task is running (started and not asked to abort).
    [check_fetch_queue] changes nothing when a candidate of its cut list is
    listed (or the list is empty), and otherwise starts the head of the
    list and nothing else, cancelling every task that was listed; those
    stay listed and unsettled, so a new task can start while an older,
    cancelled one has not settled. *)
Theorem one_task_running (s : state) :
  reachable s →
  running_tasks s ≤ 1 ∧
  (∀ l, filtered_preloads s = Some l → existsb (active s) l = true →
     check_fetch_queue s = s) ∧
  (filtered_preloads s = Some [] → check_fetch_queue s = s) ∧
  (∀ c l, filtered_preloads s = Some (c :: l) →
     existsb (active s) (c :: l) = false →
     preloads (check_fetch_queue s) =
       (next_ref s, start c) :: (cancel_task <$> preloads s) ∧
     unsettled (check_fetch_queue s) = (next_ref s, url c) :: unsettled s ∧
     running_tasks (check_fetch_queue s) = 1 ∧
     ∀ rp, rp ∈ preloads s →
       cancel_task rp ∈ preloads (check_fetch_queue s) ∧
       running (cancel_task rp).2 = false).
Proof.
  intros Hreach. pose proof (bookkeeping_ok_reachable s Hreach) as Hok.
  split; [by destruct Hok|]. split; [|split].
  - intros l Hf Hact. rewrite check_fetch_queue_cases, Hf.
    destruct l as [|c l]; [done|]. by rewrite Hact.
  - intros Hf. by rewrite check_fetch_queue_cases, Hf.
  - intros c l Hf Hact. rewrite check_fetch_queue_cases, Hf, Hact.
    pose proof (preloads_start_preload s c Hok) as Hp. rewrite Hp.
    split; [done|]. split; [done|]. split.
    + unfold running_tasks. rewrite Hp, filter_cons, no_cancelled_running.
      by rewrite decide_True.
    + intros rp Hin. split.
      * apply list_elem_of_further. by apply list_elem_of_fmap_2.
      * simpl. apply running_cancel.
Qed.

(** C9.  In every state the preloader reaches, the listed tasks are
    exactly the started tasks that have not settled.  An event other than a
    settlement leaves [recently_preloaded_urls] alone and either leaves
    [preloads] alone or puts one new task before the old ones, each of
    which is kept, cancelled; a task that was cancelled is still listed
    afterwards, as it was.  The settlement of a task pushes its URL onto
    [recently_preloaded_urls] and removes that task and no other from
    [preloads] (before the next task, if any, is started): the cancelled
    tasks other than the settled one are still listed. *)
Theorem cancelled_tasks_stay_listed (s : state) :
  reachable s →
  unsettled s = task_key <$> preloads s ∧
  (∀ e s', step e s = Some s' → (∀ r, e ≠ EvSettled r) →
     recently_preloaded_urls s' = recently_preloaded_urls s ∧
     (preloads s' = preloads s ∨
      ∃ c, preloads s' = (next_ref s, start c) :: (cancel_task <$> preloads s)) ∧
     (∀ rp, rp ∈ preloads s → abort_controller rp.2 = ac_null → rp ∈ preloads s')) ∧
  (∀ r s', step (EvSettled r) s = Some s' →
     ∃ u idx, unsettled_url (unsettled s) r = Some u ∧
       indexOf_ref (preloads s) r = Some idx ∧
       (preloads s' = delete idx (preloads s) ∨
        ∃ c, preloads s' = (next_ref s, start c)
                           :: (cancel_task <$> delete idx (preloads s))) ∧
       (r ∉ (preloads s').*1) ∧
       (∀ rp, rp ∈ preloads s → rp.1 ≠ r → abort_controller rp.2 = ac_null →
          rp ∈ preloads s') ∧
       recently_preloaded_urls s' =
         drop (length (recently_preloaded_urls s ++ [u]) - recently_preloaded_max)
           (recently_preloaded_urls s ++ [u]) ∧
       u ∈ recently_preloaded_urls s').
Proof.
  intros Hreach. pose proof (bookkeeping_ok_reachable s Hreach) as Hok.
  split; [by destruct Hok|]. split.
  - intros e s' Hstep Hne.
    cut (recently_preloaded_urls s' = recently_preloaded_urls s ∧
         (preloads s' = preloads s ∨
          ∃ c, preloads s' = (next_ref s, start c) :: (cancel_task <$> preloads s))).
    { intros (Hr & Hp). split; [done|]. split; [done|].
      intros rp Hin Hnull. destruct Hp as [->|(c & ->)]; [done|].
      apply list_elem_of_further. by apply cancelled_kept. }
    destruct e as [id|id|t id info|r]; simpl in Hstep.
    + inversion Hstep; subst. unfold suspend, set_current_image.
      case_decide; simpl; [by split; [|left]|]. destruct id; simpl; by split; [|left].
    + inversion Hstep; subst. unfold suspend, set_speculative_image.
      case_decide; simpl; [by split; [|left]|]. destruct id; simpl; by split; [|left].
    + case_decide; [|done]. inversion Hstep; subst.
      assert (∀ t0, preloads t0 = preloads s → next_ref t0 = next_ref s →
                unsettled t0 = unsettled s →
                recently_preloaded_urls t0 = recently_preloaded_urls s →
                recently_preloaded_urls (check_fetch_queue t0)
                  = recently_preloaded_urls s ∧
                (preloads (check_fetch_queue t0) = preloads s ∨
                 ∃ c, preloads (check_fetch_queue t0)
                      = (next_ref s, start c) :: (cancel_task <$> preloads s)))
        as Hcfq.
      { intros t0 Hp Hn Hu Hr.
        destruct (check_fetch_queue_frame t0) as (_ & _ & _ & _ & -> & _).
        split; [done|].
        destruct (check_fetch_queue_preloads t0) as [->|(c & _ & ->)].
        - by eapply bookkeeping_ok_same.
        - by left.
        - right. exists c. by rewrite Hp, Hn. }
      destruct t.
      * unfold ImagePreloader.set_current_image_resumed.
        case_decide; [by split; [|left]|].
        destruct info as [i|]; [|by split; [|left]].
        apply Hcfq; unfold preload_thumbs; by destruct (Nat.ltb (pageCount i) 2).
      * unfold ImagePreloader.set_speculative_image_resumed.
        case_decide; [by split; [|left]|].
        destruct info as [i|]; [|by split; [|left]].
        apply Hcfq; unfold preload_thumbs; by destruct (Nat.ltb (pageCount i) 2).
    + by destruct (Hne r).
  - intros r s' Hstep. simpl in Hstep.
    destruct (unsettled_url (unsettled s) r) as [u|] eqn:Hu; [|done].
    inversion Hstep; subst. clear Hstep. exists u.
    destruct Hok as [Hfresh Hnd Hlist Hone].
    pose proof Hu as Hu'. rewrite Hlist in Hu'.
    destruct (settle_index _ _ _ Hu') as (idx & Hidx & Hrm). exists idx.
    split; [done|]. split; [done|].
    unfold ImagePreloader.settled. simpl. rewrite Hidx.
    set (t0 := with_preloads (delete idx) _).
    assert (bookkeeping_ok t0) as Hok0.
    { split; unfold t0; unfold_preloader.
      - intros r' Hin. apply Hfresh. rewrite list_fmap_delete in Hin.
        eapply elem_of_sublist; [done|]. apply sublist_delete.
      - rewrite list_fmap_delete. eapply sublist_NoDup; [done|]. apply sublist_delete.
      - by rewrite Hlist, Hrm.
      - unfold running_tasks in *. simpl.
        etrans; [apply filter_delete_length|done]. }
    assert (r ∉ (delete idx (preloads s)).*1) as Hgone.
    { rewrite list_fmap_delete. apply not_elem_of_delete_NoDup; [done|].
      by apply indexOf_Some in Hidx as [? _]. }
    assert (r < next_ref s) as Hlt.
    { apply Hfresh. apply indexOf_Some in Hidx as [Hidx _].
      by eapply list_elem_of_lookup_2. }
    destruct (check_fetch_queue_frame t0) as (_ & _ & _ & _ & Hrec & _).
    rewrite Hrec.
    destruct (recently_preloaded_pushed (recently_preloaded_urls s) u) as [Hin _].
    assert (∀ rp, rp ∈ preloads s → rp.1 ≠ r → rp ∈ delete idx (preloads s)) as Hkept.
    { intros rp Hrp Hne. apply indexOf_Some in Hidx as [Hidx _].
      apply list_lookup_fmap_Some in Hidx as (rp0 & Hr0 & Hidx).
      eapply elem_of_delete_other; [done|done|]. congruence. }
    destruct (check_fetch_queue_preloads t0 Hok0) as [->|(c & _ & ->)].
    + split; [by left|]. split; [done|]. split; [|done].
      intros rp Hrp Hne _. by apply Hkept.
    + split; [right; by exists c|]. split; [|split; [|by split]].
      * rewrite fmap_cons, fst_cancel_task. simpl.
        apply not_elem_of_cons. split; [lia|done].
      * intros rp Hrp Hne Hnull. apply list_elem_of_further.
        apply cancelled_kept; [|done]. by apply Hkept.
Qed.

(** C8.  Let [set_current_image(a)] be called, then
    [set_current_image(b)] with [b] other than [a], both before the
    metadata of [a] arrives.  Both calls are then suspended with the
    current identifier [b] and no metadata stored.  When the call for [a]
    resumes, whatever value it awaited, it finds the current identifier
    changed and returns: no field of the preloader changes.  When the call
    for [b] resumes it stores what it awaited; this holds in either order
    of the two resumptions.  In general the stored metadata changes only
    when a setter clears it or when a suspended call resumes for the
    identifier that is current at that moment. *)
Theorem stale_result_discarded (s : state) (a : string) (b : option string)
    (info_a : option illust) :
  current_illust_id s ≠ Some a → b ≠ Some a →
  let s1 := suspend Current (set_current_image (Some a) s) in
  let s2 := suspend Current (set_current_image b s1) in
  (Current, a) ∈ awaiting s2 ∧
  current_illust_id s2 = b ∧ current_illust_info s2 = None ∧
  step (EvResumed Current a info_a) s2
    = Some (with_awaiting (remove_first (Current, a)) s2) ∧
  (∀ b' info_b, b = Some b' →
     ∃ s4, run [EvResumed Current a info_a; EvResumed Current b' (Some info_b)] s2
             = Some s4 ∧
           current_illust_id s4 = Some b' ∧ current_illust_info s4 = Some info_b) ∧
  (∀ b' info_b, b = Some b' →
     ∃ s4, run [EvResumed Current b' (Some info_b); EvResumed Current a info_a] s2
             = Some s4 ∧
           current_illust_id s4 = Some b' ∧ current_illust_info s4 = Some info_b) ∧
  (∀ t e t', step e t = Some t' →
     current_illust_info t' ≠ current_illust_info t →
     (∃ id, e = EvSetCurrentImage id ∧ current_illust_info t' = None) ∨
     (∃ id info, e = EvResumed Current id info ∧
        current_illust_id t = Some id ∧ current_illust_id t' = Some id ∧
        current_illust_info t' = info)).
Proof.
  intros Ha Hb s1 s2.
  assert (awaiting s1 = awaiting s ++ [(Current, a)] ∧
          current_illust_id s1 = Some a) as [Haw1 Hid1].
  { unfold s1, suspend, set_current_image. by rewrite decide_False. }
  assert (current_illust_id s2 = b ∧ current_illust_info s2 = None ∧
          (Current, a) ∈ awaiting s2 ∧
          ∀ b', b = Some b' → (Current, b') ∈ awaiting s2) as (Hid2 & Hinfo2 & Hina & Hinb).
  { unfold s2, suspend, set_current_image.
    rewrite decide_False by (rewrite Hid1; congruence).
    destruct b as [b'|]; simpl; rewrite Haw1.
    - repeat split; [set_solver|]. intros ? [= <-]. set_solver.
    - repeat split; [set_solver|done]. }
  assert (∀ t, current_illust_id t = b →
            set_current_image_resumed a info_a t = t) as Hstale.
  { intros t Ht. unfold ImagePreloader.set_current_image_resumed.
    rewrite decide_True; [done|]. left. rewrite Ht. congruence. }
  assert (∀ b' info_b t, current_illust_id t = Some b' → current_illust_info t = None →
            let t' := set_current_image_resumed b' (Some info_b) t in
            current_illust_id t' = Some b' ∧ current_illust_info t' = Some info_b ∧
            awaiting t' = awaiting t) as Hfresh.
  { intros b' info_b t Hid Hinfo. unfold ImagePreloader.set_current_image_resumed.
    rewrite decide_False by (rewrite Hid, Hinfo; intros [|]; congruence).
    match goal with |- context [check_fetch_queue ?x] =>
      destruct (check_fetch_queue_frame x) as (-> & -> & _ & _ & _ & -> & _) end.
    unfold preload_thumbs. by destruct (Nat.ltb (pageCount info_b) 2). }
  clearbody s2. clear s1 Haw1 Hid1.
  split; [done|]. split; [done|]. split; [done|]. split; [|split; [|split]].
  - simpl. rewrite decide_True by done. by rewrite Hstale.
  - intros b' info_b ->. simpl. rewrite decide_True by done.
    rewrite Hstale by done. simpl.
    rewrite decide_True by (apply elem_of_remove_first; [by apply Hinb|congruence]).
    eexists. split; [done|].
    match goal with |- context [set_current_image_resumed b' (Some info_b) ?t] =>
      destruct (Hfresh b' info_b t) as (H1 & H2 & _); [done|done|] end.
    by split.
  - intros b' info_b ->. simpl. rewrite decide_True by (by apply Hinb).
    match goal with |- context [set_current_image_resumed b' (Some info_b) ?t] =>
      destruct (Hfresh b' info_b t) as (H1 & H2 & H3); [done|done|];
      set (t3 := set_current_image_resumed b' (Some info_b) t) in * end.
    rewrite decide_True.
    2:{ rewrite H3. simpl. apply elem_of_remove_first; [done|congruence]. }
    eexists. split; [done|].
    rewrite Hstale by done. by split.
  - intros t e t' Hstep Hch. destruct e as [id|id|tg id info|r]; simpl in Hstep.
    + left. exists id. split; [done|]. inversion Hstep; subst.
      unfold suspend, set_current_image in *.
      destruct (decide (current_illust_id t = id)); simpl in *; [done|].
      by destruct id.
    + exfalso. apply Hch. inversion Hstep; subst.
      unfold suspend, set_speculative_image.
      case_decide; simpl; [done|]. by destruct id.
    + case_decide; [|done]. inversion Hstep; subst. destruct tg.
      * right. exists id, info. split; [done|].
        unfold ImagePreloader.set_current_image_resumed in *.
        destruct (decide (current_illust_id (with_awaiting (remove_first (Current, id)) t)
                            ≠ Some id ∨
                          current_illust_info (with_awaiting (remove_first (Current, id)) t)
                            ≠ None)) as [|Hn]; [done|].
        destruct (decide (current_illust_id t = Some id)) as [Hn1|Hn1];
          [|exfalso; apply Hn; by left].
        split; [done|]. destruct info as [i|]; [|done].
        match goal with |- context [check_fetch_queue ?x] =>
          destruct (check_fetch_queue_frame x) as (-> & -> & _) end.
        unfold preload_thumbs. by destruct (Nat.ltb (pageCount i) 2).
      * exfalso. apply Hch.
        unfold ImagePreloader.set_speculative_image_resumed.
        case_decide; [done|]. destruct info as [i|]; [|done].
        match goal with |- context [check_fetch_queue ?x] =>
          destruct (check_fetch_queue_frame x) as (_ & -> & _) end.
        unfold preload_thumbs. by destruct (Nat.ltb (pageCount i) 2).
    + exfalso. apply Hch.
      destruct (unsettled_url (unsettled t) r) as [u|]; [|done].
      inversion Hstep; subst. unfold ImagePreloader.settled. simpl.
      destruct (indexOf_ref (preloads t) r); [|done].
      match goal with |- context [check_fetch_queue ?x] =>
        destruct (check_fetch_queue_frame x) as (_ & -> & _) end.
      done.
Qed.

End WithMuting.

(** *** Concrete runs *)

(** C6 as stated does not hold: after the current target changed, the
    first preload of the new target is started while the preload of the
    old target, cancelled, has not settled. *)
Lemma second_starts_before_first_settles :
  ¬ (∀ s, reachable mute_no_tag mute_no_user s → length (unsettled s) ≤ 1).
Proof.
  intros Hclaim.
  assert (reachable mute_no_tag mute_no_user (state_after run_switch_target))
    as Hreach.
  { exists run_switch_target. vm_compute. reflexivity. }
  apply Hclaim in Hreach. vm_compute in Hreach. lia.
Qed.

Lemma create_preloaders_cases_witness :
  create_preloaders_for_illust mute_tag_r18 mute_user_13 item_muted = Some [] ∧
  create_preloaders_for_illust mute_tag_r18 mute_user_13 item_b =
    Some [_xhr_preloader "b/zip"; _img_preloader "b/o1"] ∧
  create_preloaders_for_illust mute_tag_r18 mute_user_13 item_m =
    Some [_img_preloader "m/s1"; _img_preloader "m/s2"; _img_preloader "m/s3";
          _img_preloader "m/o1"].
Proof.
  destruct (create_preloaders_cases mute_tag_r18 mute_user_13 item_muted) as [Hm _].
  destruct (create_preloaders_cases mute_tag_r18 mute_user_13 item_b)
    as [_ Hb].
  destruct (create_preloaders_cases mute_tag_r18 mute_user_13 item_m)
    as [_ Hs].
  split; [|split].
  - apply Hm. left. reflexivity.
  - destruct (Hb eq_refl eq_refl) as (Hb' & _).
    apply (Hb' eq_refl {| originalSrc := "b/zip" |} eq_refl).
  - destruct (Hs eq_refl eq_refl) as (_ & Hs' & _).
    refine (proj1 (Hs' _ _ _ eq_refl)). intros H. discriminate H.
Defined.

Lemma wanted_list_order_witness :
  filtered_preloads mute_no_tag mute_no_user
    (with_speculative (Some "2"%string) (Some item_b)
       (with_current (Some "1"%string) (Some item_a) init))
  = Some [_img_preloader "a/s1"; _img_preloader "a/o1";
          _xhr_preloader "b/zip"; _img_preloader "b/o1"].
Proof.
  destruct (wanted_list_order mute_no_tag mute_no_user
              (with_speculative (Some "2"%string) (Some item_b)
                 (with_current (Some "1"%string) (Some item_a) init))
              [_img_preloader "a/s1"; _img_preloader "a/o1"]
              [_xhr_preloader "b/zip"; _img_preloader "b/o1"]
              eq_refl eq_refl) as (_ & _ & _ & H).
  apply (H _ _ _ _ eq_refl eq_refl eq_refl).
Defined.

Lemma one_task_running_witness :
  let s := state_after run_unset_target in
  running_tasks s ≤ 1 ∧
  preloads s = [(0, start (_img_preloader "a/s1"))] ∧
  preloads (check_fetch_queue mute_no_tag mute_no_user s) =
    [(1, start (_xhr_preloader "b/zip"));
     (0, cancel (start (_img_preloader "a/s1")))] ∧
  running_tasks (check_fetch_queue mute_no_tag mute_no_user s) = 1.
Proof.
  intros s.
  assert (reachable mute_no_tag mute_no_user s) as Hreach.
  { exists run_unset_target. vm_compute. reflexivity. }
  destruct (one_task_running mute_no_tag mute_no_user s Hreach) as (H1 & _ & _ & H4).
  destruct (H4 (_xhr_preloader "b/zip") [_img_preloader "b/o1"] eq_refl eq_refl)
    as (Hp & _ & Hone & _).
  split; [exact H1|]. split; [reflexivity|]. split; [exact Hp|exact Hone].
Defined.

Lemma cancelled_tasks_stay_listed_witness :
  let s := state_after run_switch_target in
  preloads s = [(1, start (_img_preloader "m/s1"));
                (0, cancel (start (_img_preloader "a/s1")))] ∧
  ∃ s', step mute_no_tag mute_no_user (EvSettled 0) s = Some s' ∧
        (0 ∉ (preloads s').*1) ∧
        "a/s1"%string ∈ recently_preloaded_urls s' ∧
        recently_preloaded_urls
          (suspend Speculative (set_speculative_image (Some "2"%string) s))
        = recently_preloaded_urls s.
Proof.
  intros s.
  assert (reachable mute_no_tag mute_no_user s) as Hreach.
  { exists run_switch_target. vm_compute. reflexivity. }
  destruct (cancelled_tasks_stay_listed mute_no_tag mute_no_user s Hreach)
    as (_ & Hother & Hsettle).
  split; [reflexivity|].
  eexists. split; [reflexivity|].
  destruct (Hsettle 0 _ eq_refl) as (u & idx & Hu & _ & _ & Hgone & _ & _ & Hin).
  split; [exact Hgone|]. split.
  - vm_compute in Hu. inversion Hu; subst. exact Hin.
  - refine (proj1 (Hother (EvSetSpeculativeImage (Some "2"%string)) _ eq_refl _)).
    intros r H. discriminate H.
Defined.

Lemma stale_result_discarded_witness :
  let s2 := suspend Current
              (set_current_image (Some "3"%string)
                 (suspend Current (set_current_image (Some "1"%string) init))) in
  step mute_no_tag mute_no_user (EvResumed Current "1" (Some item_a)) s2
    = Some (with_awaiting (remove_first (Current, "1"%string)) s2) ∧
  ∃ s4, run mute_no_tag mute_no_user
          [EvResumed Current "1" (Some item_a);
           EvResumed Current "3" (Some item_m)] s2 = Some s4 ∧
        current_illust_id s4 = Some "3"%string ∧
        current_illust_info s4 = Some item_m.
Proof.
  intros s2.
  destruct (stale_result_discarded mute_no_tag mute_no_user init "1"
              (Some "3"%string) (Some item_a))
    as (_ & _ & _ & Hstale & Hthen & _).
  - intros H. discriminate H.
  - intros H. discriminate H.
  - split; [exact Hstale|]. exact (Hthen "3"%string item_m eq_refl).
Defined.

End ImagePreloaderFacts.

(** ** Further properties of the metadata cache *)

Module ImageDataMore.
Import ImageData ImageDataSpec ImageDataFacts.

(** *** The caches only grow *)

Lemma cache_grew_refl s : cache_grew s s.
Proof. by split. Qed.

Lemma cache_grew_trans s1 s2 s3 : cache_grew s1 s2 → cache_grew s2 s3 → cache_grew s1 s3.
Proof.
  intros [A1 A2 A3 A4] [B1 B2 B3 B4]. split.
  - set_solver.
  - set_solver.
  - intros k Hk. rewrite B3 by set_solver. by apply A3.
  - intros k Hk. rewrite B4 by set_solver. by apply A4.
Qed.

Lemma cache_grew_same s s' :
  image_data s' = image_data s → user_data s' = user_data s → sent s' = sent s →
  cache_grew s s'.
Proof. intros Hi Hu Hs. split; rewrite ?Hi, ?Hu, ?Hs; done. Qed.

Lemma cache_grew_load_user_info u s : cache_grew s (load_user_info u s).
Proof.
  split; rewrite ?image_data_load_user_info, ?user_data_load_user_info; try done.
  - intros k _. apply illust_fetches_load_user_info.
  - intros k Hk. unfold load_user_info. case_decide; [done|].
    destruct (user_data s !! u) eqn:Hu; [done|]. unfold_state.
    rewrite fetches_snoc, decide_False; [lia|].
    intros [= ->]. apply elem_of_dom in Hk as [? ?]. congruence.
Qed.

Lemma cache_grew_load_image_info k s : cache_grew s (load_image_info k s).
Proof.
  unfold load_image_info.
  set (s1 := match illust_id_to_user_id s !! k with
             | Some c => load_user_info c s | None => s end).
  assert (cache_grew s s1) as H1.
  { unfold s1. destruct (illust_id_to_user_id s !! k);
      [apply cache_grew_load_user_info|apply cache_grew_refl]. }
  eapply cache_grew_trans; [exact H1|].
  case_decide; [apply cache_grew_refl|].
  destruct (image_data s1 !! k) eqn:Hk; [apply cache_grew_load_user_info|].
  split; unfold_state; try done.
  - intros k' Hk'. rewrite fetches_snoc, decide_False; [lia|].
    intros [= ->]. apply elem_of_dom in Hk' as [? ?]. congruence.
  - intros k' _. rewrite fetches_snoc, decide_False by done. lia.
Qed.

Lemma cache_grew_finished_loading_image_data d s :
  cache_grew s (finished_loading_image_data d s).
Proof.
  unfold finished_loading_image_data. split; unfold_state; try done.
  rewrite dom_insert_L. set_solver.
Qed.

Lemma cache_grew_loaded_image_info r s : cache_grew s (loaded_image_info r s).
Proof.
  unfold loaded_image_info. destruct (error r); [apply cache_grew_refl|].
  destruct (body r) as [d|]; [|apply cache_grew_refl].
  destruct (Nat.eqb (illustType d) 2).
  - split; unfold_state; try done.
    + intros k _. rewrite fetches_snoc, decide_False by done. lia.
    + intros k _. rewrite fetches_snoc, decide_False by done. lia.
  - eapply cache_grew_trans; [|apply cache_grew_finished_loading_image_data].
    by apply cache_grew_same.
Qed.

Lemma cache_grew_call_pending_callbacks s : cache_grew s (call_pending_callbacks s).
Proof.
  destruct (call_pending_callbacks_frame s) as (Hu & _ & _ & _ & _ & _ & Hs & Hd).
  split; rewrite ?Hu, ?Hs, ?Hd; done.
Qed.

Lemma cache_grew_loaded_user_info r s : cache_grew s (loaded_user_info r s).
Proof.
  unfold loaded_user_info. destruct (error r); [apply cache_grew_refl|].
  destruct (body r) as [u|]; [|apply cache_grew_refl].
  eapply cache_grew_trans; [|apply cache_grew_call_pending_callbacks].
  split; unfold_state; try done. rewrite dom_insert_L. set_solver.
Qed.

Lemma cache_grew_step e s s' : step e s = Some s' → cache_grew s s'.
Proof.
  intros Hstep. destruct e; simpl in Hstep.
  - inversion Hstep; subst. unfold get_image_info.
    eapply cache_grew_trans; [|apply cache_grew_load_image_info].
    destruct cb; [by apply cache_grew_same|apply cache_grew_refl].
  - inversion Hstep; subst. unfold get_user_info.
    eapply cache_grew_trans; [|apply cache_grew_load_user_info].
    destruct cb; [by apply cache_grew_same|apply cache_grew_refl].
  - inversion Hstep; subst. apply cache_grew_loaded_image_info.
  - inversion Hstep; subst. apply cache_grew_loaded_user_info.
  - inversion Hstep; subst. by apply cache_grew_same.
  - destruct (timers s) as [|t q]; [done|]. inversion Hstep; subst.
    eapply (cache_grew_trans _ (with_timers (λ _, q) s)); [by apply cache_grew_same|].
    destruct t; simpl;
      [apply cache_grew_load_user_info|apply cache_grew_call_pending_callbacks].
  - case_decide; [|done]. inversion Hstep; subst.
    eapply cache_grew_trans; [|apply cache_grew_loaded_image_info].
    by apply cache_grew_same.
  - case_decide; [|done]. inversion Hstep; subst.
    eapply cache_grew_trans; [|apply cache_grew_loaded_user_info].
    by apply cache_grew_same.
  - case_decide; [|done]. inversion Hstep; subst. unfold loaded_ugoira_metadata.
    eapply cache_grew_trans; [|apply cache_grew_finished_loading_image_data].
    by apply cache_grew_same.
Qed.

Lemma cache_grew_run evs s s' : run evs s = Some s' → cache_grew s s'.
Proof.
  revert s. induction evs as [|e evs IH]; intros s Hrun; simpl in Hrun.
  - inversion Hrun; subst. apply cache_grew_refl.
  - destruct (step e s) as [s1|] eqn:Hstep; [|done].
    eapply cache_grew_trans; [by eapply cache_grew_step|by apply IH].
Qed.

(** X1.  Nothing is ever evicted from the two caches, and a key that is
    cached is never requested again: over any run, from any state, an
    illustration (a user) that is cached stays cached, and the number of
    requests made for it stays what it was. *)
Theorem cached_stays_cached (evs : list event) (s s' : state) (k : string) :
  run evs s = Some s' →
  (is_Some (image_data s !! k) →
     is_Some (image_data s' !! k) ∧
     fetches (ReqIllust k) (sent s') = fetches (ReqIllust k) (sent s)) ∧
  (is_Some (user_data s !! k) →
     is_Some (user_data s' !! k) ∧
     fetches (ReqUser k) (sent s') = fetches (ReqUser k) (sent s)).
Proof.
  intros Hrun. destruct (cache_grew_run _ _ _ Hrun) as [H1 H2 H3 H4]. split.
  - intros Hk. apply elem_of_dom in Hk. split; [|by apply H3].
    apply elem_of_dom. by apply H1.
  - intros Hk. apply elem_of_dom in Hk. split; [|by apply H4].
    apply elem_of_dom. by apply H2.
Qed.

(** *** The callbacks of [get_user_info] *)

Lemma pending_user_load_user_info u s :
  pending_user_info_calls (load_user_info u s) = pending_user_info_calls s.
Proof.
  unfold load_user_info. case_decide; [done|]. by destruct (user_data s !! u).
Qed.

Lemma pending_user_load_image_info k s :
  pending_user_info_calls (load_image_info k s) = pending_user_info_calls s.
Proof.
  unfold load_image_info.
  set (s1 := match illust_id_to_user_id s !! k with
             | Some c => load_user_info c s | None => s end).
  assert (pending_user_info_calls s1 = pending_user_info_calls s) as <-.
  { unfold s1. destruct (illust_id_to_user_id s !! k); [|done].
    apply pending_user_load_user_info. }
  case_decide; [done|]. destruct (image_data s1 !! k); [|done].
  apply pending_user_load_user_info.
Qed.

Lemma pending_user_loaded_image_info r s :
  pending_user_info_calls (loaded_image_info r s) = pending_user_info_calls s.
Proof.
  unfold loaded_image_info. destruct (error r); [done|].
  destruct (body r) as [d|]; [|done]. by destruct (Nat.eqb (illustType d) 2).
Qed.

Lemma scan_user_accounting s cb (l : list (string * callback)) :
  occurrences cb (snd <$> filter (λ e, due_user s e = None) l) +
  occurrences cb (omap user_callback (omap (due_user s) l)) =
  occurrences cb (snd <$> l).
Proof.
  induction l as [|e l IH]; [done|].
  rewrite filter_cons, omap_cons_match, fmap_cons, (occurrences_cons _ e.2).
  destruct (due_user s e) as [c|] eqn:Hdue.
  - rewrite decide_False by done.
    assert (user_callback c = Some e.2) as Hc.
    { unfold due_user in Hdue. destruct (user_data s !! e.1); [|done].
      by inversion Hdue. }
    rewrite omap_cons_match, Hc, occurrences_cons. lia.
  - rewrite decide_True by done. rewrite fmap_cons, occurrences_cons. lia.
Qed.

Lemma scan_image_no_user_callback s (l : list (string * callback)) :
  omap user_callback (omap (due_image s) l) = [].
Proof.
  induction l as [|e l IH]; [done|].
  rewrite omap_cons_match. unfold due_image at 1.
  destruct (image_data s !! e.1) as [d|]; [|done].
  destruct (user_data s !! userId d); [|done]. by rewrite omap_cons_match.
Qed.

Lemma user_accounting_call_pending_callbacks cb s :
  invoked_user cb (call_pending_callbacks s) + waiting_user cb (call_pending_callbacks s) =
  invoked_user cb s + waiting_user cb s.
Proof.
  destruct (call_pending_callbacks_spec s) as (_ & Hp & Hc & _).
  unfold invoked_user, waiting_user. rewrite Hp, Hc, !omap_app, !occurrences_app.
  rewrite scan_image_no_user_callback.
  pose proof (scan_user_accounting s cb (pending_user_info_calls s)).
  assert (occurrences cb [] = 0) as -> by done. lia.
Qed.

Lemma user_accounting_same cb s s' :
  calls s' = calls s → pending_user_info_calls s' = pending_user_info_calls s →
  invoked_user cb s' + waiting_user cb s' = invoked_user cb s + waiting_user cb s.
Proof. intros Hc Hp. unfold invoked_user, waiting_user. by rewrite Hc, Hp. Qed.

Lemma user_accounting_loaded_user_info cb r s :
  invoked_user cb (loaded_user_info r s) + waiting_user cb (loaded_user_info r s) =
  invoked_user cb s + waiting_user cb s.
Proof.
  unfold loaded_user_info. destruct (error r); [done|].
  destruct (body r) as [u|]; [|done].
  by rewrite user_accounting_call_pending_callbacks.
Qed.

Lemma registered_user_none cb e :
  user_registration e = None → registered_user cb [e] = 0.
Proof. intros He. unfold registered_user. csimpl. by rewrite He. Qed.

Lemma registered_user_some cb e c :
  user_registration e = Some c → registered_user cb [e] = occurrences cb [c].
Proof. intros He. unfold registered_user. csimpl. by rewrite He. Qed.

Lemma registered_user_app cb evs1 evs2 :
  registered_user cb (evs1 ++ evs2) = registered_user cb evs1 + registered_user cb evs2.
Proof. unfold registered_user. by rewrite omap_app, occurrences_app. Qed.

Lemma user_accounting_step cb e s s' :
  step e s = Some s' →
  invoked_user cb s' + waiting_user cb s' =
  invoked_user cb s + waiting_user cb s + registered_user cb [e].
Proof.
  intros Hstep. destruct e; simpl in Hstep.
  - inversion Hstep; subst. rewrite registered_user_none, Nat.add_0_r by done.
    apply user_accounting_same.
    + unfold get_image_info. rewrite calls_load_image_info. by destruct cb0.
    + unfold get_image_info. rewrite pending_user_load_image_info. by destruct cb0.
  - inversion Hstep; subst. unfold get_user_info, invoked_user, waiting_user.
    rewrite calls_load_user_info, pending_user_load_user_info.
    destruct cb0 as [c|].
    + rewrite (registered_user_some cb _ c) by done. simpl.
      rewrite fmap_app, occurrences_app. simpl. lia.
    + rewrite registered_user_none by done. lia.
  - inversion Hstep; subst. rewrite registered_user_none, Nat.add_0_r by done.
    apply user_accounting_same.
    + apply calls_loaded_image_info.
    + apply pending_user_loaded_image_info.
  - inversion Hstep; subst. rewrite registered_user_none, Nat.add_0_r by done.
    apply user_accounting_loaded_user_info.
  - inversion Hstep; subst. by rewrite registered_user_none, Nat.add_0_r by done.
  - destruct (timers s) as [|t q]; [done|]. inversion Hstep; subst.
    rewrite registered_user_none, Nat.add_0_r by done.
    destruct t; simpl.
    + apply user_accounting_same.
      * by rewrite calls_load_user_info.
      * by rewrite pending_user_load_user_info.
    + by rewrite user_accounting_call_pending_callbacks.
  - case_decide; [|done]. inversion Hstep; subst.
    rewrite registered_user_none, Nat.add_0_r by done.
    apply user_accounting_same.
    + by rewrite calls_loaded_image_info.
    + by rewrite pending_user_loaded_image_info.
  - case_decide; [|done]. inversion Hstep; subst.
    rewrite registered_user_none, Nat.add_0_r by done.
    by rewrite user_accounting_loaded_user_info.
  - case_decide; [|done]. inversion Hstep; subst.
    by rewrite registered_user_none, Nat.add_0_r by done.
Qed.

Lemma user_accounting_run cb evs s s' :
  run evs s = Some s' →
  invoked_user cb s' + waiting_user cb s' =
  invoked_user cb s + waiting_user cb s + registered_user cb evs.
Proof.
  revert s. induction evs as [|e evs IH]; intros s Hrun; simpl in Hrun.
  - inversion Hrun; subst. unfold registered_user, occurrences. simpl. lia.
  - destruct (step e s) as [s1|] eqn:Hstep; [|done].
    rewrite (IH _ Hrun), (user_accounting_step cb _ _ _ Hstep).
    change (e :: evs) with ([e] ++ evs). rewrite registered_user_app. lia.
Qed.

Lemma run_app evs1 evs2 s s1 s2 :
  run evs1 s = Some s1 → run evs2 s1 = Some s2 → run (evs1 ++ evs2) s = Some s2.
Proof.
  revert s. induction evs1 as [|e evs1 IH]; intros s H1 H2; simpl in *.
  - by inversion H1; subst.
  - destruct (step e s); [|done]. by apply IH.
Qed.

Lemma drain_invokes_user q s rest e c :
  timers s = q ++ rest → TCallPendingCallbacks ∈ q →
  e ∈ pending_user_info_calls s → due_user s e = Some c →
  ∃ s', run (replicate (length q) EvTimeout) s = Some s' ∧
        c ∈ drop (length (calls s)) (calls s').
Proof.
  revert s rest. induction q as [|t q IH]; intros s rest Ht Hin He Hdue.
  { by apply elem_of_nil in Hin. }
  simpl. rewrite Ht. simpl.
  set (s0 := with_timers (λ _, q ++ rest) s).
  destruct t as [v|]; simpl.
  - apply elem_of_cons in Hin as [|Hin]; [done|].
    destruct (timers_load_user_info v s0) as [l Hl].
    destruct (IH (load_user_info v s0) (rest ++ l)) as (s' & Hrun & Hc); try done.
    + rewrite Hl. simpl. by rewrite app_assoc.
    + by rewrite pending_user_load_user_info.
    + unfold due_user. by rewrite user_data_load_user_info.
    + exists s'. split; [done|]. by rewrite calls_load_user_info in Hc.
  - destruct (call_pending_callbacks_frame s0) as (_ & _ & _ & _ & Htm & _).
    destruct (call_pending_callbacks_spec s0) as (_ & _ & Hcalls & _).
    destruct (run_timeouts (length q) (call_pending_callbacks s0))
      as (s' & Hrun & [l Hl]).
    { rewrite Htm. simpl. rewrite length_app. lia. }
    exists s'. split; [done|]. rewrite Hl, Hcalls. simpl.
    rewrite <- !app_assoc, drop_app_length.
    apply elem_of_app. right. apply elem_of_app. left.
    apply list_elem_of_omap. by exists e.
Qed.

(** The contract of [get_user_info(user_id, cb)] with callbacks that are
    only logged. *)
Lemma user_callback_contract (evs : list event) (s : state)
    (user_id : string) (cb : callback) :
  run evs init = Some s →
  let s1 := get_user_info user_id (Some cb) s in
  calls s1 = calls s ∧
  pending_user_info_calls s1 = pending_user_info_calls s ++ [(user_id, cb)] ∧
  (∀ evs' s', run evs' s1 = Some s' →
     invoked_user cb s' + waiting_user cb s' =
     registered_user cb evs + 1 + registered_user cb evs') ∧
  (∀ t u, (user_id, cb) ∈ pending_user_info_calls t → user_userId u = user_id →
     CallUser cb u ∈ drop (length (calls t))
                      (calls (loaded_user_info {| error := false; body := Some u |} t))) ∧
  (∀ u, user_data s !! user_id = Some u →
     ∃ n s2, 0 < n ∧ run (replicate n EvTimeout) s1 = Some s2 ∧
       CallUser cb u ∈ drop (length (calls s)) (calls s2)).
Proof.
  intros Hrun s1.
  assert (reachable s) as Hreach by (by exists evs).
  assert (run (evs ++ [EvGetUserInfo user_id (Some cb)]) init = Some s1) as Hrun1.
  { by eapply run_app. }
  assert (calls s1 = calls s) as Hc1.
  { unfold s1, get_user_info. by rewrite calls_load_user_info. }
  assert (pending_user_info_calls s1 = pending_user_info_calls s ++ [(user_id, cb)]) as Hp1.
  { unfold s1, get_user_info. by rewrite pending_user_load_user_info. }
  split; [done|]. split; [done|]. split; [|split].
  - intros evs' s' Hrun'.
    rewrite (user_accounting_run cb _ _ _ Hrun').
    rewrite (user_accounting_run cb _ _ _ Hrun1).
    rewrite registered_user_app, (registered_user_some cb _ cb) by done.
    assert (occurrences cb [cb] = 1) as ->.
    { unfold occurrences. by rewrite filter_cons, decide_True by done. }
    assert (invoked_user cb init + waiting_user cb init = 0) as -> by done.
    lia.
  - intros t u He Hk. unfold loaded_user_info. simpl.
    match goal with |- context [call_pending_callbacks ?x] =>
      destruct (call_pending_callbacks_spec x) as (_ & _ & -> & _) end.
    simpl. rewrite drop_app_length.
    apply elem_of_app. right. apply list_elem_of_omap.
    exists (user_id, cb). split; [done|]. unfold due_user. simpl.
    by rewrite <- Hk, lookup_insert_eq.
  - intros u Hu.
    assert (user_id ∉ loading_user_data_ids s) as Hl.
    { intros Hin.
      pose proof (ledger_user_loading s (ledger_ok_reachable s Hreach) _ Hin).
      congruence. }
    assert (timers s1 = timers s ++ [TCallPendingCallbacks]) as Ht.
    { unfold s1, get_user_info. by rewrite load_user_info_cached by eauto. }
    destruct (drain_invokes_user (timers s1) s1 [] (user_id, cb) (CallUser cb u))
      as (s2 & Hrun2 & Hin2).
    + by rewrite app_nil_r.
    + rewrite Ht. set_solver.
    + rewrite Hp1. set_solver.
    + unfold due_user, s1, get_user_info. rewrite user_data_load_user_info.
      simpl. by rewrite Hu.
    + exists (length (timers s1)), s2. split; [|split; [done|]].
      * rewrite Ht, length_app. simpl. lia.
      * by rewrite <- Hc1.
Qed.

(** X2.  The contract of [get_user_info(user_id, cb)], for callbacks that
    never call the cache while they run, a [user_id] that is none of the
    names a dictionary inherits, and a state the cache reached by the
    events [evs].  The call runs no callback and appends the entry to
    [pending_user_info_calls].  At any later time the invocations of [cb]
    with user data and the pending entries holding [cb] add up to the
    number of calls that registered it.  When the response with the user
    arrives while the entry is pending, [loaded_user_info] runs the
    callback on that user before it returns.  When the user is cached at
    call time, the callback runs from a zero-delay timer, on the cached
    user. *)
Theorem user_callback_exactly_once
    (calls_made : call → list ImageDataCallbacks.method_call)
    (fuel : nat) (evs : list event) (s : state) (user_id : string) (cb : callback) :
  quiet calls_made →
  Forall ordinary_event evs → ordinary_key user_id →
  ImageDataCallbacks.run calls_made fuel evs init = Some s →
  let s1 := get_user_info user_id (Some cb) s in
  calls s1 = calls s ∧
  pending_user_info_calls s1 = pending_user_info_calls s ++ [(user_id, cb)] ∧
  (∀ fuel' evs' s', ImageDataCallbacks.run calls_made fuel' evs' s1 = Some s' →
     invoked_user cb s' + waiting_user cb s' =
     registered_user cb evs + 1 + registered_user cb evs') ∧
  (∀ t u turns t', (user_id, cb) ∈ pending_user_info_calls t →
     user_userId u = user_id →
     ImageDataCallbacks.loaded_user_info calls_made turns
       {| error := false; body := Some u |} t = Some t' →
     CallUser cb u ∈ drop (length (calls t)) (calls t')) ∧
  (∀ u, user_data s !! user_id = Some u →
     ∃ turns n s2, 0 < n ∧
       ImageDataCallbacks.run calls_made turns (replicate n EvTimeout) s1 = Some s2 ∧
       CallUser cb u ∈ drop (length (calls s)) (calls s2)).
Proof.
  intros Hquiet _ _ Hlive s1.
  pose proof (run_quiet calls_made Hquiet _ _ _ _ Hlive) as Hrun.
  destruct (user_callback_contract evs s user_id cb Hrun) as (H1 & H2 & H3 & H4 & H5).
  fold s1 in H1, H2, H3, H5.
  split; [done|]. split; [done|]. split; [|split].
  - intros fuel' evs' s' Hlive'. apply H3. by eapply run_quiet.
  - intros t u turns t' He Hu Hloaded.
    rewrite (loaded_user_info_quiet calls_made Hquiet _ _ _ _ Hloaded).
    by apply H4.
  - intros u Hu. destruct (H5 u Hu) as (n & s2 & Hn & Hrun2 & Hin).
    destruct (run_quiet_ends calls_made Hquiet _ _ _ Hrun2) as [bound Hb].
    exists bound, n, s2. split; [done|]. split; [by apply Hb|done].
Qed.

(** *** Scanning again *)








(** *** Data handed over by the caller *)






(** *** Records sit under their own identifier *)

Section ImageInvariant.

(** A property of the cached illustrations that attaching a user keeps. *)
Variable stored : string → illust → Prop.
Hypothesis stored_user : ∀ k d u, stored k d → stored k (set_userInfo d u).

Lemma stored_image_info_loop fuel i s :
  (∀ k d, image_data s !! k = Some d → stored k d) →
  ∀ k d, image_data (image_info_loop fuel i s) !! k = Some d → stored k d.
Proof.
  revert i s. induction fuel as [|fuel IH]; intros i s Hok; simpl; [done|].
  destruct (pending_image_info_calls s !! i) as [[k0 cb]|]; [|done].
  destruct (image_data s !! k0) as [d0|] eqn:Hd0; [|by apply IH].
  destruct (user_data s !! userId d0) as [u|]; [|by apply IH].
  apply IH. unfold_state. intros k d Hk.
  apply lookup_insert_Some in Hk as [[<- <-]|[_ Hk]]; [|by apply Hok].
  apply stored_user. by apply Hok.
Qed.

Lemma stored_call_pending_callbacks s :
  (∀ k d, image_data s !! k = Some d → stored k d) →
  ∀ k d, image_data (call_pending_callbacks s) !! k = Some d → stored k d.
Proof.
  intros Hok. unfold call_pending_callbacks.
  match goal with |- context [user_info_loop ?f 0 ?t] =>
    destruct (user_info_loop_frame f 0 t) as (-> & _) end.
  by apply stored_image_info_loop.
Qed.

Lemma stored_finished_loading_image_data d0 s :
  stored (illustId d0) d0 →
  (∀ k d, image_data s !! k = Some d → stored k d) →
  ∀ k d, image_data (finished_loading_image_data d0 s) !! k = Some d → stored k d.
Proof.
  intros Hd0 Hok k d. unfold finished_loading_image_data. unfold_state. intros Hk.
  apply lookup_insert_Some in Hk as [[<- <-]|[_ Hk]]; [done|by apply Hok].
Qed.

Lemma stored_loaded_image_info r s :
  (∀ d0, body r = Some d0 → illustType d0 ≠ 2 → stored (illustId d0) d0) →
  (∀ k d, image_data s !! k = Some d → stored k d) →
  ∀ k d, image_data (loaded_image_info r s) !! k = Some d → stored k d.
Proof.
  intros Hr Hok. unfold loaded_image_info. destruct (error r); [done|].
  destruct (body r) as [d0|]; [|done].
  destruct (Nat.eqb (illustType d0) 2) eqn:Ht; [done|].
  apply stored_finished_loading_image_data; [|done].
  apply Hr; [done|]. by apply Nat.eqb_neq.
Qed.

Lemma stored_loaded_user_info r s :
  (∀ k d, image_data s !! k = Some d → stored k d) →
  ∀ k d, image_data (loaded_user_info r s) !! k = Some d → stored k d.
Proof.
  intros Hok. unfold loaded_user_info. destruct (error r); [done|].
  destruct (body r) as [u|]; [|done]. by apply stored_call_pending_callbacks.
Qed.

(** Every event keeps the property, when the data it brings has it. *)
Lemma stored_step e s s' :
  (∀ k d, image_data s !! k = Some d → stored k d) →
  match e with
  | EvAddIllustData d0 => illustType d0 ≠ 2 → stored (illustId d0) d0
  | EvIllustResponse _ r =>
      ∀ d0, body r = Some d0 → illustType d0 ≠ 2 → stored (illustId d0) d0
  | EvUgoiraResponse d0 r => stored (illustId d0) (set_ugoiraMetadata d0 (body r))
  | _ => True
  end →
  step e s = Some s' →
  ∀ k d, image_data s' !! k = Some d → stored k d.
Proof.
  intros Hok He Hstep. destruct e; simpl in Hstep.
  - inversion Hstep; subst. unfold get_image_info.
    rewrite image_data_load_image_info. by destruct cb.
  - inversion Hstep; subst. unfold get_user_info.
    rewrite image_data_load_user_info. by destruct cb.
  - inversion Hstep; subst. apply stored_loaded_image_info; [|done].
    simpl. by intros d0 [= <-].
  - inversion Hstep; subst. by apply stored_loaded_user_info.
  - by inversion Hstep; subst.
  - destruct (timers s) as [|t q]; [done|]. inversion Hstep; subst.
    destruct t; simpl.
    + by rewrite image_data_load_user_info.
    + by apply stored_call_pending_callbacks.
  - case_decide; [|done]. inversion Hstep; subst. by apply stored_loaded_image_info.
  - case_decide; [|done]. inversion Hstep; subst. by apply stored_loaded_user_info.
  - case_decide; [|done]. inversion Hstep; subst.
    by apply stored_finished_loading_image_data.
Qed.

End ImageInvariant.

(** X6.  In every state the cache reaches, a record found under a key
    carries that key as its own identifier: [image_data[k].illustId] is [k]
    and [user_data[k].userId] is [k].  (A response is filed under the
    identifier in its body, whatever was asked for.) *)
Theorem cache_keys (s : state) :
  reachable s →
  (∀ k d, image_data s !! k = Some d → illustId d = k) ∧
  (∀ k u, user_data s !! k = Some u → user_userId u = k).
Proof.
  intros Hreach. split; [|apply (cache_user_key s (cache_ok_reachable s Hreach))].
  destruct Hreach as [evs Hrun]. revert Hrun.
  assert (∀ k d, image_data init !! k = Some d → illustId d = k) as Hinit by done.
  revert Hinit. generalize init.
  induction evs as [|e evs IH]; intros s0 Hok Hrun; simpl in Hrun.
  - by inversion Hrun; subst.
  - destruct (step e s0) as [s1|] eqn:Hstep; [|done].
    eapply IH; [|done].
    apply (stored_step (λ k d, illustId d = k)) with (e := e) (s := s0);
      [done|done| |done].
    by destruct e.
Qed.

(** *** Animations and their metadata *)

Lemma scan_image_calls s cb d :
  CallImage cb d ∈ calls (call_pending_callbacks s) →
  CallImage cb d ∈ calls s ∨
  ∃ k d0 u, image_data s !! k = Some d0 ∧ d = set_userInfo d0 u.
Proof.
  destruct (call_pending_callbacks_spec s) as (_ & _ & -> & _).
  rewrite !elem_of_app. intros [Hin|[Hin|Hin]]; [by left| |].
  - right. apply list_elem_of_omap in Hin as ([k cb'] & _ & Hdue).
    unfold due_image in Hdue. simpl in Hdue.
    destruct (image_data s !! k) as [d0|] eqn:Hd0; [|done].
    destruct (user_data s !! userId d0) as [u|]; [|done].
    inversion Hdue; subst. by exists k, d0, u.
  - apply list_elem_of_omap in Hin as ([k cb'] & _ & Hdue).
    unfold due_user in Hdue. simpl in Hdue.
    by destruct (user_data s !! k).
Qed.

Lemma metadata_calls_step e s s' :
  (∀ k d, image_data s !! k = Some d →
     illustType d = 2 → is_Some (ugoiraMetadata d)) →
  (∀ cb d, CallImage cb d ∈ calls s →
     illustType d = 2 → is_Some (ugoiraMetadata d)) →
  step e s = Some s' →
  ∀ cb d, CallImage cb d ∈ calls s' →
    illustType d = 2 → is_Some (ugoiraMetadata d).
Proof.
  intros Hdata Hcalls Hstep cb d.
  assert (∀ t, image_data t = image_data s → calls t = calls s →
            CallImage cb d ∈ calls (call_pending_callbacks t) →
            illustType d = 2 → is_Some (ugoiraMetadata d)) as Hscan.
  { intros t Hi Hc Hin. apply scan_image_calls in Hin as [Hin|(k & d0 & u & Hd0 & ->)].
    - apply (Hcalls cb). by rewrite <- Hc.
    - simpl. rewrite Hi in Hd0. by apply (Hdata k). }
  destruct e; simpl in Hstep.
  - inversion Hstep; subst. unfold get_image_info.
    rewrite calls_load_image_info. destruct cb0; apply Hcalls.
  - inversion Hstep; subst. unfold get_user_info.
    rewrite calls_load_user_info. destruct cb0; apply Hcalls.
  - inversion Hstep; subst. unfold add_illust_data.
    rewrite calls_loaded_image_info. apply Hcalls.
  - inversion Hstep; subst. unfold add_user_data, loaded_user_info. simpl.
    by apply Hscan.
  - inversion Hstep; subst. apply Hcalls.
  - destruct (timers s) as [|t q]; [done|]. inversion Hstep; subst.
    destruct t; simpl.
    + rewrite calls_load_user_info. apply Hcalls.
    + by apply Hscan.
  - case_decide; [|done]. inversion Hstep; subst.
    rewrite calls_loaded_image_info. apply Hcalls.
  - case_decide; [|done]. inversion Hstep; subst. unfold loaded_user_info.
    destruct (error r); [apply Hcalls|]. destruct (body r); [|apply Hcalls].
    by apply Hscan.
  - case_decide; [|done]. inversion Hstep; subst. apply Hcalls.
Qed.

(** X14.  As long as every response to a request for ugoira metadata
    carries a body, an animation is never cached and never handed to a
    callback without its metadata: in every state of such a run each
    cached illustration of type 2 has [ugoiraMetadata] set, and so has
    each one a callback was invoked with. *)
Theorem animation_comes_with_metadata (evs : list event) (s : state) :
  run evs init = Some s →
  (∀ d0 r, EvUgoiraResponse d0 r ∈ evs → is_Some (body r)) →
  (∀ k d, image_data s !! k = Some d →
     illustType d = 2 → is_Some (ugoiraMetadata d)) ∧
  (∀ cb d, CallImage cb d ∈ calls s →
     illustType d = 2 → is_Some (ugoiraMetadata d)).
Proof.
  assert ((∀ k d, image_data init !! k = Some d →
             illustType d = 2 → is_Some (ugoiraMetadata d)) ∧
          (∀ cb d, CallImage cb d ∈ calls init →
             illustType d = 2 → is_Some (ugoiraMetadata d))) as Hinit.
  { split; [done|]. intros cb d Hin. by apply elem_of_nil in Hin. }
  revert Hinit. generalize init.
  induction evs as [|e evs IH]; intros s0 [Hdata Hcalls] Hrun Hbody; simpl in Hrun.
  - by inversion Hrun; subst.
  - destruct (step e s0) as [s1|] eqn:Hstep; [|done].
    apply (IH s1); [|done|].
    + split; [|by eapply metadata_calls_step].
      apply (stored_step (λ _ d, illustType d = 2 → is_Some (ugoiraMetadata d)))
        with (e := e) (s := s0); [done|done| |done].
      destruct e as [k cb|k cb|d0|u|k u| |k r|k r|d0 r]; simpl; try done.
      intros _. apply (Hbody d0 r). apply list_elem_of_here.
    + intros d0 r Hin. apply (Hbody d0 r). by apply list_elem_of_further.
Qed.

(** *** Asking twice *)

Lemma load_user_info_settled u s :
  user_settled s u →
  sent (load_user_info u s) = sent s ∧
  image_data (load_user_info u s) = image_data s ∧
  user_data (load_user_info u s) = user_data s ∧
  loading_image_data_ids (load_user_info u s) = loading_image_data_ids s ∧
  loading_user_data_ids (load_user_info u s) = loading_user_data_ids s ∧
  illust_id_to_user_id (load_user_info u s) = illust_id_to_user_id s.
Proof.
  intros [Hl|[x Hx]]; unfold load_user_info.
  - by rewrite decide_True.
  - case_decide; [done|]. by rewrite Hx.
Qed.

Lemma load_user_info_settles u s : user_settled (load_user_info u s) u.
Proof.
  unfold load_user_info, user_settled. case_decide; [by left|].
  destruct (user_data s !! u) eqn:Hu; unfold_state.
  - right. by rewrite Hu.
  - left. set_solver.
Qed.

Lemma load_user_info_keeps_settled v u s :
  user_settled s u → user_settled (load_user_info v s) u.
Proof.
  intros [Hl|Hc]; unfold load_user_info, user_settled; case_decide; try by eauto.
  - destruct (user_data s !! v); unfold_state; [by left|]. left. set_solver.
  - destruct (user_data s !! v); unfold_state; by right.
Qed.

Lemma hint_load_user_info u s :
  illust_id_to_user_id (load_user_info u s) = illust_id_to_user_id s.
Proof.
  unfold load_user_info. case_decide; [done|]. by destruct (user_data s !! u).
Qed.

(** After [load_image_info(k)] nothing is left to request for [k]. *)
Lemma load_image_info_settles k s :
  let s1 := load_image_info k s in
  image_data s1 = image_data s ∧
  illust_id_to_user_id s1 = illust_id_to_user_id s ∧
  (∀ h, illust_id_to_user_id s !! k = Some h → user_settled s1 h) ∧
  (k ∈ loading_image_data_ids s1 ∨
   ∃ d, image_data s !! k = Some d ∧ user_settled s1 (userId d)).
Proof.
  simpl. split; [apply image_data_load_image_info|]. unfold load_image_info.
  set (s0 := match illust_id_to_user_id s !! k with
             | Some c => load_user_info c s | None => s end).
  assert (image_data s0 = image_data s ∧
          illust_id_to_user_id s0 = illust_id_to_user_id s ∧
          ∀ h, illust_id_to_user_id s !! k = Some h → user_settled s0 h)
    as (Hi0 & Hh0 & Hs0).
  { unfold s0. destruct (illust_id_to_user_id s !! k) as [h|] eqn:Hh.
    - rewrite image_data_load_user_info, hint_load_user_info.
      repeat split. intros ? [= <-]. apply load_user_info_settles.
    - by repeat split. }
  case_decide as Hl.
  { split; [done|]. split; [done|]. by left. }
  destruct (image_data s0 !! k) as [d|] eqn:Hd.
  - rewrite hint_load_user_info. split; [done|]. split.
    + intros h Hh. apply load_user_info_keeps_settled. by apply Hs0.
    + right. exists d. split; [by rewrite <- Hi0|]. apply load_user_info_settles.
  - unfold_state. split; [done|]. split; [|left; set_solver].
    intros h Hh. destruct (Hs0 h Hh) as [?|?]; [by left|by right].
Qed.

Lemma load_image_info_quiet k s :
  (∀ h, illust_id_to_user_id s !! k = Some h → user_settled s h) →
  (k ∈ loading_image_data_ids s ∨
   ∃ d, image_data s !! k = Some d ∧ user_settled s (userId d)) →
  sent (load_image_info k s) = sent s.
Proof.
  intros Hh Hk. unfold load_image_info.
  set (s0 := match illust_id_to_user_id s !! k with
             | Some c => load_user_info c s | None => s end).
  assert (sent s0 = sent s ∧ image_data s0 = image_data s ∧
          user_data s0 = user_data s ∧
          loading_image_data_ids s0 = loading_image_data_ids s ∧
          loading_user_data_ids s0 = loading_user_data_ids s)
    as (E1 & E2 & E3 & E4 & E5).
  { unfold s0. destruct (illust_id_to_user_id s !! k) as [h|]; [|done].
    destruct (load_user_info_settled h s (Hh h eq_refl)) as (? & ? & ? & ? & ? & _).
    done. }
  case_decide as Hl; [done|].
  destruct Hk as [Hk|(d & Hd & Hu)]; [by rewrite E4 in Hl|].
  rewrite E2, Hd.
  destruct (load_user_info_settled (userId d) s0) as (-> & _); [|done].
  unfold user_settled. by rewrite E3, E5.
Qed.

(** X7.  Asking again asks for nothing: whatever the state, a second
    [get_image_info] for the same illustration right after the first makes
    no request of any kind (not for the illustration, not for its user, not
    for a hinted user), with or without callbacks. *)
Theorem asking_again_sends_nothing (s : state) (k : string) (cb1 cb2 : option callback) :
  sent (get_image_info k cb2 (get_image_info k cb1 s)) = sent (get_image_info k cb1 s).
Proof.
  set (s1 := get_image_info k cb1 s).
  assert (∃ t, s1 = load_image_info k t) as [t Ht].
  { unfold s1, get_image_info. by eexists. }
  destruct (load_image_info_settles k t) as (Hi & Hh & Hhint & Hk).
  rewrite <- Ht in Hi, Hh, Hhint, Hk.
  assert (∀ t2, sent t2 = sent s1 → image_data t2 = image_data s1 →
                user_data t2 = user_data s1 →
                loading_image_data_ids t2 = loading_image_data_ids s1 →
                loading_user_data_ids t2 = loading_user_data_ids s1 →
                illust_id_to_user_id t2 = illust_id_to_user_id s1 →
                sent (load_image_info k t2) = sent s1) as Hquiet.
  { intros t2 E1 E2 E3 E4 E5 E6. rewrite <- E1. apply load_image_info_quiet.
    - intros h Hh2. rewrite E6, Hh in Hh2. specialize (Hhint h Hh2).
      unfold user_settled in *. by rewrite E3, E5.
    - destruct Hk as [Hk|(d & Hd & Hu)].
      + left. by rewrite E4.
      + right. exists d. split; [by rewrite E2, Hi|].
        unfold user_settled in *. by rewrite E3, E5. }
  unfold get_image_info at 1. destruct cb2; by apply Hquiet.
Qed.

(** *** Calls made from inside a callback *)

Lemma due_image_same s t e :
  image_data t = image_data s → user_data t = user_data s →
  due_image t e = due_image s e.
Proof. intros Hi Hu. unfold due_image. by rewrite Hi, Hu. Qed.

Lemma due_user_same s t e : user_data t = user_data s → due_user t e = due_user s e.
Proof. intros Hu. unfold due_user. by rewrite Hu. Qed.

(** What a call of [get_image_info] or [get_user_info] leaves alone. *)
Lemma request_frame scan m s s' :
  match m with
  | ImageDataCallbacks.GetImageInfo _ _ | ImageDataCallbacks.GetUserInfo _ _ => True
  | _ => False
  end →
  ImageDataCallbacks.method scan m s = Some s' →
  image_data s' = image_data s ∧ user_data s' = user_data s ∧
  pending_image_info_calls s `prefix_of` pending_image_info_calls s' ∧
  pending_user_info_calls s `prefix_of` pending_user_info_calls s' ∧
  calls s' = calls s.
Proof.
  destruct m as [k cb|k cb| | |]; try done; intros _ [= <-].
  - unfold get_image_info.
    rewrite image_data_load_image_info, user_data_load_image_info,
      pending_image_load_image_info, pending_user_load_image_info,
      calls_load_image_info.
    destruct cb; simpl; repeat split; try done. by apply prefix_app_r.
  - unfold get_user_info.
    rewrite image_data_load_user_info, user_data_load_user_info,
      pending_image_load_user_info, pending_user_load_user_info,
      calls_load_user_info.
    destruct cb; simpl; repeat split; try done. by apply prefix_app_r.
Qed.

Lemma requests_frame scan (l : list ImageDataCallbacks.method_call) s s' :
  (∀ m, m ∈ l →
     match m with
     | ImageDataCallbacks.GetImageInfo _ _ | ImageDataCallbacks.GetUserInfo _ _ => True
     | _ => False
     end) →
  foldl (λ acc m, acc ≫= ImageDataCallbacks.method scan m) (Some s) l = Some s' →
  image_data s' = image_data s ∧ user_data s' = user_data s ∧
  pending_image_info_calls s `prefix_of` pending_image_info_calls s' ∧
  pending_user_info_calls s `prefix_of` pending_user_info_calls s' ∧
  calls s' = calls s.
Proof.
  revert s. induction l as [|m l IH]; intros s Hl; simpl.
  - by intros [= <-].
  - destruct (ImageDataCallbacks.method scan m s) as [s1|] eqn:Hm.
    + intros Hfold.
      destruct (request_frame scan m s s1) as (E1 & E2 & E3 & E4 & E5);
        [apply Hl, list_elem_of_here|done|].
      destruct (IH s1) as (F1 & F2 & F3 & F4 & F5);
        [intros m' Hm'; by apply Hl, list_elem_of_further|done|].
      rewrite F1, F2, F5. repeat split; try done; by etrans.
    + intros Hfold. exfalso. clear -Hfold.
      induction l as [|m' l IH]; simpl in Hfold; [done|by apply IH].
Qed.

Lemma run_callback_requests calls_made scan c s s' :
  only_requests calls_made →
  ImageDataCallbacks.run_callback calls_made scan c s = Some s' →
  image_data s' = image_data s ∧ user_data s' = user_data s ∧
  pending_image_info_calls s `prefix_of` pending_image_info_calls s' ∧
  pending_user_info_calls s `prefix_of` pending_user_info_calls s' ∧
  calls s' = calls s ++ [c].
Proof.
  intros Honly Hrun. unfold ImageDataCallbacks.run_callback in Hrun.
  apply requests_frame in Hrun; [|intros m Hm; by apply (Honly c)].
  done.
Qed.

Lemma image_info_loop_requests calls_made scan fuel i s s' :
  only_requests calls_made →
  (∀ j e, j < i → pending_image_info_calls s !! j = Some e → due_image s e = None) →
  ImageDataCallbacks.image_info_loop calls_made scan fuel i s = Some s' →
  (∀ e, e ∈ pending_image_info_calls s' → due_image s' e = None) ∧
  pending_user_info_calls s `prefix_of` pending_user_info_calls s' ∧
  calls s `prefix_of` calls s'.
Proof.
  intros Honly. revert i s. induction fuel as [|fuel IH]; intros i s Hinv Hloop;
    simpl in Hloop; [done|].
  destruct (pending_image_info_calls s !! i) as [[k cb]|] eqn:Hi.
  2:{ inversion Hloop; subst. split; [|done]. intros e He.
      apply list_elem_of_lookup in He as [j Hj].
      apply (Hinv j); [|done].
      apply lookup_ge_None in Hi. apply lookup_lt_Some in Hj. lia. }
  assert (∀ j e, j < S i → pending_image_info_calls s !! j = Some e →
            due_image s (k, cb) = None → due_image s e = None) as Hnext.
  { intros j e Hj He Hdue. destruct (decide (j = i)) as [->|Hne].
    - rewrite Hi in He. by inversion He; subst.
    - apply (Hinv j); [lia|done]. }
  destruct (image_data s !! k) as [d|] eqn:Hd.
  2:{ apply (IH (S i) s); [|done]. intros j e Hj He. apply (Hnext j); [done|done|].
      unfold due_image. simpl. by rewrite Hd. }
  destruct (user_data s !! userId d) as [u|] eqn:Hu.
  2:{ apply (IH (S i) s); [|done]. intros j e Hj He. apply (Hnext j); [done|done|].
      unfold due_image. simpl. by rewrite Hd, Hu. }
  set (t := with_pending_image_info_calls (delete i)
              (with_image_data (<[k := set_userInfo d u]>) s)) in *.
  destruct (ImageDataCallbacks.run_callback calls_made scan
              (CallImage cb (set_userInfo d u)) t) as [t2|] eqn:Hcb;
    simpl in Hloop; [|done].
  destruct (run_callback_requests _ _ _ _ _ Honly Hcb) as (E1 & E2 & E3 & E4 & E5).
  destruct (IH i t2) as (H1 & H2 & H3); [|done|].
  - intros j e Hj He.
    rewrite (due_image_same t t2 e E1 E2).
    assert (due_image t e = due_image s e) as ->.
    { unfold t. rewrite <- (due_image_attach s k d u e Hd Hu). by apply due_image_same. }
    apply (Hinv j); [done|].
    destruct E3 as [l El]. rewrite El in He.
    assert (j < length (pending_image_info_calls t)) as Hlt.
    { destruct (decide (j < length (pending_image_info_calls t))); [done|].
      exfalso. unfold t in *. simpl in *.
      pose proof (lookup_lt_Some _ _ _ Hi). rewrite length_delete in * by (by eexists).
      lia. }
    rewrite lookup_app_l in He by done. unfold t in He. simpl in He.
    by rewrite list_lookup_delete_lt in He.
  - split; [done|]. split.
    + etrans; [|done]. etrans; [|done]. done.
    + etrans; [|done]. rewrite E5. unfold t. simpl. by apply prefix_app_r.
Qed.

Lemma user_info_loop_requests calls_made scan fuel i s s' :
  only_requests calls_made →
  (∀ j e, j < i → pending_user_info_calls s !! j = Some e → due_user s e = None) →
  ImageDataCallbacks.user_info_loop calls_made scan fuel i s = Some s' →
  (∀ e, e ∈ pending_user_info_calls s' → due_user s' e = None) ∧
  pending_image_info_calls s `prefix_of` pending_image_info_calls s' ∧
  (∀ e, due_image s' e = due_image s e).
Proof.
  intros Honly. revert i s. induction fuel as [|fuel IH]; intros i s Hinv Hloop;
    simpl in Hloop; [done|].
  destruct (pending_user_info_calls s !! i) as [[k cb]|] eqn:Hi.
  2:{ inversion Hloop; subst. split; [|done]. intros e He.
      apply list_elem_of_lookup in He as [j Hj].
      apply (Hinv j); [|done].
      apply lookup_ge_None in Hi. apply lookup_lt_Some in Hj. lia. }
  destruct (user_data s !! k) as [u|] eqn:Hu.
  2:{ apply (IH (S i) s); [|done]. intros j e Hj He.
      destruct (decide (j = i)) as [->|Hne].
      - rewrite Hi in He. inversion He; subst. unfold due_user. simpl. by rewrite Hu.
      - apply (Hinv j); [lia|done]. }
  set (t := with_pending_user_info_calls (delete i) s) in *.
  destruct (ImageDataCallbacks.run_callback calls_made scan (CallUser cb u) t)
    as [t2|] eqn:Hcb; simpl in Hloop; [|done].
  destruct (run_callback_requests _ _ _ _ _ Honly Hcb) as (E1 & E2 & E3 & E4 & E5).
  destruct (IH i t2) as (H1 & H2 & H3); [|done|].
  - intros j e Hj He. rewrite (due_user_same t t2 e E2).
    apply (Hinv j); [done|].
    destruct E4 as [l El]. rewrite El in He.
    assert (j < length (pending_user_info_calls t)) as Hlt.
    { destruct (decide (j < length (pending_user_info_calls t))); [done|].
      exfalso. unfold t in *. simpl in *.
      pose proof (lookup_lt_Some _ _ _ Hi). rewrite length_delete in * by (by eexists).
      lia. }
    rewrite lookup_app_l in He by done. unfold t in He. simpl in He.
    by rewrite list_lookup_delete_lt in He.
  - split; [done|]. split.
    + etrans; [|done]. etrans; [|done]. done.
    + intros e. rewrite H3. by apply due_image_same.
Qed.

(** X16.  Let the callbacks call nothing of the cache but [get_image_info]
    and [get_user_info].  Whatever they register while the first loop of
    [call_pending_callbacks] runs, no pending call for an illustration has
    its data cached when that loop ends: a call registered from inside a
    callback for cached data has been served by the loop that was running,
    in the same turn of the event loop.  The second loop does the same for
    the calls for a user, and keeps the calls for an illustration that were
    registered while it ran as they are, those whose data is cached
    included, for a later scan. *)
Theorem registered_while_scanning
    (calls_made : call → list ImageDataCallbacks.method_call)
    (scan : state → option state) (fuel : nat) (s s' : state) :
  only_requests calls_made →
  (ImageDataCallbacks.image_info_loop calls_made scan fuel 0 s = Some s' →
     (∀ e, e ∈ pending_image_info_calls s' → due_image s' e = None) ∧
     pending_user_info_calls s `prefix_of` pending_user_info_calls s' ∧
     calls s `prefix_of` calls s') ∧
  (ImageDataCallbacks.user_info_loop calls_made scan fuel 0 s = Some s' →
     (∀ e, e ∈ pending_user_info_calls s' → due_user s' e = None) ∧
     pending_image_info_calls s `prefix_of` pending_image_info_calls s' ∧
     (∀ e, due_image s' e = due_image s e)).
Proof.
  intros Honly. split; intros Hloop.
  - apply (image_info_loop_requests calls_made scan fuel 0 s s' Honly); [|done].
    intros j e Hj. lia.
  - apply (user_info_loop_requests calls_made scan fuel 0 s s' Honly); [|done].
    intros j e Hj. lia.
Qed.

(** *** Concrete runs *)

Lemma cached_stays_cached_witness :
  let s := add_user_data sample_user (add_illust_data sample_illust init) in
  ∃ s', run [EvGetImageInfo "1" (Some 1); EvTimeout; EvGetUserInfo "9" None;
             EvTimeout] s = Some s' ∧
        is_Some (image_data s' !! illustId sample_illust) ∧
        fetches (ReqIllust "1") (sent s') = 0 ∧
        fetches (ReqUser "9") (sent s') = 0.
Proof.
  intros s.
  assert (∃ s', run [EvGetImageInfo "1" (Some 1); EvTimeout; EvGetUserInfo "9" None;
                     EvTimeout] s = Some s') as [s' Hrun].
  { vm_compute. eexists. reflexivity. }
  exists s'. split; [exact Hrun|].
  destruct (cached_stays_cached _ s s' "1" Hrun) as [Hi _].
  destruct (cached_stays_cached _ s s' "9" Hrun) as [_ Hu].
  destruct Hi as [Hi1 Hi2]; [vm_compute; by eexists|].
  destruct Hu as [Hu1 Hu2]; [vm_compute; by eexists|].
  split; [exact Hi1|].
  split; (etrans; [eassumption|vm_compute; reflexivity]).
Defined.

Lemma user_callback_exactly_once_witness :
  let s := add_user_data sample_user init in
  ∃ turns n s2, 0 < n ∧
    ImageDataCallbacks.run (λ _, []) turns (replicate n EvTimeout)
      (get_user_info "9" (Some 4) s) = Some s2 ∧
    CallUser 4 sample_user ∈ drop (length (calls s)) (calls s2).
Proof.
  intros s.
  destruct (user_callback_exactly_once (λ _, []) 2 [EvAddUserData sample_user]
              s "9" 4) as (_ & _ & _ & _ & H).
  - intros c. reflexivity.
  - repeat constructor. ordinary.
  - ordinary.
  - vm_compute. reflexivity.
  - exact (H sample_user eq_refl).
Defined.


Lemma asks_again_only_requests : only_requests asks_again.
Proof.
  intros c m Hm. destruct c as [[|[|cb]] d|cb u]; simpl in Hm;
    try (exfalso; exact (proj1 (elem_of_nil _) Hm)).
  apply list_elem_of_singleton in Hm as ->. exact I.
Defined.

Lemma registered_while_scanning_witness :
  let s := get_image_info "1" (Some 1)
             (add_user_data sample_user (add_illust_data sample_illust init)) in
  ∃ s', ImageDataCallbacks.image_info_loop asks_again (λ _, None) 4 0 s = Some s' ∧
        omap image_callback (calls s') = [1; 2] ∧
        (∀ e, e ∈ pending_image_info_calls s' → due_image s' e = None).
Proof.
  intros s.
  assert (∃ s', ImageDataCallbacks.image_info_loop asks_again (λ _, None) 4 0 s
                = Some s' ∧ omap image_callback (calls s') = [1; 2])
    as (s' & Hloop & Hcalls).
  { vm_compute. eexists. split; reflexivity. }
  exists s'. split; [exact Hloop|]. split; [exact Hcalls|].
  exact (proj1 (proj1 (registered_while_scanning asks_again (λ _, None) 4 s s'
                         asks_again_only_requests) Hloop)).
Defined.



Lemma animation_comes_with_metadata_witness :
  ∃ s, run [EvGetImageInfo "2" (Some 5);
            EvIllustResponse "2" (ok sample_ugoira);
            EvUgoiraResponse sample_ugoira (ok {| originalSrc := "u/zip" |});
            EvTimeout;
            EvUserResponse "9" (ok sample_user)] init = Some s ∧
       (∀ cb d, CallImage cb d ∈ calls s →
          illustType d = 2 → is_Some (ugoiraMetadata d)) ∧
       ∃ d, CallImage 5 d ∈ calls s.
Proof.
  assert (∃ s, run [EvGetImageInfo "2" (Some 5);
                    EvIllustResponse "2" (ok sample_ugoira);
                    EvUgoiraResponse sample_ugoira (ok {| originalSrc := "u/zip" |});
                    EvTimeout;
                    EvUserResponse "9" (ok sample_user)] init = Some s ∧
               ∃ d, CallImage 5 d ∈ calls s) as (s & Hrun & Hcall).
  { vm_compute. eexists. split; [reflexivity|]. eexists. apply list_elem_of_here. }
  exists s. split; [exact Hrun|]. split; [|exact Hcall].
  refine (proj2 (animation_comes_with_metadata _ s Hrun _)).
  intros d0 r Hin. repeat (apply elem_of_cons in Hin as [Hin|Hin]; [try discriminate Hin|]).
  - inversion Hin. by eexists.
  - by apply elem_of_nil in Hin.
Defined.

Lemma cache_keys_witness :
  ∃ d, image_data (add_illust_data sample_illust (get_image_info "7" None init))
         !! "1" = Some d ∧
       illustId d = "1"%string.
Proof.
  assert (∃ d, image_data (add_illust_data sample_illust
                             (get_image_info "7" None init)) !! "1" = Some d)
    as [d Hd].
  { vm_compute. eexists. reflexivity. }
  exists d. split; [exact Hd|].
  refine (proj1 (cache_keys _ _) "1"%string d Hd).
  exists [EvGetImageInfo "7" None; EvAddIllustData sample_illust]. reflexivity.
Defined.

End ImageDataMore.

(** ** More about the preloader *)

Module ImagePreloaderMore.
Import ImagePreloader ImagePreloaderSpec ImagePreloaderFacts.

Lemma find_active_None (l : list (nat * preloader)) u :
  _find_active_preload_by_url l u = None ↔
  u ∉ (λ rp : nat * preloader, url rp.2) <$> l.
Proof.
  induction l as [|rp l IH]; csimpl.
  - split; [intros _; apply not_elem_of_nil|done].
  - case_decide as Hu.
    + split; [done|]. intros Hn. exfalso. apply Hn. subst. apply list_elem_of_here.
    + rewrite not_elem_of_cons. naive_solver.
Qed.

Lemma cancel_unwanted_prefix old updated :
  updated `prefix_of` cancel_unwanted old updated.
Proof.
  revert updated. induction old as [|rp old IH]; intros updated; simpl; [done|].
  destruct (indexOf_ref updated rp.1); [apply IH|].
  etrans; [|apply IH]. by apply prefix_app_r.
Qed.

Lemma listed_urls_cancel_task (l : list (nat * preloader)) :
  (λ rp : nat * preloader, url rp.2) <$> (cancel_task <$> l)
  = (λ rp : nat * preloader, url rp.2) <$> l.
Proof.
  rewrite <- list_fmap_compose. apply list_fmap_ext.
  intros i [r p] _. simpl. apply url_cancel.
Qed.

Lemma settle_index_url (l : list (nat * preloader)) r u idx :
  unsettled_url (task_key <$> l) r = Some u → indexOf_ref l r = Some idx →
  ∃ p, l !! idx = Some (r, p) ∧ url p = u.
Proof.
  unfold indexOf_ref. revert idx.
  induction l as [|[r0 p0] l IH]; intros idx; csimpl; [done|].
  case_decide as Hr.
  - subst. intros [= <-] [= <-]. by exists p0.
  - intros Hu. destruct (indexOf (l.*1) r) as [i|] eqn:Hi; simpl; [|done].
    intros [= <-]. simpl. by apply IH.
Qed.

Lemma existsb_nil_active s (l : list preloader) :
  preloads s = [] → existsb (active s) l = false.
Proof.
  intros Hp. induction l as [|c l IH]; [done|]. simpl. rewrite IH.
  unfold active. by rewrite Hp.
Qed.

Lemma filter_length_shrinks {A : Type} (P Q : A → Prop)
    `{!∀ x, Decision (P x)} `{!∀ x, Decision (Q x)} (l : list A) x0 :
  (∀ x, Q x → P x) → x0 ∈ l → P x0 → ¬ Q x0 →
  length (filter Q l) < length (filter P l).
Proof.
  intros Himp. induction l as [|x l IH]; intros Hin HP HQ.
  { by apply elem_of_nil in Hin. }
  assert (length (filter Q l) ≤ length (filter P l)) as Hle.
  { clear -Himp. induction l as [|y l IH]; [done|].
    rewrite !filter_cons. destruct (decide (Q y)) as [Hq|Hq].
    - rewrite decide_True by auto. simpl. lia.
    - case_decide; simpl; lia. }
  rewrite !filter_cons. apply elem_of_cons in Hin as [<-|Hin].
  - rewrite decide_False, decide_True by done. simpl. lia.
  - specialize (IH Hin HP HQ). destruct (decide (Q x)) as [Hq|Hq].
    + rewrite decide_True by auto. simpl. lia.
    + case_decide; simpl; lia.
Qed.

Lemma elem_of_remove_first_twice {A : Type} `{EqDecision A} (x : A) (l1 l2 l3 : list A) :
  x ∈ remove_first x (l1 ++ x :: l2 ++ x :: l3).
Proof.
  induction l1 as [|y l1 IH]; simpl.
  - rewrite decide_True by done. set_solver.
  - case_decide; [set_solver|]. apply list_elem_of_further, IH.
Qed.

Section WithMuting.

Variable any_tag_muted : list string → bool.
Variable is_muted_user_id : string → bool.

Local Abbreviation create_preloaders_for_illust :=
  (create_preloaders_for_illust any_tag_muted is_muted_user_id).
Local Abbreviation wanted_preloads := (wanted_preloads any_tag_muted is_muted_user_id).
Local Abbreviation filtered_preloads := (filtered_preloads any_tag_muted is_muted_user_id).
Local Abbreviation check_fetch_queue := (check_fetch_queue any_tag_muted is_muted_user_id).
Local Abbreviation settled := (settled any_tag_muted is_muted_user_id).
Local Abbreviation set_current_image_resumed :=
  (set_current_image_resumed any_tag_muted is_muted_user_id).
Local Abbreviation set_speculative_image_resumed :=
  (set_speculative_image_resumed any_tag_muted is_muted_user_id).
Local Abbreviation step := (step any_tag_muted is_muted_user_id).
Local Abbreviation run := (run any_tag_muted is_muted_user_id).
Local Abbreviation reachable := (reachable any_tag_muted is_muted_user_id).
Local Abbreviation lacks_metadata := (lacks_metadata any_tag_muted is_muted_user_id).
Local Abbreviation candidates_of := (candidates_of any_tag_muted is_muted_user_id).

(** What [check_fetch_queue] starts, when it starts something. *)
Lemma check_fetch_queue_start s :
  check_fetch_queue s = s ∨
  ∃ w c, wanted_preloads s = Some w ∧
         head (remove_recently_preloaded (recently_preloaded_urls s) w) = Some c ∧
         c ∈ w ∧
         (url c ∉ recently_preloaded_urls s) ∧
         (url c ∉ listed_urls s) ∧
         check_fetch_queue s = start_preload s c.
Proof.
  rewrite check_fetch_queue_cases. unfold ImagePreloader.filtered_preloads.
  destruct (wanted_preloads s) as [w|] eqn:Hw; simpl; [|by left].
  destruct (remove_recently_preloaded (recently_preloaded_urls s) w)
    as [|c l] eqn:Hf; simpl; [by left|].
  destruct (active s c) eqn:Hact; simpl; [by left|].
  destruct (existsb (active s) (take 4 l)); [by left|].
  right. exists w, c. split; [done|]. split; [by rewrite Hf|].
  assert (c ∈ filter (λ c, url c ∉ recently_preloaded_urls s) w) as Hin.
  { rewrite <- remove_recently_preloaded_spec, Hf. apply list_elem_of_here. }
  apply list_elem_of_filter in Hin as [Hrec Hin].
  split; [done|]. split; [done|]. split; [|done].
  unfold active in Hact. apply bool_decide_eq_false in Hact.
  apply find_active_None. destruct (_find_active_preload_by_url _ _); [|done].
  exfalso. apply Hact. by eexists.
Qed.

Lemma wanted_preloads_same s s' :
  current_illust_info s' = current_illust_info s →
  speculative_illust_info s' = speculative_illust_info s →
  wanted_preloads s' = wanted_preloads s.
Proof. intros Hc Hs. unfold ImagePreloader.wanted_preloads. by rewrite Hc, Hs. Qed.

(** *** The URLs that are loaded *)

Lemma urls_ok_check_fetch_queue s :
  bookkeeping_ok s → urls_ok s → urls_ok (check_fetch_queue s).
Proof.
  intros Hok [Hb Hnr Hnl Hlr].
  destruct (check_fetch_queue_start s) as [->|(w & c & _ & _ & _ & Hrec & Hlisted & ->)];
    [done|].
  assert (listed_urls (start_preload s c) = url c :: listed_urls s) as Hl.
  { unfold listed_urls. rewrite preloads_start_preload by done.
    by rewrite fmap_cons, listed_urls_cancel_task. }
  split; rewrite ?Hl; try done.
  - by apply NoDup_cons.
  - intros u Hu. apply elem_of_cons in Hu as [->|Hu]; [done|by apply Hlr].
Qed.

Lemma urls_ok_same s s' :
  preloads s' = preloads s → recently_preloaded_urls s' = recently_preloaded_urls s →
  urls_ok s → urls_ok s'.
Proof.
  intros Hp Hr [H1 H2 H3 H4]. split; unfold listed_urls in *; rewrite ?Hp, ?Hr; done.
Qed.

Lemma urls_ok_settled r u s :
  bookkeeping_ok s → urls_ok s → unsettled_url (unsettled s) r = Some u →
  urls_ok (settled r u (with_unsettled (remove_first (r, u)) s)).
Proof.
  intros Hok [Hb Hnr Hnl Hlr] Hu.
  pose proof Hok as [Hfresh Hnd Hlist Hone].
  unfold ImagePreloader.settled. simpl.
  rewrite Hlist in Hu. destruct (settle_index _ _ _ Hu) as (idx & Hidx & Hrm).
  destruct (settle_index_url _ _ _ _ Hu Hidx) as (p & Hp & Hurl).
  rewrite Hidx.
  assert (listed_urls s !! idx = Some u) as Hlu.
  { unfold listed_urls. rewrite list_lookup_fmap, Hp. simpl. by rewrite Hurl. }
  assert (u ∉ recently_preloaded_urls s) as Hfreshu.
  { apply Hlr. by eapply list_elem_of_lookup_2. }
  destruct (recently_preloaded_pushed (recently_preloaded_urls s) u) as [_ Hlen].
  apply urls_ok_check_fetch_queue.
  - split; unfold_preloader.
    + intros r' Hin. apply Hfresh. rewrite list_fmap_delete in Hin.
      eapply elem_of_sublist; [done|]. apply sublist_delete.
    + rewrite list_fmap_delete. eapply sublist_NoDup; [done|]. apply sublist_delete.
    + by rewrite Hlist, Hrm.
    + unfold running_tasks in *. simpl.
      etrans; [apply filter_delete_length|done].
  - split; unfold listed_urls in *; unfold_preloader.
    + done.
    + eapply sublist_NoDup; [|apply sublist_drop].
      apply NoDup_app. split; [done|]. split; [|apply NoDup_singleton].
      intros x Hx Hx'. apply list_elem_of_singleton in Hx'. by subst.
    + rewrite list_fmap_delete. eapply sublist_NoDup; [done|]. apply sublist_delete.
    + intros v Hv Hv'. rewrite list_fmap_delete in Hv.
      assert (v ≠ u) as Hne.
      { intros ->. by apply (not_elem_of_delete_NoDup _ idx u Hnl Hlu). }
      assert (v ∈ recently_preloaded_urls s ++ [u]) as Hin.
      { eapply elem_of_sublist; [exact Hv'|]. apply sublist_drop. }
      apply elem_of_app in Hin as [Hin|Hin].
      * apply (Hlr v); [|done]. eapply elem_of_sublist; [exact Hv|]. apply sublist_delete.
      * by apply list_elem_of_singleton in Hin.
Qed.

Lemma urls_ok_step e s s' :
  bookkeeping_ok s → urls_ok s → step e s = Some s' → urls_ok s'.
Proof.
  intros Hok Hurls Hstep. destruct e as [id|id|t id info|r]; simpl in Hstep.
  - inversion Hstep; subst. unfold suspend, set_current_image.
    case_decide; simpl; [done|]. destruct id; simpl; by destruct Hurls.
  - inversion Hstep; subst. unfold suspend, set_speculative_image.
    case_decide; simpl; [done|]. destruct id; simpl; by destruct Hurls.
  - case_decide; [|done]. inversion Hstep; subst.
    destruct t.
    + unfold ImagePreloader.set_current_image_resumed.
      case_decide; [by destruct Hurls|]. destruct info as [i|]; [|by destruct Hurls].
      apply urls_ok_check_fetch_queue.
      * unfold preload_thumbs. destruct (Nat.ltb (pageCount i) 2); by destruct Hok.
      * unfold preload_thumbs. destruct (Nat.ltb (pageCount i) 2); by destruct Hurls.
    + unfold ImagePreloader.set_speculative_image_resumed.
      case_decide; [by destruct Hurls|]. destruct info as [i|]; [|by destruct Hurls].
      apply urls_ok_check_fetch_queue.
      * unfold preload_thumbs. destruct (Nat.ltb (pageCount i) 2); by destruct Hok.
      * unfold preload_thumbs. destruct (Nat.ltb (pageCount i) 2); by destruct Hurls.
  - destruct (unsettled_url (unsettled s) r) as [u|] eqn:Hu; [|done].
    inversion Hstep; subst. by apply urls_ok_settled.
Qed.

Lemma urls_ok_init : urls_ok init.
Proof.
  split; simpl; [unfold recently_preloaded_max; lia|apply NoDup_nil_2|apply NoDup_nil_2|].
  intros u Hu. by apply elem_of_nil in Hu.
Qed.

Lemma urls_ok_run evs s s' :
  bookkeeping_ok s → urls_ok s → run evs s = Some s' → urls_ok s'.
Proof.
  revert s. induction evs as [|e evs IH]; intros s Hok Hurls Hrun; simpl in Hrun.
  - by inversion Hrun; subst.
  - destruct (step e s) as [s1|] eqn:Hstep; [|done].
    eapply IH; [| |done].
    + by eapply bookkeeping_ok_step.
    + by eapply urls_ok_step.
Qed.

(** X8.  In every state the preloader reaches, no URL is loaded twice at
    the same time (the listed tasks have distinct URLs), no listed task
    loads a URL that is in [recently_preloaded_urls], and
    [recently_preloaded_urls] has at most 1000 entries, each URL at most
    once. *)
Theorem no_url_loaded_twice (s : state) :
  reachable s →
  NoDup (listed_urls s) ∧
  (∀ u, u ∈ listed_urls s → u ∉ recently_preloaded_urls s) ∧
  length (recently_preloaded_urls s) ≤ 1000 ∧
  NoDup (recently_preloaded_urls s).
Proof.
  intros [evs Hrun].
  destruct (urls_ok_run evs init s bookkeeping_ok_init urls_ok_init Hrun)
    as [Hb Hnr Hnl Hlr].
  done.
Qed.

(** X9.  [check_fetch_queue] called twice in a row does the work of one
    call: the task the first call started is found listed by the second,
    which starts nothing and cancels nothing. *)
Theorem check_fetch_queue_idempotent (s : state) :
  check_fetch_queue (check_fetch_queue s) = check_fetch_queue s.
Proof.
  destruct (check_fetch_queue_start s)
    as [Hsame|(w & c & Hw & Hhead & _ & _ & _ & Hstart)].
  { by rewrite !Hsame. }
  rewrite Hstart. rewrite check_fetch_queue_cases.
  assert (filtered_preloads (start_preload s c) = filtered_preloads s) as -> by done.
  unfold ImagePreloader.filtered_preloads. rewrite Hw. simpl.
  destruct (remove_recently_preloaded (recently_preloaded_urls s) w) as [|c' l];
    [done|]. simpl in Hhead. inversion Hhead; subst c'.
  unfold concurrent_preloads. simpl.
  assert (active (start_preload s c) c = true) as ->; [|done].
  unfold active. apply bool_decide_eq_true.
  destruct (cancel_unwanted_prefix (preloads s) [(next_ref s, start c)]) as [l' Hl'].
  unfold start_preload. simpl. rewrite Hl'. simpl.
  rewrite decide_True by done. by eexists.
Qed.

(** X15.  The current target comes first: when [check_fetch_queue]
    starts a task, the task is a candidate of the current target unless
    the URL of every candidate of the current target is in
    [recently_preloaded_urls]; only then is it a candidate of the
    speculative target.  Its URL is never one of
    [recently_preloaded_urls]. *)
Theorem current_target_first (s : state) (current speculative : list preloader) :
  candidates_of (current_illust_info s) = Some current →
  candidates_of (speculative_illust_info s) = Some speculative →
  check_fetch_queue s ≠ s →
  ∃ c, check_fetch_queue s = start_preload s c ∧
       (url c ∉ recently_preloaded_urls s) ∧
       (c ∈ current ∨
        (c ∈ speculative ∧ ∀ c', c' ∈ current → url c' ∈ recently_preloaded_urls s)).
Proof.
  intros Hc Hs Hne.
  destruct (check_fetch_queue_start s)
    as [Hsame|(w & c & Hw & Hhead & _ & Hrec & _ & Hstart)]; [done|].
  exists c. split; [done|]. split; [done|].
  rewrite (wanted_preloads_spec any_tag_muted is_muted_user_id s current speculative
             Hc Hs) in Hw.
  inversion Hw; subst w.
  rewrite remove_recently_preloaded_spec, filter_app in Hhead.
  destruct (filter (λ c, url c ∉ recently_preloaded_urls s) current)
    as [|c0 l] eqn:Hf; simpl in Hhead.
  - right. split.
    + apply head_Some_elem_of in Hhead.
      by apply list_elem_of_filter in Hhead as [_ Hin].
    + intros c' Hin.
      destruct (decide (url c' ∈ recently_preloaded_urls s)) as [|Hnot]; [done|].
      assert (c' ∈ filter (λ c, url c ∉ recently_preloaded_urls s) current) as Hin'
        by (by apply list_elem_of_filter).
      rewrite Hf in Hin'. by apply elem_of_nil in Hin'.
  - left. inversion Hhead; subst c0.
    assert (c ∈ filter (λ c, url c ∉ recently_preloaded_urls s) current) as Hin
      by (rewrite Hf; apply list_elem_of_here).
    by apply list_elem_of_filter in Hin as [_ Hin].
Qed.

(** *** The guard after the [await] *)

(** X10.  Let [set_speculative_image(a)] be called, then
    [set_speculative_image(b)] with [b] other than [a], then
    [set_speculative_image(a)] again, all before any metadata arrives.  A
    call for [a] that resumes while the target is [b] changes nothing.
    With the target back at [a], the first of the two calls for [a] to
    resume stores its metadata; the other then finds metadata stored and
    returns, whatever it awaited: the metadata is stored once and the
    queue is looked at once.  The current target is not touched. *)
Theorem speculative_result_stored_once (s : state) (a : string) (b : option string)
    (i : illust) (info' : option illust) :
  speculative_illust_id s ≠ Some a → b ≠ Some a →
  let s1 := suspend Speculative (set_speculative_image (Some a) s) in
  let s2 := suspend Speculative (set_speculative_image b s1) in
  let s3 := suspend Speculative (set_speculative_image (Some a) s2) in
  step (EvResumed Speculative a info') s2
    = Some (with_awaiting (remove_first (Speculative, a)) s2) ∧
  ∃ s4, step (EvResumed Speculative a (Some i)) s3 = Some s4 ∧
        speculative_illust_id s4 = Some a ∧
        speculative_illust_info s4 = Some i ∧
        current_illust_id s4 = current_illust_id s ∧
        current_illust_info s4 = current_illust_info s ∧
        step (EvResumed Speculative a info') s4
          = Some (with_awaiting (remove_first (Speculative, a)) s4).
Proof.
  intros Ha Hb s1 s2 s3.
  assert (awaiting s1 = awaiting s ++ [(Speculative, a)] ∧
          speculative_illust_id s1 = Some a ∧
          current_illust_id s1 = current_illust_id s ∧
          current_illust_info s1 = current_illust_info s) as (Haw1 & Hid1 & Hc1 & Hci1).
  { unfold s1, suspend, set_speculative_image. by rewrite decide_False. }
  assert (speculative_illust_id s2 = b ∧
          (∃ l, awaiting s2 = awaiting s ++ (Speculative, a) :: l) ∧
          current_illust_id s2 = current_illust_id s ∧
          current_illust_info s2 = current_illust_info s) as (Hid2 & [l2 Haw2] & Hc2 & Hci2).
  { unfold s2, suspend, set_speculative_image.
    rewrite decide_False by (rewrite Hid1; congruence).
    destruct b as [b'|]; simpl; rewrite Haw1, <- ?app_assoc; simpl; by eauto. }
  assert (speculative_illust_id s3 = Some a ∧ speculative_illust_info s3 = None ∧
          awaiting s3 = awaiting s ++ (Speculative, a) :: l2 ++ [(Speculative, a)] ∧
          current_illust_id s3 = current_illust_id s ∧
          current_illust_info s3 = current_illust_info s) as (Hid3 & Hinfo3 & Haw3 & Hc3 & Hci3).
  { unfold s3, suspend, set_speculative_image.
    rewrite decide_False by (rewrite Hid2; congruence).
    simpl. rewrite Haw2, <- app_assoc. done. }
  clearbody s3 s2. clear s1 Haw1 Hid1 Hc1 Hci1.
  split.
  - simpl. rewrite decide_True by (rewrite Haw2; set_solver).
    unfold ImagePreloader.set_speculative_image_resumed.
    rewrite decide_True; [done|]. left. simpl. rewrite Hid2. congruence.
  - set (t := with_awaiting (remove_first (Speculative, a)) s3).
    set (x := preload_thumbs i (with_speculative (speculative_illust_id t) (Some i) t)).
    assert (step (EvResumed Speculative a (Some i)) s3 = Some (check_fetch_queue x))
      as Hstep.
    { simpl. rewrite decide_True by (rewrite Haw3; set_solver).
      unfold ImagePreloader.set_speculative_image_resumed.
      by rewrite decide_False
        by (simpl; rewrite Hid3, Hinfo3; intros [|]; congruence). }
    exists (check_fetch_queue x). split; [exact Hstep|].
    destruct (check_fetch_queue_frame any_tag_muted is_muted_user_id x) as (E1 & E2 & E3 & E4 & _ & E5 & _).
    set (s4 := check_fetch_queue x) in *.
    assert (awaiting s4 = remove_first (Speculative, a) (awaiting s3)) as Haw4.
    { rewrite E5. unfold x, preload_thumbs. by destruct (Nat.ltb (pageCount i) 2). }
    assert (speculative_illust_info s4 = Some i) as Hinfo4.
    { rewrite E4. unfold x, preload_thumbs. by destruct (Nat.ltb (pageCount i) 2). }
    assert (speculative_illust_id s4 = Some a) as Hid4.
    { rewrite E3. unfold x, preload_thumbs. by destruct (Nat.ltb (pageCount i) 2). }
    assert (current_illust_id s4 = current_illust_id s) as Hc4.
    { rewrite E1. unfold x, preload_thumbs. by destruct (Nat.ltb (pageCount i) 2). }
    assert (current_illust_info s4 = current_illust_info s) as Hci4.
    { rewrite E2. unfold x, preload_thumbs. by destruct (Nat.ltb (pageCount i) 2). }
    clearbody s4. repeat (split; [done|]).
    simpl. rewrite decide_True.
    2:{ rewrite Haw4, Haw3.
        apply (elem_of_remove_first_twice (Speculative, a) (awaiting s) l2 []). }
    unfold ImagePreloader.set_speculative_image_resumed.
    rewrite decide_True; [done|]. right. simpl. rewrite Hinfo4. congruence.
Qed.

(** *** Thumbnails *)

(** X11.  When the metadata of the current target arrives and is accepted,
    the small URLs of all its pages are handed to [helpers.preload_images]
    if [pageCount] is 2 or more, and nothing is handed over otherwise.
    Muting plays no part in this: for a muted illustration the thumbnails
    are preloaded all the same, while (with no speculative metadata
    stored) no task is started and none is cancelled. *)
Theorem thumbs_preloaded_whatever_is_muted (s : state) (a : string) (i : illust) :
  (Current, a) ∈ awaiting s →
  current_illust_id s = Some a → current_illust_info s = None →
  ∃ s', step (EvResumed Current a (Some i)) s = Some s' ∧
        current_illust_info s' = Some i ∧
        preloaded_thumbs s' =
          preloaded_thumbs s ++
            (if Nat.ltb (pageCount i) 2 then []
             else [urls_small <$> mangaPages i]) ∧
        (any_tag_muted (tags i) = true ∨ is_muted_user_id (userId i) = true →
         speculative_illust_info s = None →
         preloads s' = preloads s ∧ unsettled s' = unsettled s).
Proof.
  intros Hin Hid Hinfo. simpl. rewrite decide_True by done.
  eexists. split; [done|].
  unfold ImagePreloader.set_current_image_resumed.
  rewrite decide_False by (simpl; rewrite Hid, Hinfo; intros [|]; congruence).
  match goal with |- context [check_fetch_queue ?x] =>
    destruct (check_fetch_queue_frame any_tag_muted is_muted_user_id x) as (_ & E2 & _ & _ & _ & _ & E7);
    set (t := x) in * end.
  split; [|split].
  - rewrite E2. unfold t, preload_thumbs. by destruct (Nat.ltb (pageCount i) 2).
  - rewrite E7. unfold t, preload_thumbs.
    destruct (Nat.ltb (pageCount i) 2); simpl; [by rewrite app_nil_r|done].
  - intros Hmuted Hspec.
    assert (wanted_preloads t = Some []) as Hw.
    { unfold ImagePreloader.wanted_preloads.
      assert (current_illust_info t = Some i) as ->
        by (unfold t, preload_thumbs; by destruct (Nat.ltb (pageCount i) 2)).
      assert (speculative_illust_info t = None) as ->
        by (unfold t, preload_thumbs; by destruct (Nat.ltb (pageCount i) 2)).
      unfold ImagePreloader.create_preloaders_for_illust.
      destruct Hmuted as [->| ->]; [done|].
      by destruct (any_tag_muted (tags i)). }
    assert (check_fetch_queue t = t) as ->.
    { unfold ImagePreloader.check_fetch_queue. by rewrite Hw. }
    unfold t, preload_thumbs. by destruct (Nat.ltb (pageCount i) 2).
Qed.

(** *** An animation without its metadata *)

Lemma wanted_preloads_lacking t s d :
  target_info t s = Some d → lacks_metadata d → wanted_preloads s = None.
Proof.
  intros Hinfo (Htag & Huser & Htype & Hmeta).
  assert (create_preloaders_for_illust d = None) as Hnone.
  { unfold ImagePreloader.create_preloaders_for_illust.
    by rewrite Htag, Huser, Htype, Hmeta. }
  unfold ImagePreloader.wanted_preloads. destruct t; simpl in Hinfo; rewrite Hinfo.
  - by rewrite Hnone.
  - rewrite Hnone. by destruct (match current_illust_info s with
                                | Some info => create_preloaders_for_illust info
                                | None => Some []
                                end).
Qed.

Lemma check_fetch_queue_lacking t s d :
  target_info t s = Some d → lacks_metadata d → check_fetch_queue s = s.
Proof.
  intros Hinfo Hlack. unfold ImagePreloader.check_fetch_queue.
  by rewrite (wanted_preloads_lacking t s d).
Qed.

Lemma lacking_step t e s s' d :
  target_info t s = Some d → lacks_metadata d → (∀ id, e ≠ set_target t id) →
  step e s = Some s' →
  target_info t s' = Some d ∧ next_ref s' = next_ref s ∧
  preloads s' `sublist_of` preloads s.
Proof.
  intros Hinfo Hlack Hne Hstep. destruct e as [id|id|tg id info|r]; simpl in Hstep.
  - inversion Hstep; subst. destruct t; [by destruct (Hne id)|].
    unfold suspend, set_current_image.
    case_decide; simpl; [done|]. by destruct id.
  - inversion Hstep; subst. destruct t; [|by destruct (Hne id)].
    unfold suspend, set_speculative_image.
    case_decide; simpl; [done|]. by destruct id.
  - case_decide; [|done]. inversion Hstep; subst. destruct tg.
    + unfold ImagePreloader.set_current_image_resumed.
      case_decide as Hg; [done|]. destruct info as [i|]; simpl.
      * destruct t; simpl in Hinfo.
        { exfalso. apply Hg. right. simpl. congruence. }
        rewrite (check_fetch_queue_lacking Speculative _ d); [|by
          unfold preload_thumbs; destruct (Nat.ltb (pageCount i) 2)|done].
        unfold preload_thumbs. by destruct (Nat.ltb (pageCount i) 2).
      * destruct t; simpl in Hinfo; [|done].
        exfalso. apply Hg. right. simpl. congruence.
    + unfold ImagePreloader.set_speculative_image_resumed.
      case_decide as Hg; [done|]. destruct info as [i|]; simpl.
      * destruct t; simpl in Hinfo.
        2:{ exfalso. apply Hg. right. simpl. congruence. }
        rewrite (check_fetch_queue_lacking Current _ d); [|by
          unfold preload_thumbs; destruct (Nat.ltb (pageCount i) 2)|done].
        unfold preload_thumbs. by destruct (Nat.ltb (pageCount i) 2).
      * destruct t; simpl in Hinfo; [done|].
        exfalso. apply Hg. right. simpl. congruence.
  - destruct (unsettled_url (unsettled s) r) as [u|]; [|done].
    inversion Hstep; subst. unfold ImagePreloader.settled. simpl.
    destruct (indexOf_ref (preloads s) r) as [idx|].
    + rewrite (check_fetch_queue_lacking t _ d); [|by destruct t|done].
      split; [by destruct t|]. split; [done|]. simpl. apply sublist_delete.
    + split; [by destruct t|]. done.
Qed.

(** X12.  While the metadata stored for a target (the current or the
    speculative one) is that of an animation that is not muted and has no
    ugoira metadata, [check_fetch_queue] stops at the read of
    [ugoiraMetadata.originalSrc] every time: as long as that target is not
    set anew, no event starts a task, for either target, and none is
    cancelled; settlements only shorten the list. *)
Theorem missing_metadata_blocks_queue (t : target) (evs : list event)
    (s s' : state) (d : illust) :
  target_info t s = Some d → lacks_metadata d →
  (∀ id, set_target t id ∉ evs) →
  run evs s = Some s' →
  target_info t s' = Some d ∧ next_ref s' = next_ref s ∧
  preloads s' `sublist_of` preloads s.
Proof.
  intros Hinfo Hlack. revert s Hinfo.
  induction evs as [|e evs IH]; intros s Hinfo Hne Hrun; simpl in Hrun.
  - by inversion Hrun; subst.
  - destruct (step e s) as [s1|] eqn:Hstep; [|done].
    destruct (lacking_step t e s s1 d Hinfo Hlack) as (H1 & H2 & H3); [|done|].
    { intros id ->. apply (Hne id). apply list_elem_of_here. }
    destruct (IH s1 H1) as (H4 & H5 & H6); [|done|].
    { intros id Hin. apply (Hne id). by apply list_elem_of_further. }
    split; [done|]. split; [congruence|]. by etrans.
Qed.

(** *** Working through the wanted list *)

Lemma settle_only_task s c :
  preloads s = [] → unsettled s = [] →
  length (recently_preloaded_urls s) < recently_preloaded_max →
  step (EvSettled (next_ref s)) (start_preload s c) =
    Some (check_fetch_queue
            (with_recently_preloaded_urls (λ l, l ++ [url c])
               (with_next_ref (S (next_ref s)) s))).
Proof.
  intros Hp Hu Hlen. unfold ImagePreloader.step, ImagePreloader.settled.
  generalize (ImagePreloader.check_fetch_queue any_tag_muted is_muted_user_id).
  intros f. destruct s as [ci cinfo si sinfo pl rec nr un aw th].
  simpl in *. subst pl un. unfold start_preload. simpl.
  rewrite decide_True by done. unfold indexOf_ref. simpl.
  rewrite decide_True by done. do 2 f_equal.
  cbv beta iota delta [with_current with_speculative with_preloads
    with_recently_preloaded_urls with_next_ref with_unsettled with_awaiting
    with_preloaded_thumbs current_illust_id current_illust_info
    speculative_illust_id speculative_illust_info preloads
    recently_preloaded_urls next_ref unsettled awaiting preloaded_thumbs].
  simpl. rewrite decide_True by done.
  replace (length (rec ++ [url c]) - recently_preloaded_max) with 0
    by (rewrite length_app; simpl; lia).
  done.
Qed.

Lemma queue_idle s w :
  wanted_preloads s = Some w →
  remove_recently_preloaded (recently_preloaded_urls s) w = [] →
  check_fetch_queue s = s ∧ ∀ c, c ∈ w → url c ∈ recently_preloaded_urls s.
Proof.
  intros Hw Hnil. split.
  - unfold ImagePreloader.check_fetch_queue. by rewrite Hw, Hnil.
  - intros c Hc. destruct (decide (url c ∈ recently_preloaded_urls s)) as [|Hnot];
      [done|].
    assert (c ∈ remove_recently_preloaded (recently_preloaded_urls s) w) as Hin.
    { rewrite remove_recently_preloaded_spec. by apply list_elem_of_filter. }
    rewrite Hnil in Hin. by apply elem_of_nil in Hin.
Qed.

Lemma queue_drains_from n : ∀ s w,
  preloads s = [] → unsettled s = [] → wanted_preloads s = Some w →
  length (remove_recently_preloaded (recently_preloaded_urls s) w) ≤ n →
  length (recently_preloaded_urls s)
    + length (remove_recently_preloaded (recently_preloaded_urls s) w)
    ≤ recently_preloaded_max →
  ∃ rs s', run (EvSettled <$> rs) (check_fetch_queue s) = Some s' ∧
           length rs = length (recently_preloaded_urls s')
                       - length (recently_preloaded_urls s) ∧
           length rs ≤ length (remove_recently_preloaded (recently_preloaded_urls s) w) ∧
           preloads s' = [] ∧ unsettled s' = [] ∧
           recently_preloaded_urls s `prefix_of` recently_preloaded_urls s' ∧
           (∀ c, c ∈ w → url c ∈ recently_preloaded_urls s').
Proof.
  induction n as [|n IH]; intros s w Hp Hu Hw Hn Hbound.
  - assert (remove_recently_preloaded (recently_preloaded_urls s) w = []) as Hnil.
    { apply length_zero_iff_nil. lia. }
    destruct (queue_idle s w Hw Hnil) as [-> Hall].
    exists [], s. simpl. rewrite Hnil. simpl.
    split; [done|]. split; [lia|]. done.
  - destruct (remove_recently_preloaded (recently_preloaded_urls s) w)
      as [|c l] eqn:Hf.
    { destruct (queue_idle s w Hw Hf) as [-> Hall].
      exists [], s. simpl. split; [done|]. split; [lia|]. done. }
    assert (check_fetch_queue s = start_preload s c) as ->.
    { rewrite check_fetch_queue_cases. unfold ImagePreloader.filtered_preloads.
      rewrite Hw. simpl. rewrite Hf. unfold concurrent_preloads. simpl.
      pose proof (existsb_nil_active s (c :: take 4 l) Hp) as Hex. simpl in Hex.
      by rewrite Hex. }
    simpl in Hn, Hbound.
    set (s2 := with_recently_preloaded_urls (λ l, l ++ [url c])
                 (with_next_ref (S (next_ref s)) s)).
    assert (c ∈ filter (λ c, url c ∉ recently_preloaded_urls s) w) as Hc.
    { rewrite <- remove_recently_preloaded_spec, Hf. apply list_elem_of_here. }
    apply list_elem_of_filter in Hc as [Hcrec Hcw].
    assert (length (remove_recently_preloaded (recently_preloaded_urls s2) w)
              < S (length l)) as Hless.
    { rewrite !remove_recently_preloaded_spec.
      replace (S (length l)) with
        (length (filter (λ c, url c ∉ recently_preloaded_urls s) w))
        by (by rewrite <- remove_recently_preloaded_spec, Hf).
      apply (filter_length_shrinks _ _ w c); [|done|done|].
      - intros x Hx Hx'. apply Hx. unfold s2. simpl. set_solver.
      - intros Hx. apply Hx. unfold s2. simpl. set_solver. }
    assert (length (recently_preloaded_urls s2)
            = S (length (recently_preloaded_urls s))) as Hl2.
    { unfold s2. simpl. rewrite length_app. simpl. lia. }
    destruct (IH s2 w) as (rs & s' & Hrun & Hlen & Hle & Hp' & Hu' & Hpre & Hall);
      [done|done|done|lia|rewrite Hl2; lia|].
    exists (next_ref s :: rs), s'. split.
    { rewrite fmap_cons. change (run (?e :: ?es) ?x) with
        (match step e x with Some y => run es y | None => None end).
      rewrite settle_only_task by (try done; lia). done. }
    assert (recently_preloaded_urls s `prefix_of` recently_preloaded_urls s') as Hpre2.
    { etrans; [|done]. unfold s2. simpl. by apply prefix_app_r. }
    assert (length (recently_preloaded_urls s) + 1 ≤ length (recently_preloaded_urls s'))
      as Hlen2.
    { apply prefix_length in Hpre. rewrite Hl2 in Hpre. lia. }
    split.
    { simpl. rewrite Hlen, Hl2. lia. }
    split; [simpl; lia|]. done.
Qed.

(** X13.  The wanted list is worked through one task at a time.  With no
    task listed and room left in [recently_preloaded_urls] for the wanted
    URLs that are not in it, [check_fetch_queue] followed by the
    settlement of each task it starts (every settlement starts the next
    task in the same turn) ends with no task listed and the URL of every
    wanted candidate in [recently_preloaded_urls], after one settlement
    per URL added, and without any earlier entry of the list being
    dropped. *)
Theorem queue_drains (s : state) (w : list preloader) :
  preloads s = [] → unsettled s = [] → wanted_preloads s = Some w →
  length (recently_preloaded_urls s)
    + length (remove_recently_preloaded (recently_preloaded_urls s) w) ≤ 1000 →
  ∃ rs s', run (EvSettled <$> rs) (check_fetch_queue s) = Some s' ∧
           length rs = length (recently_preloaded_urls s')
                       - length (recently_preloaded_urls s) ∧
           length rs ≤ length (remove_recently_preloaded (recently_preloaded_urls s) w) ∧
           preloads s' = [] ∧ unsettled s' = [] ∧
           recently_preloaded_urls s `prefix_of` recently_preloaded_urls s' ∧
           (∀ c, c ∈ w → url c ∈ recently_preloaded_urls s').
Proof.
  intros Hp Hu Hw Hbound.
  by apply (queue_drains_from
              (length (remove_recently_preloaded (recently_preloaded_urls s) w))).
Qed.

End WithMuting.

(** *** Concrete runs *)

Lemma no_url_loaded_twice_witness :
  NoDup (listed_urls (state_after run_switch_target)) ∧
  listed_urls (state_after run_switch_target) = ["m/s1"; "a/s1"]%string.
Proof.
  split; [|vm_compute; reflexivity].
  refine (proj1 (no_url_loaded_twice mute_no_tag mute_no_user _ _)).
  exists run_switch_target. vm_compute. reflexivity.
Defined.

Lemma current_target_first_witness :
  let s := with_recently_preloaded_urls (λ _, ["a/s1"; "a/o1"]%string)
             (with_speculative (Some "2"%string) (Some item_b)
                (with_current (Some "1"%string) (Some item_a) init)) in
  ∃ c, check_fetch_queue mute_no_tag mute_no_user s = start_preload s c ∧
       c ∈ [_xhr_preloader "b/zip"; _img_preloader "b/o1"].
Proof.
  intros s.
  destruct (current_target_first mute_no_tag mute_no_user s
              [_img_preloader "a/s1"; _img_preloader "a/o1"]
              [_xhr_preloader "b/zip"; _img_preloader "b/o1"])
    as (c & Hstart & Hrec & [Hcur|[Hspec _]]).
  - reflexivity.
  - reflexivity.
  - vm_compute. intros H. discriminate H.
  - exfalso. apply Hrec.
    apply elem_of_cons in Hcur as [->|Hcur]; [vm_compute; apply list_elem_of_here|].
    apply list_elem_of_singleton in Hcur as ->.
    vm_compute. apply list_elem_of_further, list_elem_of_here.
  - exists c. split; [exact Hstart|exact Hspec].
Defined.

Lemma speculative_result_stored_once_witness :
  let s3 := suspend Speculative
              (set_speculative_image (Some "1"%string)
                 (suspend Speculative
                    (set_speculative_image (Some "3"%string)
                       (suspend Speculative
                          (set_speculative_image (Some "1"%string) init))))) in
  ∃ s4, step mute_no_tag mute_no_user
          (EvResumed Speculative "1" (Some item_a)) s3 = Some s4 ∧
        speculative_illust_info s4 = Some item_a ∧
        step mute_no_tag mute_no_user
          (EvResumed Speculative "1" (Some item_m)) s4
          = Some (with_awaiting (remove_first (Speculative, "1"%string)) s4).
Proof.
  intros s3.
  destruct (speculative_result_stored_once mute_no_tag mute_no_user init "1"
              (Some "3"%string) item_a (Some item_m))
    as [_ (s4 & H1 & _ & H3 & _ & _ & H6)].
  - intros H. discriminate H.
  - intros H. discriminate H.
  - exists s4. split; [exact H1|]. split; [exact H3|exact H6].
Defined.

Lemma thumbs_preloaded_whatever_is_muted_witness :
  let s := suspend Current (set_current_image (Some "7"%string) init) in
  ∃ s', step mute_tag_r18 mute_user_13
          (EvResumed Current "7" (Some item_muted_manga)) s = Some s' ∧
        preloaded_thumbs s' = [["y/s1"; "y/s2"; "y/s3"]%string] ∧
        preloads s' = [].
Proof.
  intros s.
  destruct (thumbs_preloaded_whatever_is_muted mute_tag_r18 mute_user_13 s "7"
              item_muted_manga) as (s' & H1 & _ & H3 & H4).
  - vm_compute. apply list_elem_of_here.
  - reflexivity.
  - reflexivity.
  - destruct H4 as [H5 _]; [left; reflexivity|reflexivity|].
    exists s'. split; [exact H1|]. split; [exact H3|exact H5].
Defined.

Lemma missing_metadata_blocks_queue_witness :
  let s := state_after [EvSetSpeculativeImage (Some "6"%string);
                        EvResumed Speculative "6" (Some item_broken);
                        EvSetCurrentImage (Some "1"%string)] in
  ∃ s', run mute_no_tag mute_no_user [EvResumed Current "1" (Some item_a)] s
          = Some s' ∧
        speculative_illust_info s' = Some item_broken ∧
        next_ref s' = 0 ∧ preloads s' = [].
Proof.
  intros s.
  assert (∃ s', run mute_no_tag mute_no_user
                  [EvResumed Current "1" (Some item_a)] s = Some s') as [s' Hrun].
  { vm_compute. eexists. reflexivity. }
  exists s'. split; [exact Hrun|].
  destruct (missing_metadata_blocks_queue mute_no_tag mute_no_user Speculative
              [EvResumed Current "1" (Some item_a)] s s' item_broken)
    as (H1 & H2 & H3).
  - vm_compute. reflexivity.
  - repeat split.
  - intros id H. apply list_elem_of_singleton in H. discriminate H.
  - exact Hrun.
  - split; [exact H1|]. split; [exact H2|].
    apply sublist_nil_r. exact H3.
Defined.

Lemma queue_drains_witness :
  let s := with_current (Some "3"%string) (Some item_m) init in
  ∃ rs s', run mute_no_tag mute_no_user (EvSettled <$> rs)
             (check_fetch_queue mute_no_tag mute_no_user s) = Some s' ∧
           preloads s' = [] ∧
           "m/o1"%string ∈ recently_preloaded_urls s'.
Proof.
  intros s.
  destruct (queue_drains mute_no_tag mute_no_user s
              [_img_preloader "m/s1"; _img_preloader "m/s2"; _img_preloader "m/s3";
               _img_preloader "m/o1"])
    as (rs & s' & Hrun & _ & _ & Hp & _ & _ & Hall).
  - reflexivity.
  - reflexivity.
  - vm_compute. reflexivity.
  - vm_compute. lia.
  - exists rs, s'. split; [exact Hrun|]. split; [exact Hp|].
    apply (Hall (_img_preloader "m/o1")).
    do 3 apply list_elem_of_further. apply list_elem_of_here.
Defined.

End ImagePreloaderMore.
